(** * 3RF_2_EXR: batch conversion of Hasselblad 3FR raw files to OpenEXR

    A shallow embedding of the two programs of the repository,

      - the general converter (sRGB linearisation, optional exposure and
        tone mapping, options [--linear] and [--exposure]), and
      - the full-sensor converter [MAC/FULL_SENSOR/batch_3fr_to_exr.cpp],

    together with the properties of their transfer functions, of the
    single-image converter [convert3frToExr] and of the batch driver [main].

    Conventions of the embedding.

      - [float] arithmetic is kept behind the interface [FloatModel].  Its
        instance [Binary32] gives the IEEE-754 single precision operations
        of [SpecFloat] (24 bits of precision, round to nearest even);
        statements about the values of single precision numbers are made
        over the real numbers they stand for.
      - LibRaw, OpenEXR, libm, the directory calls and [std::stof] are
        outside the repository.  Their answers are collected in a [world]
        record; the converters are functions of the world.
      - Library calls with an effect are recorded, in program order, in a
        trace of [event]s; the EXR files on disk are a finite map from
        paths to file states.
      - Output written to [std::cout] is not modelled. *)

From Stdlib Require Import ZArith Ascii String.
From Stdlib Require Import Floats.SpecFloat Reals Lra.
From stdpp Require Import gmap strings list.

Local Open Scope Z_scope.

(** ** Floating point interface *)

(** The operations the sources apply to [float] values, and the conversion
    to OpenEXR's 16 bit [half] performed by every assignment to a field of
    [Imf::Rgba]. *)
Class FloatModel := {
  float : Type;
  half : Type;
  of_int : Z -> float;            (* conversion of an integer operand *)
  literal : Z -> Z -> float;      (* the decimal literal n/d, as in 12.92f *)
  fadd : float -> float -> float;
  fsub : float -> float -> float;
  fmul : float -> float -> float;
  fdiv : float -> float -> float;
  fltb : float -> float -> bool;  (* a < b *)
  fleb : float -> float -> bool;  (* a <= b *)
  feqb : float -> float -> bool;  (* a == b *)
  to_half : float -> half
}.

Module Binary32.

Definition prec : Z := 24.
Definition emax : Z := 128.

Definition of_Z (z : Z) : spec_float := binary_normalize prec emax z 0 false.

(** A decimal literal whose digits and power of ten are both below 2^24
    is the correctly rounded quotient of two exactly represented
    integers. *)
Definition lit (n d : Z) : spec_float := SFdiv prec emax (of_Z n) (of_Z d).

(** Conversion to binary16 (11 bits of precision), round to nearest even. *)
Definition to_binary16 (x : spec_float) : spec_float :=
  match x with
  | S754_finite s m e => binary_round 11 16 s m e
  | _ => x
  end.

(** Zero of either sign, a positive number, plus infinity or NaN. *)
Definition not_negative (f : spec_float) : Prop :=
  match f with
  | S754_finite true _ _ | S754_infinity true => False
  | _ => True
  end.

(** The same without the negative zero. *)
Definition positive_or_nan (f : spec_float) : Prop :=
  match f with
  | S754_zero false | S754_finite false _ _ | S754_infinity false
  | S754_nan => True
  | _ => False
  end.

#[export] Instance model : FloatModel := {|
  float := spec_float;
  half := spec_float;
  of_int := of_Z;
  literal := lit;
  fadd := SFadd prec emax;
  fsub := SFsub prec emax;
  fmul := SFmul prec emax;
  fdiv := SFdiv prec emax;
  fltb := SFltb;
  fleb := SFleb;
  feqb := SFeqb;
  to_half := to_binary16
|}.

End Binary32.

(** ** Transfer functions *)

Section Transfer.
Context {fm : FloatModel}.

(** [std::pow] on floats, from libm. *)
Variable powf : float -> float -> float.

(** [std::max(a, b)] is [(a < b) ? b : a], [std::min(a, b)] is
    [(b < a) ? b : a]. *)
Definition fmax (a b : float) : float := if fltb a b then b else a.
Definition fmin (a b : float) : float := if fltb b a then b else a.

Definition clamp01 (x : float) : float :=
  fmax (literal 0 1) (fmin (literal 1 1) x).

Definition applySRGBCurve (linear : float) : float :=
  let linear := clamp01 linear in
  if fleb linear (literal 31308 10000000) then
    fmul (literal 1292 100) linear
  else
    fsub (fmul (literal 1055 1000)
               (powf linear (fdiv (literal 1 1) (literal 24 10))))
         (literal 55 1000).

Definition applySRGBInverse (srgb : float) : float :=
  let srgb := clamp01 srgb in
  if fleb srgb (literal 4045 100000) then
    fdiv srgb (literal 1292 100)
  else
    powf (fdiv (fadd srgb (literal 55 1000)) (literal 1055 1000))
         (literal 24 10).

Definition simpleToneMap (linear exposure : float) : float :=
  let linear := fmul linear exposure in
  fdiv linear (fadd (literal 1 1) linear).

End Transfer.

(** ** Integers of the C++ program *)

Definition INT_MIN : Z := - 2 ^ 31.
Definition INT_MAX : Z := 2 ^ 31 - 1.

(** Signed overflow of an [int] expression is undefined behaviour: the
    checked value is [None]. *)
Definition int (z : Z) : option Z :=
  if decide (INT_MIN <= z <= INT_MAX) then Some z else None.

(** ** The processed image handed out by LibRaw *)

(** [libraw_processed_image_t]: four [ushort] fields and the sample bytes. *)
Record processed_image := {
  img_height : Z;
  img_width : Z;
  img_colors : Z;
  img_bits : Z;
  img_data : list Byte.byte
}.

Definition byte_value (b : Byte.byte) : Z := Z.of_N (Byte.to_N b).

(** [((unsigned char* )data)[i]]; a read outside the buffer is undefined. *)
Definition read_u8 (data : list Byte.byte) (i : Z) : option Z :=
  if decide (0 <= i) then byte_value <$> data !! Z.to_nat i else None.

(** [((unsigned short* )data)[i]] on a little-endian host. *)
Definition read_u16 (data : list Byte.byte) (i : Z) : option Z :=
  lo ← read_u8 data (2 * i);
  hi ← read_u8 data (2 * i + 1);
  Some (lo + 256 * hi).

(** [int idx = (y * width + x) * colors]. *)
Definition pixel_index (y x width colors : Z) : option Z :=
  row ← int (y * width);
  col ← int (row + x);
  int (col * colors).

(** ** Pixels of the output *)

Section Pixels.
Context {fm : FloatModel}.
Variable powf : float -> float -> float.

(** [Imf::Rgba]: four [half] fields. *)
Record Rgba := { r : half; g : half; b : half; a : half }.

(** [if (useSRGB) v = applySRGBInverse(v);] *)
Definition linearize_stage (useSRGB : bool) (v : float) : float :=
  if useSRGB then applySRGBInverse powf v else v.

(** [if (exposure != 1.0f) v = simpleToneMap(v, exposure);] *)
Definition tonemap_stage (exposure : float) (v : float) : float :=
  if negb (feqb exposure (literal 1 1)) then simpleToneMap v exposure else v.

(** One iteration of the inner loop of the general converter.  [read] and
    [maxv] are [read_u16] and 65535 in the 16 bit loop, [read_u8] and 255
    in the 8 bit loop; the two loops are otherwise the same text. *)
Definition convert_pixel
    (read : list Byte.byte -> Z -> option Z) (maxv : Z)
    (image : processed_image) (useSRGB : bool) (exposure : float)
    (y x : Z) : option Rgba :=
  let colors := img_colors image in
  let data := img_data image in
  idx ← pixel_index y x (img_width image) colors;
  if decide (3 <= colors) then
    i1 ← int (idx + 1);
    i2 ← int (idx + 2);
    s0 ← read data idx;
    s1 ← read data i1;
    s2 ← read data i2;
    let r0 := fdiv (of_int s0) (literal maxv 1) in
    let g0 := fdiv (of_int s1) (literal maxv 1) in
    let b0 := fdiv (of_int s2) (literal maxv 1) in
    let r1 := linearize_stage useSRGB r0 in
    let g1 := linearize_stage useSRGB g0 in
    let b1 := linearize_stage useSRGB b0 in
    let r2 := tonemap_stage exposure r1 in
    let g2 := tonemap_stage exposure g1 in
    let b2 := tonemap_stage exposure b1 in
    Some {| r := to_half r2; g := to_half g2; b := to_half b2;
            a := to_half (literal 1 1) |}
  else
    s ← read data idx;
    let gray := fdiv (of_int s) (literal maxv 1) in
    let gray := linearize_stage useSRGB gray in
    let gray := tonemap_stage exposure gray in
    Some {| r := to_half gray; g := to_half gray; b := to_half gray;
            a := to_half (literal 1 1) |}.

(** The branch on [image->bits] of the general converter: 16 bit samples,
    otherwise the 8 bit loop. *)
Definition general_pixel (image : processed_image) (useSRGB : bool)
    (exposure : float) (y x : Z) : option Rgba :=
  if decide (img_bits image = 16)
  then convert_pixel read_u16 65535 image useSRGB exposure y x
  else convert_pixel read_u8 255 image useSRGB exposure y x.

(** One iteration of the inner loop of the full-sensor converter, which
    indexes with the constant 3 and applies no transfer function. *)
Definition full_sensor_pixel
    (read : list Byte.byte -> Z -> option Z) (maxv : Z)
    (image : processed_image) (y x : Z) : option Rgba :=
  let data := img_data image in
  idx ← pixel_index y x (img_width image) 3;
  i0 ← int (idx + 0);
  i1 ← int (idx + 1);
  i2 ← int (idx + 2);
  s0 ← read data i0;
  s1 ← read data i1;
  s2 ← read data i2;
  Some {| r := to_half (fdiv (of_int s0) (literal maxv 1));
          g := to_half (fdiv (of_int s1) (literal maxv 1));
          b := to_half (fdiv (of_int s2) (literal maxv 1));
          a := to_half (literal 1 1) |}.

(** [for (y = 0; y < height; ++y) for (x = 0; x < width; ++x)
    pixels[y][x] = ...]: the filled [Array2D], or [None] when an
    iteration is undefined. *)
Definition fill_pixels (px : Z -> Z -> option Rgba) (height width : Z)
    : option (list (list Rgba)) :=
  mapM (fun y => mapM (fun x => px y x) (seqZ 0 width)) (seqZ 0 height).

(** [pixels[y][x]] of a filled array. *)
Definition pixel_at (pixels : list (list Rgba)) (y x : Z) : option Rgba :=
  row ← pixels !! Z.to_nat y;
  row !! Z.to_nat x.

End Pixels.

(** ** The decoding session and the outside world *)

(** The fields of [imgdata.sizes] the converters touch. *)
Record image_sizes := {
  raw_height : Z;
  raw_width : Z;
  height : Z;
  width : Z;
  top_margin : Z;
  left_margin : Z;
  iheight : Z;
  iwidth : Z
}.

Definition LIBRAW_SUCCESS : Z := 0.

(** What LibRaw answers for one input file: the return codes of
    [open_file], [unpack] and [dcraw_process], the geometry found in the
    file, and the result of [dcraw_make_mem_image] (a null pointer is
    [None]). *)
Record raw_behaviour := {
  rb_open : Z;
  rb_sizes : image_sizes;
  rb_unpack : Z;
  rb_process : Z;
  rb_image : option processed_image
}.

(** Where, if anywhere, OpenEXR throws while one output file is written:
    in the constructor of [RgbaOutputFile] (the file could not be created),
    in the allocation of the [Array2D], in [setFrameBuffer] or in
    [writePixels]. *)
Inductive exr_fault :=
| NoFault
| FaultCreate
| FaultAlloc
| FaultSetFrameBuffer
| FaultWritePixels.

#[export] Instance exr_fault_eq_dec : EqDecision exr_fault.
Proof. solve_decision. Defined.

(** One entry returned by [readdir]: [d_type] and [d_name]. *)
Record dirent := { d_type : Z; d_name : string }.

Definition DT_UNKNOWN : Z := 0.
Definition DT_REG : Z := 8.

(** Library calls that leave a mark, in the order the program makes them. *)
Inductive event :=
| EvOpenFile (path : string)
| EvSetParam (name : string) (value : Z)
| EvSetSizes (sizes : image_sizes)
| EvUnpack
| EvProcess
| EvMakeMemImage
| EvCreateExr (path : string) (width height : Z)
| EvWritePixels (path : string) (height : Z)
| EvClearMem
| EvMkdir (path : string).

#[export] Instance image_sizes_eq_dec : EqDecision image_sizes.
Proof. solve_decision. Defined.

#[export] Instance event_eq_dec : EqDecision event.
Proof. solve_decision. Defined.

Section World.
Context {fm : FloatModel}.

(** An EXR file on disk: created and not completely written, or holding
    all its scan lines. *)
Inductive exr_file :=
| Incomplete (width height : Z)
| Complete (pixels : list (list Rgba)).

(** [libraw] is what LibRaw answers for a file under the parameters the
    program at hand sets before it opens the file.  The two programs set
    different parameters, so a world describes the runs of one program.
    Where a statement speaks of both programs it holds of each of them in
    every world; none compares what the two decode from the same file. *)
Record world := {
  libraw : string -> raw_behaviour;
  exr : string -> exr_fault;
  libm_pow : float -> float -> float;
  stof : string -> option float;          (* [None]: std::stof throws *)
  stat_is_dir : string -> bool;           (* stat succeeds, S_IFDIR set *)
  mkdir_ok : string -> bool;              (* mkdir == 0 || errno == EEXIST *)
  opendir : string -> option (list dirent)
}.

Record state := {
  files : gmap string exr_file;
  trace : list event
}.

Definition emit (e : event) (st : state) : state :=
  {| files := files st; trace := trace st ++ [e] |}.

Definition emit_all (es : list event) (st : state) : state :=
  {| files := files st; trace := trace st ++ es |}.

Definition store (path : string) (f : exr_file) (st : state) : state :=
  {| files := <[path := f]> (files st); trace := trace st |}.

(** The eight assignments that make the whole sensor the image area. *)
Definition force_full_sensor (s : image_sizes) : image_sizes :=
  {| raw_height := raw_height s;
     raw_width := raw_width s;
     height := raw_height s;
     width := raw_width s;
     top_margin := 0;
     left_margin := 0;
     iheight := raw_height s;
     iwidth := raw_width s |}.

(** [directoryExists]: [stat] succeeds and reports a directory. *)
Definition directoryExists (w : world) (path : string) : bool :=
  stat_is_dir w path.

(** [createDirectory]: [mkdir(path, 0755) == 0 || errno == EEXIST]. *)
Definition createDirectory (w : world) (path : string) (st : state)
    : bool * state :=
  if mkdir_ok w path then (true, emit (EvMkdir path) st) else (false, st).

End World.

Arguments world : clear implicits.
Arguments world {fm}.
Arguments state {fm}.
Arguments exr_file {fm}.

(** ** File name helpers (the same text in both programs) *)

Local Open Scope string_scope.
Local Open Scope list_scope.

(** [::tolower] in the "C" locale. *)
Definition tolower (c : ascii) : ascii :=
  let n := nat_of_ascii c in
  if ((65 <=? n) && (n <=? 90))%nat then ascii_of_nat (n + 32) else c.

Fixpoint transform (f : ascii -> ascii) (s : string) : string :=
  match s with
  | EmptyString => EmptyString
  | String c s' => String (f c) (transform f s')
  end.

Definition is3frFile (filename : string) : bool :=
  if (String.length filename <? 4)%nat then false
  else
    let extension := substring (String.length filename - 4) 4 filename in
    let extension := transform tolower extension in
    String.eqb extension ".3fr".

(** [s.find_last_of(chars)]: the last position holding one of [chars];
    [None] is [std::string::npos]. *)
Fixpoint find_last_from (chars : list ascii) (s : string) (pos : nat)
    (found : option nat) : option nat :=
  match s with
  | EmptyString => found
  | String c s' =>
      find_last_from chars s' (S pos)
        (if bool_decide (c ∈ chars) then Some pos else found)
  end.

Definition find_last_of (chars : list ascii) (s : string) : option nat :=
  find_last_from chars s 0 None.

Definition slashes : list ascii := ["/"%char; "\"%char].

Definition getBasename (filepath : string) : string :=
  let lastSlash := find_last_of slashes filepath in
  let lastDot := find_last_of ["."%char] filepath in
  let start := match lastSlash with None => 0%nat | Some i => S i end in
  let stop :=
    match lastDot with
    | None => String.length filepath
    | Some d => if (d <? start)%nat then String.length filepath else d
    end in
  substring start (stop - start) filepath.

(** [s.back()]; undefined on the empty string. *)
Fixpoint back (s : string) : option ascii :=
  match s with
  | EmptyString => None
  | String c EmptyString => Some c
  | String _ s' => back s'
  end.

(** [if (dir.back() != '/' && dir.back() != '\\') dir += "/";] *)
Definition with_trailing_slash (dir : string) : option string :=
  c ← back dir;
  Some (if bool_decide (c ∈ slashes) then dir else dir +:+ "/").

(** The [readdir] loop: regular files and files of unknown type whose name
    ends in .3fr, each prefixed with the input directory. *)
Definition discover (inputDir : string) (entries : list dirent) : list string :=
  (fun e => inputDir +:+ d_name e) <$>
    filter (fun e => (d_type e = DT_REG \/ d_type e = DT_UNKNOWN)
                     /\ is3frFile (d_name e) = true) entries.

(** How [main] ends: [return code], an exception nobody catches
    ([std::terminate]), or undefined behaviour. *)
Inductive outcome :=
| Exit (code : Z)
| Terminate
| Undefined.

(** [++count] on an [int] counter; two's complement wrap-around where the
    language leaves the overflow undefined. *)
Definition incr (n : Z) : Z :=
  if decide (n + 1 <= INT_MAX) then n + 1 else INT_MIN.

(** ** The general converter *)

Module General.
Section Program.
Context {fm : FloatModel}.
Variable w : world.

(** The assignments to [imgdata.params], in source order. *)
Definition params : list event :=
  [ EvSetParam "use_auto_wb" 0;
    EvSetParam "use_camera_wb" 1;
    EvSetParam "no_auto_bright" 1;
    EvSetParam "output_color" 1;
    EvSetParam "output_bps" 16;
    EvSetParam "user_flip" 0;
    EvSetParam "user_qual" 3;
    EvSetParam "four_color_rgb" 0;
    EvSetParam "highlight" 0;
    EvSetParam "use_fuji_rotate" 0;
    EvSetParam "output_bps" 16;
    EvSetParam "no_auto_bright" 1;
    EvSetParam "use_camera_wb" 1 ].

(** [catch (const std::exception &e)]: release the image, report
    failure. *)
Definition caught (st : state) : option bool * state :=
  (Some false, emit EvClearMem st).

(** The [try] block and what follows it.  An [RgbaOutputFile] that was
    constructed has created the file at [outputPath]; the file holds all
    its scan lines once [writePixels] has returned. *)
Definition write_exr (image : processed_image) (outputPath : string)
    (useSRGB : bool) (exposure : float) (st : state) : option bool * state :=
  let final_width := img_width image in
  let final_height := img_height image in
  let fault := exr w outputPath in
  if decide (fault = FaultCreate) then caught st
  else
    let st := emit (EvCreateExr outputPath final_width final_height)
                (store outputPath (Incomplete final_width final_height) st) in
    if decide (fault = FaultAlloc) then caught st
    else
      match fill_pixels (general_pixel (libm_pow w) image useSRGB exposure)
              final_height final_width with
      | None => (None, st)
      | Some pixels =>
          if decide (fault = FaultSetFrameBuffer) then caught st
          else if decide (fault = FaultWritePixels) then caught st
          else
            let st := emit (EvWritePixels outputPath final_height)
                        (store outputPath (Complete pixels) st) in
            (Some true, emit EvClearMem st)
      end.

(** [bool convert3frToExr(inputPath, outputPath, useSRGB, exposure)];
    [None] stands for undefined behaviour. *)
Definition convert3frToExr (inputPath outputPath : string)
    (useSRGB : bool) (exposure : float) (st : state) : option bool * state :=
  let raw := libraw w inputPath in
  let st := emit (EvOpenFile inputPath) st in
  if decide (rb_open raw <> LIBRAW_SUCCESS) then (Some false, st)
  else
    let st := emit EvUnpack st in
    if decide (rb_unpack raw <> LIBRAW_SUCCESS) then (Some false, st)
    else
      let st := emit (EvSetSizes (force_full_sensor (rb_sizes raw))) st in
      let st := emit_all params st in
      let st := emit EvProcess st in
      if decide (rb_process raw <> LIBRAW_SUCCESS) then (Some false, st)
      else
        let st := emit EvMakeMemImage st in
        match rb_image raw with
        | None => (Some false, st)
        | Some image => write_exr image outputPath useSRGB exposure st
        end.

(** The result of the option loop of [main]. *)
Inductive parsed :=
| Options (useSRGB : bool) (exposure : float)
| UsageError                      (* "--exposure requires a value" *)
| StofThrows.                     (* std::stof raised, nobody catches *)

(** [for (int i = 2; i < argc; i++)] over the tokens [argv[2..]]. *)
Fixpoint parse_args (args : list string) (useSRGB : bool) (exposure : float)
    : parsed :=
  match args with
  | [] => Options useSRGB exposure
  | arg :: rest =>
      if String.eqb arg "--linear" then parse_args rest false exposure
      else if String.eqb arg "--exposure" then
        match rest with
        | value :: rest' =>
            match stof w value with
            | Some e => parse_args rest' useSRGB e
            | None => StofThrows
            end
        | [] => UsageError
        end
      else parse_args rest useSRGB exposure
  end.

(** The batch job [main] has assembled when it reaches the conversion
    loop. *)
Record job := {
  inputDir : string;
  outputDir : string;
  threeFrFiles : list string;
  useSRGB : bool;
  exposure : float
}.

Inductive prepared :=
| Stop (o : outcome)
| Ready (j : job).

(** [main] up to and including the [readdir] loop. *)
Definition prepare (argv : list string) (st : state) : prepared * state :=
  if (length argv <? 2)%nat then (Stop (Exit 1), st)
  else
    match argv !! 1%nat with
    | None => (Stop Undefined, st)
    | Some dir =>
        match parse_args (drop 2 argv) true (literal 1 1) with
        | UsageError => (Stop (Exit 1), st)
        | StofThrows => (Stop Terminate, st)
        | Options useSRGB exposure =>
            match with_trailing_slash dir with
            | None => (Stop Undefined, st)
            | Some inputDir =>
                if negb (directoryExists w inputDir) then (Stop (Exit 1), st)
                else
                  let outputDir := inputDir +:+ "EXR" in
                  let created :=
                    if directoryExists w outputDir then Some st
                    else
                      match createDirectory w outputDir st with
                      | (true, st) => Some st
                      | (false, _) => None
                      end in
                  match created with
                  | None => (Stop (Exit 1), st)
                  | Some st =>
                      match with_trailing_slash outputDir with
                      | None => (Stop Undefined, st)
                      | Some outputDir =>
                          match opendir w inputDir with
                          | None => (Stop (Exit 1), st)
                          | Some entries =>
                              (Ready {| inputDir := inputDir;
                                        outputDir := outputDir;
                                        threeFrFiles := discover inputDir entries;
                                        useSRGB := useSRGB;
                                        exposure := exposure |}, st)
                          end
                      end
                  end
            end
        end
    end.

(** [for (const auto& inputFile : threeFrFiles)] with its two counters. *)
Fixpoint process_files (j : job) (todo : list string)
    (successCount failCount : Z) (st : state) : option (Z * Z) * state :=
  match todo with
  | [] => (Some (successCount, failCount), st)
  | inputFile :: rest =>
      let basename := getBasename inputFile in
      let outputFile := outputDir j +:+ basename +:+ ".exr" in
      match convert3frToExr inputFile outputFile (useSRGB j) (exposure j) st with
      | (Some true, st) => process_files j rest (incr successCount) failCount st
      | (Some false, st) => process_files j rest successCount (incr failCount) st
      | (None, st) => (None, st)
      end
  end.

Definition main (argv : list string) (st : state) : outcome * state :=
  match prepare argv st with
  | (Stop o, st) => (o, st)
  | (Ready j, st) =>
      match threeFrFiles j with
      | [] => (Exit 0, st)
      | _ =>
          match process_files j (threeFrFiles j) 0 0 st with
          | (Some (successCount, failCount), st) =>
              (Exit (if decide (failCount > 0) then 1 else 0), st)
          | (None, st) => (Undefined, st)
          end
      end
  end.

End Program.
End General.

(** ** The full-sensor converter *)

Module FullSensor.
Section Program.
Context {fm : FloatModel}.
Variable w : world.

(** The assignments to [imgdata.params]; the three [double] values 1.0
    are recorded as 1. *)
Definition params : list event :=
  [ EvSetParam "use_camera_wb" 1;
    EvSetParam "output_color" 1;
    EvSetParam "output_bps" 16;
    EvSetParam "no_auto_bright" 1;
    EvSetParam "gamm[0]" 1;
    EvSetParam "gamm[1]" 1;
    EvSetParam "bright" 1;
    EvSetParam "user_qual" 3 ].

(** The six assignments of this program; [raw_width] and [raw_height]
    are read, not written. *)
Definition use_full_sensor (s : image_sizes) : image_sizes :=
  {| raw_height := raw_height s;
     raw_width := raw_width s;
     height := raw_height s;
     width := raw_width s;
     top_margin := 0;
     left_margin := 0;
     iheight := raw_height s;
     iwidth := raw_width s |}.

Definition caught (st : state) : option bool * state :=
  (Some false, emit EvClearMem st).

(** The [try] block and what follows it. *)
Definition write_exr (processed_image : processed_image)
    (outputPath : string) (st : state) : option bool * state :=
  let width := img_width processed_image in
  let height := img_height processed_image in
  let colors := img_colors processed_image in
  let bits := img_bits processed_image in
  let fault := exr w outputPath in
  if decide (fault = FaultCreate) then caught st
  else
    let st := emit (EvCreateExr outputPath width height)
                (store outputPath (Incomplete width height) st) in
    if decide (fault = FaultAlloc) then caught st
    else
      let filled :=
        if decide (colors = 3 /\ bits = 16) then
          Some (fill_pixels (full_sensor_pixel read_u16 65535 processed_image)
                  height width)
        else if decide (colors = 3 /\ bits = 8) then
          Some (fill_pixels (full_sensor_pixel read_u8 255 processed_image)
                  height width)
        else None in
      match filled with
      | None =>
          (* "Unsupported image format" *)
          (Some false, emit EvClearMem st)
      | Some None => (None, st)
      | Some (Some pixels) =>
          if decide (fault = FaultSetFrameBuffer) then caught st
          else if decide (fault = FaultWritePixels) then caught st
          else
            let st := emit (EvWritePixels outputPath height)
                        (store outputPath (Complete pixels) st) in
            (Some true, emit EvClearMem st)
      end.

(** [bool convert3frToExr(inputPath, outputPath)]. *)
Definition convert3frToExr (inputPath outputPath : string) (st : state)
    : option bool * state :=
  let raw := libraw w inputPath in
  let st := emit (EvOpenFile inputPath) st in
  if decide (rb_open raw <> LIBRAW_SUCCESS) then (Some false, st)
  else
    let st := emit_all params st in
    let st := emit (EvSetSizes (use_full_sensor (rb_sizes raw))) st in
    let st := emit EvUnpack st in
    if decide (rb_unpack raw <> LIBRAW_SUCCESS) then (Some false, st)
    else
      let st := emit EvProcess st in
      if decide (rb_process raw <> LIBRAW_SUCCESS) then (Some false, st)
      else
        let st := emit EvMakeMemImage st in
        match rb_image raw with
        | None => (Some false, st)
        | Some image => write_exr image outputPath st
        end.

Record job := {
  inputDir : string;
  outputDir : string;
  threeFrFiles : list string
}.

Inductive prepared :=
| Stop (o : outcome)
| Ready (j : job).

(** [main] up to and including the [readdir] loop. *)
Definition prepare (argv : list string) (st : state) : prepared * state :=
  if negb (length argv =? 2)%nat then (Stop (Exit 1), st)
  else
    match argv !! 1%nat with
    | None => (Stop Undefined, st)
    | Some dir =>
        match with_trailing_slash dir with
        | None => (Stop Undefined, st)
        | Some inputDir =>
            if negb (directoryExists w inputDir) then (Stop (Exit 1), st)
            else
              let outputDir := inputDir +:+ "EXR" in
              let created :=
                if directoryExists w outputDir then Some st
                else
                  match createDirectory w outputDir st with
                  | (true, st) => Some st
                  | (false, _) => None
                  end in
              match created with
              | None => (Stop (Exit 1), st)
              | Some st =>
                  match with_trailing_slash outputDir with
                  | None => (Stop Undefined, st)
                  | Some outputDir =>
                      match opendir w inputDir with
                      | None => (Stop (Exit 1), st)
                      | Some entries =>
                          (Ready {| inputDir := inputDir;
                                    outputDir := outputDir;
                                    threeFrFiles := discover inputDir entries |},
                           st)
                      end
                  end
              end
        end
    end.

Fixpoint process_files (j : job) (todo : list string)
    (successCount failCount : Z) (st : state) : option (Z * Z) * state :=
  match todo with
  | [] => (Some (successCount, failCount), st)
  | inputFile :: rest =>
      let basename := getBasename inputFile in
      let outputFile := outputDir j +:+ basename +:+ ".exr" in
      match convert3frToExr inputFile outputFile st with
      | (Some true, st) => process_files j rest (incr successCount) failCount st
      | (Some false, st) => process_files j rest successCount (incr failCount) st
      | (None, st) => (None, st)
      end
  end.

Definition main (argv : list string) (st : state) : outcome * state :=
  match prepare argv st with
  | (Stop o, st) => (o, st)
  | (Ready j, st) =>
      match threeFrFiles j with
      | [] => (Exit 0, st)
      | _ =>
          match process_files j (threeFrFiles j) 0 0 st with
          | (Some (successCount, failCount), st) =>
              (Exit (if decide (failCount > 0) then 1 else 0), st)
          | (None, st) => (Undefined, st)
          end
      end
  end.

End Program.
End FullSensor.

(** ** Vocabulary of the statements *)

(** The input paths handed to [LibRaw::open_file], in order.  Each call of
    a converter opens its input first, so these are the invocations. *)
Definition opened (t : list event) : list string :=
  omap (fun e => match e with EvOpenFile p => Some p | _ => None end) t.

(** A buffer that holds every sample the loops read: [height * width]
    pixels of [colors] samples (one sample when [colors] is 0), two bytes
    per sample when [bits] is 16 and one otherwise, the sample count within
    [int]. *)
Definition bytes_per_sample (image : processed_image) : Z :=
  if decide (img_bits image = 16) then 2 else 1.

Definition sample_count (image : processed_image) : Z :=
  img_height image * img_width image * Z.max (img_colors image) 1.

Definition buffer_ok (image : processed_image) : Prop :=
  0 <= img_height image /\ 0 <= img_width image /\ 0 <= img_colors image /\
  sample_count image <= INT_MAX /\
  bytes_per_sample image * sample_count image
    <= Z.of_nat (length (img_data image)).

#[export] Instance buffer_ok_dec image : Decision (buffer_ok image).
Proof. unfold buffer_ok. apply _. Defined.

Section Vocabulary.
Context {fm : FloatModel}.

(** LibRaw hands out buffers that hold their samples. *)
Definition world_ok (w : world) : Prop :=
  forall path image,
    rb_image (libraw w path) = Some image -> buffer_ok image.

(** The decoder delivers an image for [path]: open, unpack, process and
    fetch all succeed. *)
Definition decodes (w : world) (path : string) (image : processed_image)
    : Prop :=
  rb_open (libraw w path) = LIBRAW_SUCCESS /\
  rb_unpack (libraw w path) = LIBRAW_SUCCESS /\
  rb_process (libraw w path) = LIBRAW_SUCCESS /\
  rb_image (libraw w path) = Some image.

(** One of the four decode steps fails for [path]. *)
Definition decode_fails (w : world) (path : string) : Prop :=
  rb_open (libraw w path) <> LIBRAW_SUCCESS \/
  rb_unpack (libraw w path) <> LIBRAW_SUCCESS \/
  rb_process (libraw w path) <> LIBRAW_SUCCESS \/
  rb_image (libraw w path) = None.

(** What the loop body of the general converter makes of one sample:
    normalise, linearise, tone map. *)
Definition channel_value (powf : float -> float -> float) (maxv : Z)
    (useSRGB : bool) (exposure : float) (sample : Z) : float :=
  tonemap_stage exposure
    (linearize_stage powf useSRGB (fdiv (of_int sample) (literal maxv 1))).

(** The reading pattern of the loop body, with the computation on one
    sample left open: three consecutive samples when [colors >= 3], one
    sample copied to the three channels otherwise. *)
Definition pixel_from (read : list Byte.byte -> Z -> option Z)
    (channel : Z -> half) (alpha : half) (image : processed_image)
    (y x : Z) : option Rgba :=
  idx ← pixel_index y x (img_width image) (img_colors image);
  if decide (3 <= img_colors image) then
    i1 ← int (idx + 1);
    i2 ← int (idx + 2);
    s0 ← read (img_data image) idx;
    s1 ← read (img_data image) i1;
    s2 ← read (img_data image) i2;
    Some {| r := channel s0; g := channel s1; b := channel s2; a := alpha |}
  else
    s ← read (img_data image) idx;
    Some {| r := channel s; g := channel s; b := channel s; a := alpha |}.

(** The sample reader and the divisor the general converter picks. *)
Definition general_read (image : processed_image)
    : list Byte.byte -> Z -> option Z :=
  if decide (img_bits image = 16) then read_u16 else read_u8.

Definition general_max (image : processed_image) : Z :=
  if decide (img_bits image = 16) then 65535 else 255.

Definition empty_state : state := {| files := ∅; trace := [] |}.

(** The output path [main] derives for an input file. *)
Definition output_for (outputDir inputFile : string) : string :=
  outputDir +:+ getBasename inputFile +:+ ".exr".


Definition full_sensor_result (w : world) (j : FullSensor.job)
    (inputFile : string) : option bool :=
  (FullSensor.convert3frToExr w inputFile
     (output_for (FullSensor.outputDir j) inputFile) empty_state).1.



(** The converter answered [r] from state [st] after OpenEXR threw
    [fault]: it reports failure, its last action releases the decoded
    buffer, which it releases only once, and the output file is absent
    from the changes only if the constructor could not create it. *)
Definition released_after_fault (st : state) (out : string)
    (image : processed_image) (fault : exr_fault)
    (r : option bool * state) : Prop :=
  r.1 = Some false /\
  (exists evs, trace r.2 = trace st ++ evs ++ [EvClearMem] /\
               EvClearMem ∉ evs) /\
  files r.2 =
    if decide (fault = FaultCreate) then files st
    else <[out := Incomplete (img_width image) (img_height image)]> (files st).

(** The converter answered [r] from state [st] after the decoder failed:
    it reports failure and no file has changed. *)
Definition failed_before_encode (st : state) (r : option bool * state)
    : Prop :=
  r.1 = Some false /\ files r.2 = files st.

(** What the two converters have done when they release the buffer
    after a fault of the encode stage. *)
Definition general_fault_events (w : world) (input out : string)
    (image : processed_image) : list event :=
  [EvOpenFile input; EvUnpack;
   EvSetSizes (force_full_sensor (rb_sizes (libraw w input)))]
  ++ General.params ++ [EvProcess; EvMakeMemImage]
  ++ if decide (exr w out = FaultCreate) then []
     else [EvCreateExr out (img_width image) (img_height image)].

Definition full_sensor_fault_events (w : world) (input out : string)
    (image : processed_image) : list event :=
  [EvOpenFile input] ++ FullSensor.params
  ++ [EvSetSizes (FullSensor.use_full_sensor (rb_sizes (libraw w input)));
      EvUnpack; EvProcess; EvMakeMemImage]
  ++ if decide (exr w out = FaultCreate) then []
     else [EvCreateExr out (img_width image) (img_height image)].

(** A token that is neither of the two options. *)
Definition unrecognised (token : string) : Prop :=
  token <> "--linear" /\ token <> "--exposure".

End Vocabulary.

(** ** A small world for the examples *)

Module Samples.

Import Binary32.

(** Sensor geometry of a 50 megapixel back: 8384 x 6304 photosites, of
    which 8272 x 6200 are the visible area. *)
Definition sizes : image_sizes :=
  {| raw_height := 6304; raw_width := 8384;
     height := 6200; width := 8272;
     top_margin := 52; left_margin := 56;
     iheight := 6200; iwidth := 8272 |}.

(** One row of two RGB pixels, 16 bit little-endian samples
    (0, 512, 1024) and (1280, 2048, 2560). *)
Definition rgb16 : processed_image :=
  {| img_height := 1; img_width := 2; img_colors := 3; img_bits := 16;
     img_data := [ Byte.x00; Byte.x00; Byte.x00; Byte.x02; Byte.x00; Byte.x04;
                   Byte.x00; Byte.x05; Byte.x00; Byte.x08; Byte.x00; Byte.x0a ] |}.

(** Two rows of two grayscale pixels, 8 bit samples 0, 5, 10 and 255. *)
Definition gray8 : processed_image :=
  {| img_height := 2; img_width := 2; img_colors := 1; img_bits := 8;
     img_data := [ Byte.x00; Byte.x05; Byte.x0a; Byte.xff ] |}.

(** One pixel of four 8 bit samples. *)
Definition four8 : processed_image :=
  {| img_height := 1; img_width := 1; img_colors := 4; img_bits := 8;
     img_data := [ Byte.x01; Byte.x02; Byte.x03; Byte.x04 ] |}.

Definition decoded (image : processed_image) : raw_behaviour :=
  {| rb_open := LIBRAW_SUCCESS; rb_sizes := sizes;
     rb_unpack := LIBRAW_SUCCESS; rb_process := LIBRAW_SUCCESS;
     rb_image := Some image |}.

(** [open_file] answers LIBRAW_FILE_UNSUPPORTED. *)
Definition unreadable : raw_behaviour :=
  {| rb_open := -2; rb_sizes := sizes;
     rb_unpack := LIBRAW_SUCCESS; rb_process := LIBRAW_SUCCESS;
     rb_image := None |}.

(** The directory [shots/] with three raw files, a text file and the
    output directory.  The examples stay on the linear segment of the
    sRGB curve, so [libm_pow] is never consulted; [stof] is a table of
    the option values that occur. *)
Definition shots (fault : exr_fault) : world :=
  {| libraw := fun path =>
       if String.eqb path "shots/a.3fr" then decoded rgb16
       else if String.eqb path "shots/G.3FR" then decoded gray8
       else if String.eqb path "shots/four.3fr" then decoded four8
       else unreadable;
     exr := fun _ => fault;
     libm_pow := fun _ _ => S754_nan;
     stof := fun value =>
       if String.eqb value "2" then Some (lit 2 1)
       else if String.eqb value "1.5" then Some (lit 15 10)
       else None;
     stat_is_dir := fun path => String.eqb path "shots/";
     mkdir_ok := fun _ => true;
     opendir := fun path =>
       if String.eqb path "shots/" then
         Some [ {| d_type := DT_REG; d_name := "a.3fr" |};
                {| d_type := 4; d_name := "EXR" |};
                {| d_type := DT_REG; d_name := "notes.txt" |};
                {| d_type := DT_UNKNOWN; d_name := "G.3FR" |};
                {| d_type := DT_REG; d_name := "bad.3fr" |} ]
       else None |}.

(** The batch jobs the two programs assemble for [shots/] (the general
    one when started with [--linear]). *)
Definition job : General.job :=
  {| General.inputDir := "shots/";
     General.outputDir := "shots/EXR/";
     General.threeFrFiles := ["shots/a.3fr"; "shots/G.3FR"; "shots/bad.3fr"];
     General.useSRGB := false;
     General.exposure := lit 1 1 |}.

Definition full_job : FullSensor.job :=
  {| FullSensor.inputDir := "shots/";
     FullSensor.outputDir := "shots/EXR/";
     FullSensor.threeFrFiles := ["shots/a.3fr"; "shots/G.3FR"; "shots/bad.3fr"] |}.

(** An empty directory. *)
Definition empty_dir : world :=
  {| libraw := fun _ => unreadable;
     exr := fun _ => NoFault;
     libm_pow := fun _ _ => S754_nan;
     stof := fun _ => None;
     stat_is_dir := fun _ => true;
     mkdir_ok := fun _ => true;
     opendir := fun _ => Some [] |}.

End Samples.

(** Inversion of a membership in an explicit list of events. *)
Ltac not_in_events :=
  let H := fresh in
  intros H;
  unfold General.params, FullSensor.params in H; simpl in H;
  repeat (first [ apply elem_of_app in H as [H|H]
                | apply elem_of_cons in H as [H|H]
                | apply elem_of_nil in H; contradiction
                | discriminate H ]).

(** ** Vocabulary of the further properties *)

(** No character of [s] is one of [chars]. *)
Fixpoint avoids (chars : list ascii) (s : string) : bool :=
  match s with
  | EmptyString => true
  | String c s' => negb (bool_decide (c ∈ chars)) && avoids chars s'
  end.

(** The four-character endings that [is3frFile] accepts. *)
Definition is_3fr_extension (ext : string) : Prop :=
  exists c1 c2 : ascii,
    ext = String "."%char (String "3"%char (String c1 (String c2 EmptyString))) /\
    (c1 = "f"%char \/ c1 = "F"%char) /\ (c2 = "r"%char \/ c2 = "R"%char).

(** [dir] is empty or ends in a path separator. *)
Definition ends_in_separator (dir : string) : Prop :=
  match back dir with
  | None => True
  | Some c => c ∈ slashes
  end.

Section FurtherVocabulary.
Context {fm : FloatModel}.

(** The full-sensor [main] returned before its conversion loop. *)
Definition full_sensor_stopped_early (w : world) (argv : list string)
    (st : state) : Prop :=
  exists o, (FullSensor.prepare w argv st).1 = FullSensor.Stop o.

(** The full-sensor [main] reached its loop and the converter reported
    failure for one of the candidates. *)
Definition a_full_sensor_conversion_failed (w : world) (argv : list string)
    (st : state) : Prop :=
  exists j inputFile,
    (FullSensor.prepare w argv st).1 = FullSensor.Ready j /\
    inputFile ∈ FullSensor.threeFrFiles j /\
    full_sensor_result w j inputFile = Some false.

(** What the start of [main] may do to the state: nothing, or one [mkdir]
    of the EXR directory inside an input directory that exists. *)
Definition only_creates_output_directory (w : world) (argv : list string)
    (st st' : state) : Prop :=
  st' = st \/
  exists dir inputDir,
    argv !! 1%nat = Some dir /\
    with_trailing_slash dir = Some inputDir /\
    directoryExists w inputDir = true /\
    directoryExists w (inputDir +:+ "EXR") = false /\
    st' = emit (EvMkdir (inputDir +:+ "EXR")) st.

(** The full-sensor converter accepts the buffer: three channels of 16 or
    of 8 bits. *)
Definition supported (image : processed_image) : Prop :=
  img_colors image = 3 /\ (img_bits image = 16 \/ img_bits image = 8).

(** What the converters have done, after a successful decode, when they
    release the buffer. *)
Definition general_events_before_release (w : world) (input out : string)
    (image : processed_image) : list event :=
  [EvOpenFile input; EvUnpack;
   EvSetSizes (force_full_sensor (rb_sizes (libraw w input)))]
  ++ General.params ++ [EvProcess; EvMakeMemImage]
  ++ match exr w out with
     | FaultCreate => []
     | NoFault =>
         [EvCreateExr out (img_width image) (img_height image);
          EvWritePixels out (img_height image)]
     | _ => [EvCreateExr out (img_width image) (img_height image)]
     end.

Definition full_sensor_events_before_release (w : world) (input out : string)
    (image : processed_image) : list event :=
  [EvOpenFile input] ++ FullSensor.params
  ++ [EvSetSizes (FullSensor.use_full_sensor (rb_sizes (libraw w input)));
      EvUnpack; EvProcess; EvMakeMemImage]
  ++ match exr w out with
     | FaultCreate => []
     | NoFault =>
         if decide (supported image)
         then [EvCreateExr out (img_width image) (img_height image);
               EvWritePixels out (img_height image)]
         else [EvCreateExr out (img_width image) (img_height image)]
     | _ => [EvCreateExr out (img_width image) (img_height image)]
     end.

(** The trace grew by [evs] followed by one release of the buffer, and
    [evs] holds the fetch of the buffer and no release. *)
Definition releases_once (evs : list event) (st st' : state) : Prop :=
  trace st' = trace st ++ evs ++ [EvClearMem] /\
  EvMakeMemImage ∈ evs /\ EvClearMem ∉ evs.

(** The trace grew without any release of a buffer. *)
Definition never_releases (st st' : state) : Prop :=
  exists evs, trace st' = trace st ++ evs /\ EvClearMem ∉ evs.



(** The EXR directory inside [inputDir] neither exists nor can be created,
    or [inputDir] cannot be read. *)
Definition directory_unusable (w : world) (inputDir : string) : Prop :=
  (directoryExists w (inputDir +:+ "EXR") = false /\
   mkdir_ok w (inputDir +:+ "EXR") = false) \/
  opendir w inputDir = None.

End FurtherVocabulary.

(** The sample directory on a read-only volume: [mkdir] fails. *)
Definition read_only_shots : @world Binary32.model :=
  let w := Samples.shots NoFault in
  {| libraw := libraw w;
     exr := exr w;
     libm_pow := libm_pow w;
     stof := stof w;
     stat_is_dir := stat_is_dir w;
     mkdir_ok := fun _ => false;
     opendir := opendir w |}.

(** Side conditions on character codes. *)
Ltac ascii_codes :=
  repeat match goal with
         | |- context [nat_of_ascii ?c] =>
             let n := eval vm_compute in (nat_of_ascii c) in
             change (nat_of_ascii c) with n
         end;
  first [lia | done].

(** Every character of an explicit list occurs in a longer one. *)
Ltac weaker_chars :=
  let c := fresh in let H := fresh in
  intros c H; unfold slashes in *;
  repeat (apply elem_of_cons in H as [H|H]; [subst|]);
  repeat first [ by left | right ];
  by apply elem_of_nil in H.

(** A string is none of the strings of an explicit list. *)
Ltac not_in_list :=
  let H := fresh in
  intros H;
  repeat (apply elem_of_cons in H as [H|H]; [discriminate H|]);
  by apply elem_of_nil in H.

(** ** The pixel stage in the words of the specification *)

(** Section 4.1 and step 7 of section 4.3 of the specification, written
    out with the operations of [FloatModel] alone. *)
Module Spec.
Section Stage.
Context {fm : FloatModel}.
Variable powf : float -> float -> float.

(** "Input is clamped to [0,1]": the larger of 0 and the smaller of 1 and
    the input. *)
Definition clamp (v : float) : float :=
  let smaller := if fltb v (literal 1 1) then v else literal 1 1 in
  if fltb (literal 0 1) smaller then smaller else literal 0 1.

(** [linearize]: the inverse of the encoding curve, linear with factor
    12.92 below the threshold and a power law with exponent 2.4 above. *)
Definition linearize (v : float) : float :=
  let c := clamp v in
  if fleb c (literal 4045 100000) then fdiv c (literal 1292 100)
  else powf (fdiv (fadd c (literal 55 1000)) (literal 1055 1000))
            (literal 24 10).

(** [compress]: "applies linear *= exposureMultiplier, then returns
    linear / (1 + linear)". *)
Definition compress (linear exposureMultiplier : float) : float :=
  let scaled := fmul linear exposureMultiplier in
  fdiv scaled (fadd (literal 1 1) scaled).

(** Step 7: normalise by the maximum of the bit depth; linearise if the
    transfer mode asks for it; compress if the exposure multiplier is not
    the neutral value. *)
Definition channel (maxv : Z) (linearization : bool)
    (exposureMultiplier : float) (sample : Z) : float :=
  let v := fdiv (of_int sample) (literal maxv 1) in
  let v := if linearization then linearize v else v in
  if feqb exposureMultiplier (literal 1 1) then v
  else compress v exposureMultiplier.

(** The samples of pixel (y, x) in a buffer addressed as
    [(row * width + col) * channels + channelIndex]: the first three
    channels give R, G and B; a buffer with fewer than three channels
    gives its one sample to all three. *)
Definition holds_samples (read : list Byte.byte -> Z -> option Z)
    (channel : Z -> half) (alpha : half) (image : processed_image)
    (y x : Z) (p : Rgba) : Prop :=
  let idx := (y * img_width image + x) * img_colors image in
  if decide (3 <= img_colors image) then
    exists s0 s1 s2,
      read (img_data image) idx = Some s0 /\
      read (img_data image) (idx + 1) = Some s1 /\
      read (img_data image) (idx + 2) = Some s2 /\
      p = {| r := channel s0; g := channel s1; b := channel s2; a := alpha |}
  else
    exists s,
      read (img_data image) idx = Some s /\
      p = {| r := channel s; g := channel s; b := channel s; a := alpha |}.

End Stage.
End Spec.

(** ** Real values of single precision numbers *)

Definition bpow (e : Z) : R := powerRZ 2 e.

Definition F2R (m e : Z) : R := (IZR m * bpow e)%R.

Arguments bpow : simpl never.
Arguments F2R : simpl never.

(** The real number a finite [spec_float] stands for; 0 for the others. *)
Definition B2R (x : spec_float) : R :=
  match x with
  | S754_finite s m e => F2R (cond_Zopp s (Zpos m)) e
  | _ => 0%R
  end.

Definition is_finite (x : spec_float) : bool :=
  match x with
  | S754_finite _ _ _ | S754_zero _ => true
  | _ => false
  end.

(** A [spec_float] that is a binary32 number: canonical mantissa and
    exponent in range. *)
Definition valid (x : spec_float) : bool :=
  valid_binary Binary32.prec Binary32.emax x.

Definition fexp32 (e : Z) : Z := fexp Binary32.prec Binary32.emax e.

(** The binary32 number with sign [sx] and value [k * 2^t], for a rounded
    mantissa [k <= 2^24]. *)
Definition pack (sx : bool) (k t : Z) : spec_float :=
  if (k =? 0)%Z then S754_zero sx
  else if (k =? 2 ^ 24)%Z then
    if (t + 1 <=? 104)%Z then S754_finite sx (2 ^ 23) (t + 1)
    else S754_infinity sx
  else
    if (t <=? 104)%Z then S754_finite sx (Z.to_pos k) t else S754_infinity sx.

(** [k * 2^t] is a rounding of the non-negative real [v] to 24 bits:
    [m1 * 2^t] is [v] rounded down, [k] is [m1] or its successor, and
    [m1] itself when [v] needs no rounding; [t] is the exponent of a
    subnormal number, or [m1] has all its 24 bits. *)
Definition rounding (v : R) (k t : Z) : Prop :=
  0 <= k <= 2 ^ 24 /\ -149 <= t /\
  exists m1,
    0 <= m1 /\ (t = -149 \/ 2 ^ 23 <= m1) /\
    (k = m1 \/ k = m1 + 1) /\
    (F2R m1 t <= v < F2R (m1 + 1) t)%R /\
    (v = F2R m1 t -> k = m1).

Definition rounds_to (sx : bool) (v : R) (r : spec_float) : Prop :=
  exists k t, r = pack sx k t /\ rounding v k t.

(** Zero of either sign or a positive number. *)
Definition finite_nonneg (x : spec_float) : bool :=
  match x with
  | S754_zero _ | S754_finite false _ _ => true
  | _ => false
  end.

(** The number 1.0. *)
Definition one : spec_float := S754_finite false 8388608 (-23).

(** [powf a b] is accurate: a finite number within the relative distance
    2^-20 of the real power.  (A correctly rounded result is within 2^-24;
    the bound leaves room for an error of several units in the last
    place.) *)
Definition pow_accurate (powf : spec_float -> spec_float -> spec_float)
    (a b : spec_float) : Prop :=
  valid (powf a b) = true /\ is_finite (powf a b) = true /\
  (Rabs (B2R (powf a b) - Rpower (B2R a) (B2R b))
   <= bpow (-20) * Rpower (B2R a) (B2R b))%R.

(** A value in the closed interval from 0 to 1. *)
Definition in_unit_interval {fm : FloatModel} (v : float) : Prop :=
  fleb (literal 0 1) v = true /\ fleb v (literal 1 1) = true.

(** * Properties *)

(** ** File names *)

Example is3frFile_upper : is3frFile "B0001234.3FR" = true.
Proof. reflexivity. Qed.

Example is3frFile_other : is3frFile "notes.txt" = false.
Proof. reflexivity. Qed.

Example getBasename_path : getBasename "shots/day1/B0001234.3FR" = "B0001234".
Proof. reflexivity. Qed.

Example getBasename_dotted_dir : getBasename "shots.v2/frame" = "frame".
Proof. reflexivity. Qed.

Example discover_shots :
  (w ← opendir (Samples.shots NoFault) "shots/"; Some (discover "shots/" w))
  = Some ["shots/a.3fr"; "shots/G.3FR"; "shots/bad.3fr"].
Proof. reflexivity. Qed.

(** ** Reading samples *)

Lemma int_Some z : INT_MIN <= z <= INT_MAX -> int z = Some z.
Proof. intros H. unfold int. by rewrite decide_True. Qed.

Lemma int_inv z z' : int z = Some z' -> z' = z /\ INT_MIN <= z <= INT_MAX.
Proof. unfold int. case_decide; [intros [= <-]; done | done]. Qed.

Lemma read_u8_Some data i :
  0 <= i < Z.of_nat (length data) -> is_Some (read_u8 data i).
Proof.
  intros [H0 H1]. unfold read_u8. rewrite decide_True by done.
  destruct (lookup_lt_is_Some_2 data (Z.to_nat i)) as [b Hb]; [lia|].
  rewrite Hb. by eexists.
Qed.

Lemma read_u16_Some data i :
  0 <= i -> 2 * i + 1 < Z.of_nat (length data) -> is_Some (read_u16 data i).
Proof.
  intros H0 H1. unfold read_u16.
  destruct (read_u8_Some data (2 * i)) as [lo Hlo]; [lia|].
  destruct (read_u8_Some data (2 * i + 1)) as [hi Hhi]; [lia|].
  rewrite Hlo, Hhi. by eexists.
Qed.

Section PixelFacts.
Context {fm : FloatModel}.
Variable powf : float -> float -> float.

Lemma general_read_Some image i :
  0 <= i ->
  bytes_per_sample image * (i + 1) <= Z.of_nat (length (img_data image)) ->
  is_Some (general_read image (img_data image) i).
Proof.
  unfold general_read, bytes_per_sample. intros H0 H1.
  case_decide.
  - apply read_u16_Some; lia.
  - apply read_u8_Some; lia.
Qed.

Lemma general_pixel_eq image useSRGB exposure y x :
  general_pixel powf image useSRGB exposure y x
  = convert_pixel powf (general_read image) (general_max image)
      image useSRGB exposure y x.
Proof. unfold general_pixel, general_read, general_max. by case_decide. Qed.

(** On a buffer that holds its samples every iteration of the loops is
    defined. *)
Lemma convert_pixel_total image useSRGB exposure y x :
  buffer_ok image ->
  0 <= y < img_height image -> 0 <= x < img_width image ->
  is_Some (general_pixel powf image useSRGB exposure y x).
Proof.
  intros (Hh & Hw & Hc & Hn & Hlen) Hy Hx.
  rewrite general_pixel_eq. unfold convert_pixel, pixel_index, sample_count in *.
  assert (0 <= y * img_width image <= (img_height image - 1) * img_width image) by nia.
  assert (Hpos : 0 <= y * img_width image + x < img_height image * img_width image) by nia.
  assert (Hbps : 1 <= bytes_per_sample image <= 2)
    by (unfold bytes_per_sample; case_decide; lia).
  unfold INT_MAX, INT_MIN in *.
  set (n := y * img_width image + x) in *.
  set (hw := img_height image * img_width image) in *.
  rewrite (int_Some (y * img_width image)) by (unfold INT_MAX, INT_MIN; nia).
  simpl. rewrite int_Some by (unfold INT_MAX, INT_MIN; nia).
  simpl. fold n.
  assert (Hidx : 0 <= n * img_colors image <= (hw - 1) * img_colors image) by nia.
  rewrite int_Some by (unfold INT_MAX, INT_MIN; nia).
  simpl. case_decide as Hc3.
  - rewrite Z.max_l in * by lia.
    rewrite !int_Some by (unfold INT_MAX, INT_MIN; nia). simpl.
    destruct (general_read_Some image (n * img_colors image)) as [s0 ->]; [lia|nia|].
    destruct (general_read_Some image (n * img_colors image + 1)) as [s1 ->]; [lia|nia|].
    destruct (general_read_Some image (n * img_colors image + 2)) as [s2 ->]; [lia|nia|].
    simpl. by eexists.
  - destruct (general_read_Some image (n * img_colors image)) as [s0 ->]; [lia|nia|].
    simpl. by eexists.
Qed.

Lemma full_sensor_pixel_total image y x :
  buffer_ok image -> img_colors image = 3 ->
  0 <= y < img_height image -> 0 <= x < img_width image ->
  is_Some (full_sensor_pixel (general_read image) (general_max image) image y x).
Proof.
  intros (Hh & Hw & Hc & Hn & Hlen) Hc3 Hy Hx.
  unfold full_sensor_pixel, pixel_index, sample_count in *.
  rewrite Hc3, Z.max_l in * by lia.
  assert (0 <= y * img_width image <= (img_height image - 1) * img_width image) by nia.
  assert (Hpos : 0 <= y * img_width image + x < img_height image * img_width image) by nia.
  assert (Hbps : 1 <= bytes_per_sample image <= 2)
    by (unfold bytes_per_sample; case_decide; lia).
  unfold INT_MAX in *.
  set (n := y * img_width image + x) in *.
  rewrite (int_Some (y * img_width image)) by (unfold INT_MAX, INT_MIN; nia).
  simpl. rewrite int_Some by (unfold INT_MAX, INT_MIN; nia).
  simpl. fold n.
  set (hw := img_height image * img_width image) in *.
  rewrite int_Some by (unfold INT_MAX, INT_MIN; lia). simpl.
  rewrite !int_Some by (unfold INT_MAX, INT_MIN; lia). simpl.
  destruct (general_read_Some image (n * 3 + 0)) as [s0 ->]; [lia|nia|].
  destruct (general_read_Some image (n * 3 + 1)) as [s1 ->]; [lia|nia|].
  destruct (general_read_Some image (n * 3 + 2)) as [s2 ->]; [lia|nia|].
  simpl. by eexists.
Qed.

(** ** The filled array *)

Lemma fill_pixels_total (px : Z -> Z -> option Rgba) h w :
  (forall y x, 0 <= y < h -> 0 <= x < w -> is_Some (px y x)) ->
  is_Some (fill_pixels px h w).
Proof.
  intros Hpx. unfold fill_pixels.
  apply mapM_is_Some, Forall_forall. intros y Hy%elem_of_seqZ. simpl.
  apply mapM_is_Some, Forall_forall. intros x Hx%elem_of_seqZ. simpl.
  apply Hpx; lia.
Qed.

Lemma fill_pixels_lookup (px : Z -> Z -> option Rgba) h w pixels y x :
  fill_pixels px h w = Some pixels ->
  0 <= y < h -> 0 <= x < w ->
  exists p, px y x = Some p /\ pixel_at pixels y x = Some p.
Proof.
  unfold fill_pixels, pixel_at. intros Hfill Hy Hx.
  apply mapM_Some in Hfill.
  assert (Hly : seqZ 0 h !! Z.to_nat y = Some y)
    by (apply lookup_seqZ; lia).
  destruct (Forall2_lookup_l _ _ _ _ _ Hfill Hly) as (row & Hrow & Hmap).
  apply mapM_Some in Hmap.
  assert (Hlx : seqZ 0 w !! Z.to_nat x = Some x)
    by (apply lookup_seqZ; lia).
  destruct (Forall2_lookup_l _ _ _ _ _ Hmap Hlx) as (p & Hp & Hpx).
  exists p. split; [done|]. rewrite Hrow. simpl. done.
Qed.

End PixelFacts.

(** ** Traces *)

Lemma opened_app t1 t2 : opened (t1 ++ t2) = opened t1 ++ opened t2.
Proof. apply omap_app. Qed.

Section ConverterFacts.
Context {fm : FloatModel}.
Variable w : world.

Lemma trace_emit e (st : state) : trace (emit e st) = trace st ++ [e].
Proof. done. Qed.

Lemma trace_emit_all es (st : state) : trace (emit_all es st) = trace st ++ es.
Proof. done. Qed.

Lemma trace_store path f (st : state) : trace (store path f st) = trace st.
Proof. done. Qed.

Lemma files_emit e (st : state) : files (emit e st) = files st.
Proof. done. Qed.

Lemma files_emit_all es (st : state) : files (emit_all es st) = files st.
Proof. done. Qed.

Lemma files_store path f (st : state) :
  files (store path f st) = <[path := f]> (files st).
Proof. done. Qed.

(** The general converter, step by step. *)






(** The full-sensor converter, step by step. *)

Lemma full_write_exr_opened image out st :
  opened (trace (FullSensor.write_exr w image out st).2) = opened (trace st).
Proof.
  unfold FullSensor.write_exr, FullSensor.caught.
  repeat (case_decide || case_match); simpl;
    rewrite ?opened_app; simpl; by rewrite ?app_nil_r.
Qed.

Lemma full_convert_opened input out st :
  opened (trace (FullSensor.convert3frToExr w input out st).2)
  = opened (trace st) ++ [input].
Proof.
  unfold FullSensor.convert3frToExr.
  repeat (case_decide || case_match); simpl;
    rewrite ?full_write_exr_opened; simpl;
    rewrite ?opened_app; simpl; by rewrite ?app_nil_r.
Qed.

Lemma full_write_exr_result image out st st0 :
  (FullSensor.write_exr w image out st).1
  = (FullSensor.write_exr w image out st0).1.
Proof.
  unfold FullSensor.write_exr, FullSensor.caught.
  repeat (case_decide || case_match); done.
Qed.

Lemma full_convert_result input out st st0 :
  (FullSensor.convert3frToExr w input out st).1
  = (FullSensor.convert3frToExr w input out st0).1.
Proof.
  unfold FullSensor.convert3frToExr.
  repeat (case_decide || case_match); try done.
  apply full_write_exr_result.
Qed.

Lemma full_convert_defined input out st :
  world_ok w ->
  is_Some (FullSensor.convert3frToExr w input out st).1.
Proof.
  intros Hok. unfold FullSensor.convert3frToExr.
  repeat (case_decide || case_match); simpl; try by eexists.
  match goal with
  | H : rb_image _ = Some ?i |- _ =>
      rename i into p;
      pose proof (Hok _ _ H) as Hbuf;
      pose proof (fun Hc => fill_pixels_total _ (img_height p) (img_width p)
                    (fun y x Hy Hx => full_sensor_pixel_total p y x Hbuf Hc Hy Hx))
        as Hfill
  end.
  assert (H16 : img_colors p = 3 -> img_bits p = 16 ->
            is_Some (fill_pixels (full_sensor_pixel read_u16 65535 p)
                       (img_height p) (img_width p))).
  { intros Hc Hb. specialize (Hfill Hc).
    unfold general_read, general_max in Hfill.
    by rewrite !decide_True in Hfill by done. }
  assert (H8 : img_colors p = 3 -> img_bits p = 8 ->
            is_Some (fill_pixels (full_sensor_pixel read_u8 255 p)
                       (img_height p) (img_width p))).
  { intros Hc Hb. specialize (Hfill Hc).
    unfold general_read, general_max in Hfill.
    by rewrite !decide_False in Hfill by lia. }
  clear Hfill.
  unfold FullSensor.write_exr, FullSensor.caught.
  destruct (decide (exr w out = FaultCreate)); [by eexists|].
  destruct (decide (exr w out = FaultAlloc)); [by eexists|].
  destruct (decide (img_colors p = 3 /\ img_bits p = 16)) as [[Hc Hb]|].
  { destruct (H16 Hc Hb) as [px ->]. repeat case_decide; by eexists. }
  destruct (decide (img_colors p = 3 /\ img_bits p = 8)) as [[Hc Hb]|].
  { destruct (H8 Hc Hb) as [px ->]. repeat case_decide; by eexists. }
  by eexists.
Qed.

End ConverterFacts.

(** ** The conversion loop *)

Lemma incr_succ n : n + 1 <= INT_MAX -> incr n = n + 1.
Proof. intros H. unfold incr. by rewrite decide_True. Qed.

Section LoopFacts.
Context {fm : FloatModel}.
Variable w : world.
Hypothesis Hok : world_ok w.





Lemma full_sensor_result_eq (j : FullSensor.job) f st :
  (FullSensor.convert3frToExr w f
     (FullSensor.outputDir j +:+ getBasename f +:+ ".exr") st).1
  = full_sensor_result w j f.
Proof. apply full_convert_result. Qed.

Lemma full_sensor_result_cases (j : FullSensor.job) f :
  full_sensor_result w j f = Some true \/ full_sensor_result w j f = Some false.
Proof.
  destruct (full_convert_defined w f
              (output_for (FullSensor.outputDir j) f) empty_state Hok)
    as [[|] Hr]; unfold full_sensor_result; rewrite Hr; auto.
Qed.


Lemma full_sensor_process_files_spec (j : FullSensor.job) todo succ fail st :
  0 <= succ -> 0 <= fail ->
  succ + fail + Z.of_nat (length todo) <= INT_MAX ->
  exists st',
    FullSensor.process_files w j todo succ fail st
    = (Some (succ + Z.of_nat (length (filter
                 (fun f => full_sensor_result w j f = Some true) todo)),
             fail + Z.of_nat (length (filter
                 (fun f => full_sensor_result w j f = Some false) todo))),
       st')
    /\ opened (trace st') = opened (trace st) ++ todo.
Proof.
  revert succ fail st.
  induction todo as [|f todo IH]; intros succ fail st Hs Hf Hn.
  - exists st. simpl. rewrite !Z.add_0_r, app_nil_r. done.
  - simpl in Hn |- *.
    pose proof (full_sensor_result_eq j f st) as Hres.
    pose proof (full_convert_opened w f
                  (FullSensor.outputDir j +:+ getBasename f +:+ ".exr") st) as Hop.
    destruct (FullSensor.convert3frToExr w f _ st) as [res st1].
    simpl in Hres, Hop. rewrite !filter_cons, <- Hres.
    destruct (full_sensor_result_cases j f) as [Hr|Hr];
      rewrite Hr in Hres; subst res.
    + destruct (IH (incr succ) fail st1) as (st' & Heq & Htr);
        [rewrite incr_succ; lia | lia | rewrite incr_succ; lia |].
      exists st'. rewrite Heq, Htr, Hop, incr_succ by lia.
      rewrite decide_True, decide_False by done. simpl length.
      split; [do 3 f_equal; lia | by rewrite <- app_assoc].
    + destruct (IH succ (incr fail) st1) as (st' & Heq & Htr);
        [lia | rewrite incr_succ; lia | rewrite incr_succ; lia |].
      exists st'. rewrite Heq, Htr, Hop, incr_succ by lia.
      rewrite decide_False, decide_True by done. simpl length.
      split; [do 3 f_equal; lia | by rewrite <- app_assoc].
Qed.

End LoopFacts.

(** ** Transfer functions *)

Lemma simpleToneMap_formula {fm : FloatModel} (linear exposure : float) :
  simpleToneMap linear exposure
  = fdiv (fmul linear exposure) (fadd (literal 1 1) (fmul linear exposure)).
Proof. reflexivity. Qed.

Section ToneMapSingle.
#[local] Existing Instance Binary32.model.

Lemma round_aux_positive_or_nan mx ex lx :
  Binary32.positive_or_nan (binary_round_aux Binary32.prec Binary32.emax false mx ex lx).
Proof.
  unfold binary_round_aux.
  destruct (shr_fexp _ _ _ _ _) as [mrs e].
  destruct (shr_fexp _ _ _ _ _) as [mrs' e'].
  destruct (shr_m mrs'); [done | by case (_ <=? _)%Z | done].
Qed.

Lemma positive_or_nan_not_negative f : Binary32.positive_or_nan f -> Binary32.not_negative f.
Proof. by destruct f as [[]|[]| |[]]. Qed.

Lemma mul_not_negative (x m : spec_float) :
  Binary32.not_negative x -> Binary32.not_negative m -> Binary32.not_negative (fmul x m).
Proof.
  destruct x as [sx|[]| |[] mx ex], m as [sm|[]| |[] mm em]; try done.
  intros _ _. apply positive_or_nan_not_negative, round_aux_positive_or_nan.
Qed.

Lemma one_plus_positive_or_nan (p : spec_float) :
  Binary32.not_negative p -> Binary32.positive_or_nan (fadd (literal 1 1) p).
Proof.
  destruct p as [sp|[]| |[] mp ep]; try done.
  intros _. change (literal 1 1) with (S754_finite false 8388608 (-23)).
  simpl. unfold binary_round.
  destruct (shl_align (_ + _) _ _).
  apply round_aux_positive_or_nan.
Qed.

Lemma div_not_negative (p q : spec_float) :
  Binary32.not_negative p -> Binary32.positive_or_nan q -> Binary32.not_negative (fdiv p q).
Proof.
  destruct p as [[]|[]| |[] mp ep], q as [[]|[]| |[] mq eq]; try done.
  intros _ _. simpl. unfold SFdiv.
    destruct (SFdiv_core_binary _ _ _ _ _ _) as [[mz ez] lz].
    apply positive_or_nan_not_negative, round_aux_positive_or_nan.
Qed.

Lemma not_negative_of_leb (x : spec_float) :
  fleb (literal 0 1) x = true -> Binary32.not_negative x.
Proof. by destruct x as [[]|[]| |[]]. Qed.

Lemma not_negative_ltb (f : spec_float) :
  Binary32.not_negative f -> fltb f (literal 0 1) = false.
Proof. by destruct f as [[]|[]| |[]]. Qed.

Lemma tone_map_single_not_negative (x m : spec_float) :
  fleb (literal 0 1) x = true -> fleb (literal 0 1) m = true ->
  fltb (simpleToneMap x m) (literal 0 1) = false.
Proof.
  intros Hx Hm. apply not_negative_ltb. unfold simpleToneMap.
  assert (Hp : Binary32.not_negative (fmul x m))
    by (apply mul_not_negative; by apply not_negative_of_leb).
  apply div_not_negative; [done | by apply one_plus_positive_or_nan].
Qed.

End ToneMapSingle.

Section StageFacts.
Context {fm : FloatModel}.
Variable powf : float -> float -> float.

(** Every channel of an output pixel is the [half] of [channel_value] at
    the sample read for it. *)
Lemma general_pixel_from image useSRGB exposure y x :
  general_pixel powf image useSRGB exposure y x
  = pixel_from (general_read image)
      (fun s => to_half (channel_value powf (general_max image) useSRGB exposure s))
      (to_half (literal 1 1)) image y x.
Proof. rewrite general_pixel_eq. reflexivity. Qed.

Lemma pixel_from_ext read (f f' : Z -> half) alpha image y x :
  (forall s, f s = f' s) ->
  pixel_from read f alpha image y x = pixel_from read f' alpha image y x.
Proof.
  intros Hf. unfold pixel_from.
  destruct (pixel_index _ _ _ _) as [idx|]; simpl; [|done].
  case_decide.
  - destruct (int (idx + 1)); simpl; [|done].
    destruct (int (idx + 2)); simpl; [|done].
    repeat (destruct (read _ _); simpl; [|done]).
    by rewrite !Hf.
  - destruct (read _ _); simpl; [|done]. by rewrite !Hf.
Qed.

(** C6.  When the exposure multiplier compares equal to 1.0 the tone
    mapping stage is the identity on every channel value, so every output
    pixel holds the linearised, normalised samples; the stage applies the
    compression function only when the multiplier differs from 1.0. *)
Theorem neutral_exposure_skips_tone_mapping (exposure : float) :
  (feqb exposure (literal 1 1) = true ->
     (forall v, tonemap_stage exposure v = v) /\
     (forall image useSRGB y x,
        general_pixel powf image useSRGB exposure y x
        = pixel_from (general_read image)
            (fun s => to_half (linearize_stage powf useSRGB
                                 (fdiv (of_int s) (literal (general_max image) 1))))
            (to_half (literal 1 1)) image y x)) /\
  (feqb exposure (literal 1 1) = false ->
     forall v, tonemap_stage exposure v = simpleToneMap v exposure).
Proof.
  split.
  - intros He.
    assert (Hstage : forall v, tonemap_stage exposure v = v)
      by (intros v; unfold tonemap_stage; by rewrite He).
    split; [done|]. intros image useSRGB y x.
    rewrite general_pixel_from. apply pixel_from_ext.
    intros s. unfold channel_value. by rewrite Hstage.
  - intros He v. unfold tonemap_stage. by rewrite He.
Qed.

End StageFacts.

Lemma neutral_exposure_skips_tone_mapping_witness :
  @feqb Binary32.model (literal 1 1) (literal 1 1) = true /\
  forall v, @tonemap_stage Binary32.model (literal 1 1) v = v.
Proof.
  split; [reflexivity|].
  apply (@neutral_exposure_skips_tone_mapping Binary32.model
           (libm_pow (Samples.shots NoFault)) (literal 1 1)).
  reflexivity.
Defined.

(** ** The single-image converter *)

Section ConvertFacts.
Context {fm : FloatModel}.
Variable w : world.

(** A successful conversion leaves the filled array, complete, at the
    output path. *)
Lemma general_convert_success input out useSRGB exposure st :
  (General.convert3frToExr w input out useSRGB exposure st).1 = Some true ->
  exists image pixels,
    decodes w input image /\
    exr w out = NoFault /\
    fill_pixels (general_pixel (libm_pow w) image useSRGB exposure)
      (img_height image) (img_width image) = Some pixels /\
    files (General.convert3frToExr w input out useSRGB exposure st).2 !! out
    = Some (Complete pixels).
Proof.
  unfold General.convert3frToExr, General.write_exr, General.caught, decodes.
  repeat (case_decide || case_match); simpl; try done.
  intros _. do 2 eexists. repeat split; try done.
  - by destruct (exr w out).
  - by rewrite lookup_insert_eq.
Qed.

Lemma pixel_from_gray read channel alpha image y x p :
  img_colors image < 3 ->
  pixel_from read channel alpha image y x = Some p ->
  exists idx sample,
    pixel_index y x (img_width image) (img_colors image) = Some idx /\
    read (img_data image) idx = Some sample /\
    p = {| r := channel sample; g := channel sample; b := channel sample;
           a := alpha |}.
Proof.
  intros Hc. unfold pixel_from.
  destruct (pixel_index _ _ _ _) as [idx|]; simpl; [|done].
  rewrite decide_False by lia.
  destruct (read (img_data image) idx) as [s|] eqn:Hs; simpl; [|done].
  intros [= <-]. by exists idx, s.
Qed.

End ConvertFacts.

(** ** Failure branches *)

Section FailureFacts.
Context {fm : FloatModel}.
Variable w : world.

Lemma general_fault_outcome input out useSRGB exposure st image :
  decodes w input image -> buffer_ok image -> exr w out <> NoFault ->
  released_after_fault st out image (exr w out)
    (General.convert3frToExr w input out useSRGB exposure st).
Proof.
  intros (Ho & Hu & Hp & Hi) Hbuf Hfault.
  destruct (fill_pixels_total
              (general_pixel (libm_pow w) image useSRGB exposure)
              (img_height image) (img_width image)) as [px Hpx].
  { intros. by apply convert_pixel_total. }
  unfold released_after_fault, General.convert3frToExr, General.write_exr,
    General.caught.
  rewrite Ho, Hu, Hp, Hi, Hpx. simpl.
  split; [by destruct (exr w out)|]. split; [|by destruct (exr w out)].
  exists (general_fault_events w input out image).
  unfold general_fault_events.
  split; [|by destruct (decide (exr w out = FaultCreate)); not_in_events].
  destruct (exr w out); try done; simpl; by rewrite <- !app_assoc.
Qed.

Lemma general_decode_failure input out useSRGB exposure st :
  decode_fails w input ->
  failed_before_encode st
    (General.convert3frToExr w input out useSRGB exposure st).
Proof.
  unfold decode_fails, failed_before_encode, General.convert3frToExr.
  intros Hfail. repeat case_decide; simpl; try done.
  destruct (rb_image _) eqn:Hi; [|done].
  destruct Hfail as [?|[?|[?|?]]]; congruence.
Qed.

Lemma full_fault_outcome input out st image :
  decodes w input image -> buffer_ok image -> exr w out <> NoFault ->
  released_after_fault st out image (exr w out)
    (FullSensor.convert3frToExr w input out st).
Proof.
  intros (Ho & Hu & Hp & Hi) Hbuf Hfault.
  pose proof (fun Hc => fill_pixels_total _ (img_height image) (img_width image)
                (fun y x Hy Hx => full_sensor_pixel_total image y x Hbuf Hc Hy Hx))
    as Hfill.
  unfold general_read, general_max in Hfill.
  unfold released_after_fault, FullSensor.convert3frToExr,
    FullSensor.write_exr, FullSensor.caught.
  rewrite Ho, Hu, Hp, Hi. simpl.
  destruct (decide (img_colors image = 3 /\ img_bits image = 16)) as [[Hc Hb]|].
  { destruct (Hfill Hc) as [px Hpx]. rewrite !decide_True in Hpx by done.
    rewrite Hpx.
    split; [by destruct (exr w out)|]. split; [|by destruct (exr w out)].
    exists (full_sensor_fault_events w input out image).
    split; [|by unfold full_sensor_fault_events; destruct (decide (exr w out = FaultCreate)); not_in_events].
    unfold full_sensor_fault_events.
    destruct (exr w out); try done; simpl; by rewrite <- !app_assoc. }
  destruct (decide (img_colors image = 3 /\ img_bits image = 8)) as [[Hc Hb]|].
  { destruct (Hfill Hc) as [px Hpx]. rewrite !decide_False in Hpx by lia.
    rewrite Hpx.
    split; [by destruct (exr w out)|]. split; [|by destruct (exr w out)].
    exists (full_sensor_fault_events w input out image).
    split; [|by unfold full_sensor_fault_events; destruct (decide (exr w out = FaultCreate)); not_in_events].
    unfold full_sensor_fault_events.
    destruct (exr w out); try done; simpl; by rewrite <- !app_assoc. }
  split; [by destruct (exr w out)|]. split; [|by destruct (exr w out)].
  exists (full_sensor_fault_events w input out image).
  split; [|by unfold full_sensor_fault_events; destruct (decide (exr w out = FaultCreate)); not_in_events].
  unfold full_sensor_fault_events.
  destruct (exr w out); try done; simpl; by rewrite <- !app_assoc.
Qed.

Lemma full_decode_failure input out st :
  decode_fails w input ->
  failed_before_encode st (FullSensor.convert3frToExr w input out st).
Proof.
  unfold decode_fails, failed_before_encode, FullSensor.convert3frToExr.
  intros Hfail. repeat case_decide; simpl; try done.
  destruct (rb_image _) eqn:Hi; [|done].
  destruct Hfail as [?|[?|[?|?]]]; congruence.
Qed.

(** The full-sensor converter rejects an unsupported buffer after it has
    constructed the output file: it releases the buffer and returns
    failure, and the file stays at the output path, incomplete. *)
Lemma full_sensor_unsupported_leaves_file input out st image :
  decodes w input image -> exr w out = NoFault ->
  ~ (img_colors image = 3 /\ img_bits image = 16) ->
  ~ (img_colors image = 3 /\ img_bits image = 8) ->
  (FullSensor.convert3frToExr w input out st).1 = Some false /\
  files (FullSensor.convert3frToExr w input out st).2
  = <[out := Incomplete (img_width image) (img_height image)]> (files st).
Proof.
  intros (Ho & Hu & Hp & Hi) Hfault H16 H8.
  unfold FullSensor.convert3frToExr, FullSensor.write_exr, FullSensor.caught.
  rewrite Ho, Hu, Hp, Hi, Hfault. simpl.
  rewrite (decide_False (P := _ /\ img_bits image = 16)) by done.
  by rewrite (decide_False (P := _ /\ img_bits image = 8)) by done.
Qed.

(** C2, as amended.  In both programs, an exception of the encode stage
    is caught: the converter returns failure and releases the decoded
    buffer once, as its last action.  The file is not removed: once the
    output file has been constructed it stays at the output path,
    incomplete.  A failure of open, unpack, process or fetch returns
    failure without creating or changing any file. *)
Theorem encode_exception_keeps_incomplete_file
    input out useSRGB exposure st :
  (forall image,
     decodes w input image -> buffer_ok image -> exr w out <> NoFault ->
     released_after_fault st out image (exr w out)
       (General.convert3frToExr w input out useSRGB exposure st) /\
     released_after_fault st out image (exr w out)
       (FullSensor.convert3frToExr w input out st)) /\
  (decode_fails w input ->
     failed_before_encode st
       (General.convert3frToExr w input out useSRGB exposure st) /\
     failed_before_encode st (FullSensor.convert3frToExr w input out st)).
Proof.
  split.
  - intros image Hd Hb Hf. split.
    + by apply general_fault_outcome.
    + by apply full_fault_outcome.
  - intros Hd. split.
    + by apply general_decode_failure.
    + by apply full_decode_failure.
Qed.

End FailureFacts.

Section SinglePrecisionFailure.
#[local] Existing Instance Binary32.model.

Lemma shots_ok fault : world_ok (Samples.shots fault).
Proof.
  intros path image. simpl.
  repeat case_match; intros [= <-]; vm_compute; repeat split; congruence.
Qed.

Lemma encode_exception_keeps_incomplete_file_witness :
  released_after_fault empty_state "shots/EXR/a.exr" Samples.rgb16
    FaultWritePixels
    (General.convert3frToExr (Samples.shots FaultWritePixels)
       "shots/a.3fr" "shots/EXR/a.exr" false (literal 1 1) empty_state) /\
  failed_before_encode empty_state
    (FullSensor.convert3frToExr (Samples.shots NoFault)
       "shots/bad.3fr" "shots/EXR/bad.exr" empty_state).
Proof.
  split.
  - apply (encode_exception_keeps_incomplete_file
             (Samples.shots FaultWritePixels)
             "shots/a.3fr" "shots/EXR/a.exr" false (literal 1 1) empty_state).
    + repeat split; reflexivity.
    + apply (shots_ok FaultWritePixels "shots/a.3fr"). reflexivity.
    + discriminate.
  - apply (encode_exception_keeps_incomplete_file
             (Samples.shots NoFault)
             "shots/bad.3fr" "shots/EXR/bad.exr" false (literal 1 1) empty_state).
    left. discriminate.
Defined.

(** C2 fails as stated: when [writePixels] throws while the general
    converter writes shots/EXR/a.exr, the converter returns failure, and the
    file, absent before the call, is at the output path, incomplete. *)
Lemma failed_write_leaves_truncated_file :
  let r := General.convert3frToExr (Samples.shots FaultWritePixels)
             "shots/a.3fr" "shots/EXR/a.exr" false (literal 1 1) empty_state in
  r.1 = Some false /\
  files empty_state !! "shots/EXR/a.exr" = None /\
  files r.2 !! "shots/EXR/a.exr" = Some (Incomplete 2 1).
Proof.
  destruct (general_fault_outcome (Samples.shots FaultWritePixels)
              "shots/a.3fr" "shots/EXR/a.exr" false (literal 1 1)
              empty_state Samples.rgb16) as (Hres & _ & Hfiles).
  - repeat split; reflexivity.
  - apply (shots_ok FaultWritePixels "shots/a.3fr"). reflexivity.
  - discriminate.
  - cbv zeta. split; [exact Hres|]. split; [apply lookup_empty|].
    rewrite Hfiles. apply lookup_insert_eq.
Qed.

End SinglePrecisionFailure.

(** ** Order of the decoder calls *)

Section OrderFacts.
Context {fm : FloatModel}.
Variable w : world.

Lemma general_write_exr_extends image out useSRGB exposure st :
  exists evs,
    trace (General.write_exr w image out useSRGB exposure st).2
    = trace st ++ evs.
Proof.
  unfold General.write_exr, General.caught.
  repeat (case_decide || case_match); simpl;
    rewrite <- ?app_assoc; eexists; reflexivity.
Qed.

Lemma full_write_exr_extends image out st :
  exists evs, trace (FullSensor.write_exr w image out st).2 = trace st ++ evs.
Proof.
  unfold FullSensor.write_exr, FullSensor.caught.
  repeat (case_decide || case_match); simpl;
    rewrite <- ?app_assoc; eexists; reflexivity.
Qed.

(** C1 fails for the general converter: whenever its input opens and
    unpacks, it has called [unpack] before it overrides the sensor
    geometry. *)
Theorem general_unpacks_before_geometry_override
    input out useSRGB exposure st :
  rb_open (libraw w input) = LIBRAW_SUCCESS ->
  rb_unpack (libraw w input) = LIBRAW_SUCCESS ->
  exists rest,
    trace (General.convert3frToExr w input out useSRGB exposure st).2
    = trace st
      ++ [EvOpenFile input; EvUnpack;
          EvSetSizes (force_full_sensor (rb_sizes (libraw w input)))]
      ++ rest.
Proof.
  intros Ho Hu. unfold General.convert3frToExr.
  rewrite Ho, Hu. simpl.
  destruct (decide (rb_process _ <> _)); simpl.
  { rewrite <- !app_assoc. simpl. eexists; reflexivity. }
  destruct (rb_image _) as [image|]; simpl.
  - destruct (general_write_exr_extends image out useSRGB exposure
                (emit EvMakeMemImage (emit EvProcess (emit_all General.params
                   (emit (EvSetSizes (force_full_sensor (rb_sizes (libraw w input))))
                      (emit EvUnpack (emit (EvOpenFile input) st)))))))
      as [evs ->].
    simpl. rewrite <- !app_assoc. simpl. eexists; reflexivity.
  - rewrite <- !app_assoc. simpl. eexists; reflexivity.
Qed.

(** The full-sensor converter keeps the order C1 asks for: open, then
    the override, then [unpack]; the override makes the raw dimensions
    the working ones and clears both margins. *)
Lemma full_sensor_overrides_before_unpack input out st :
  rb_open (libraw w input) = LIBRAW_SUCCESS ->
  exists rest,
    trace (FullSensor.convert3frToExr w input out st).2
    = trace st
      ++ [EvOpenFile input] ++ FullSensor.params
      ++ [EvSetSizes (FullSensor.use_full_sensor (rb_sizes (libraw w input)));
          EvUnpack]
      ++ rest.
Proof.
  intros Ho. unfold FullSensor.convert3frToExr.
  rewrite Ho. simpl.
  destruct (decide (rb_unpack _ <> _)); simpl.
  { rewrite <- !app_assoc. simpl. eexists; reflexivity. }
  destruct (decide (rb_process _ <> _)); simpl.
  { rewrite <- !app_assoc. simpl. eexists; reflexivity. }
  destruct (rb_image _) as [image|]; simpl.
  - destruct (full_write_exr_extends image out
                (emit EvMakeMemImage (emit EvProcess (emit EvUnpack
                   (emit (EvSetSizes (FullSensor.use_full_sensor
                                        (rb_sizes (libraw w input))))
                      (emit_all FullSensor.params
                         (emit (EvOpenFile input) st)))))))
      as [evs ->].
    simpl. rewrite <- !app_assoc. simpl. eexists; reflexivity.
  - rewrite <- !app_assoc. simpl. eexists; reflexivity.
Qed.

Lemma use_full_sensor_geometry s :
  width (FullSensor.use_full_sensor s) = raw_width s /\
  height (FullSensor.use_full_sensor s) = raw_height s /\
  top_margin (FullSensor.use_full_sensor s) = 0 /\
  left_margin (FullSensor.use_full_sensor s) = 0.
Proof. done. Qed.

End OrderFacts.

Lemma general_unpacks_before_geometry_override_witness :
  exists rest,
    trace (@General.convert3frToExr Binary32.model (Samples.shots NoFault)
             "shots/a.3fr" "shots/EXR/a.exr" true (Binary32.lit 1 1)
             empty_state).2
    = [EvOpenFile "shots/a.3fr"; EvUnpack;
       EvSetSizes (force_full_sensor Samples.sizes)] ++ rest.
Proof.
  apply (@general_unpacks_before_geometry_override Binary32.model
           (Samples.shots NoFault) "shots/a.3fr" "shots/EXR/a.exr" true
           (Binary32.lit 1 1) empty_state); reflexivity.
Defined.

(** ** The batch driver *)

Section BatchFacts.
Context {fm : FloatModel}.
Variable w : world.

(** Once the candidates are known and there is at least one, [main] is
    the conversion loop followed by the choice of the exit status. *)
Lemma general_main_ready argv st j st1 :
  General.prepare w argv st = (General.Ready j, st1) ->
  General.threeFrFiles j <> [] ->
  General.main w argv st
  = match General.process_files w j (General.threeFrFiles j) 0 0 st1 with
    | (Some (successCount, failCount), st') =>
        (Exit (if decide (failCount > 0) then 1 else 0), st')
    | (None, st') => (Undefined, st')
    end.
Proof.
  intros Hprep Hne. unfold General.main. rewrite Hprep.
  by destruct (General.threeFrFiles j).
Qed.

Lemma full_sensor_main_ready argv st j st1 :
  FullSensor.prepare w argv st = (FullSensor.Ready j, st1) ->
  FullSensor.threeFrFiles j <> [] ->
  FullSensor.main w argv st
  = match FullSensor.process_files w j (FullSensor.threeFrFiles j) 0 0 st1 with
    | (Some (successCount, failCount), st') =>
        (Exit (if decide (failCount > 0) then 1 else 0), st')
    | (None, st') => (Undefined, st')
    end.
Proof.
  intros Hprep Hne. unfold FullSensor.main. rewrite Hprep.
  by destruct (FullSensor.threeFrFiles j).
Qed.




End BatchFacts.

(** ** The option loop *)

Section OptionFacts.
Context {fm : FloatModel}.
Variable w : world.

Lemma parse_args_unrecognised token rest useSRGB exposure :
  unrecognised token ->
  General.parse_args w (token :: rest) useSRGB exposure
  = General.parse_args w rest useSRGB exposure.
Proof.
  intros [Hl He]. simpl.
  destruct (String.eqb_spec token "--linear"); [done|].
  by destruct (String.eqb_spec token "--exposure").
Qed.

Lemma parse_args_exposure value rest useSRGB exposure :
  General.parse_args w ("--exposure" :: value :: rest) useSRGB exposure
  = match stof w value with
    | Some e => General.parse_args w rest useSRGB e
    | None => General.StofThrows
    end.
Proof. done. Qed.

(** Options parsed from a prefix carry over to the rest of the line. *)
Lemma parse_args_app_bounded n : forall pre post useSRGB exposure u e,
  (length pre <= n)%nat ->
  General.parse_args w pre useSRGB exposure = General.Options u e ->
  General.parse_args w (pre ++ post) useSRGB exposure
  = General.parse_args w post u e.
Proof.
  induction n as [|n IH]; intros pre post useSRGB exposure u e Hlen.
  - destruct pre; [|simpl in Hlen; lia]. by intros [= <- <-].
  - destruct pre as [|arg rest]; [by intros [= <- <-]|].
    simpl in Hlen |- *.
    destruct (String.eqb arg "--linear"); [apply IH; lia|].
    destruct (String.eqb arg "--exposure"); [|apply IH; lia].
    destruct rest as [|value rest']; [done|]. simpl in Hlen |- *.
    destruct (stof w value); [apply IH; lia | done].
Qed.

Lemma parse_args_app pre post useSRGB exposure u e :
  General.parse_args w pre useSRGB exposure = General.Options u e ->
  General.parse_args w (pre ++ post) useSRGB exposure
  = General.parse_args w post u e.
Proof. by apply (parse_args_app_bounded (length pre)). Qed.

Lemma usage_error_inv_bounded n : forall args useSRGB exposure,
  (length args <= n)%nat ->
  General.parse_args w args useSRGB exposure = General.UsageError ->
  exists pre u e,
    args = pre ++ ["--exposure"] /\
    General.parse_args w pre useSRGB exposure = General.Options u e.
Proof.
  induction n as [|n IH]; intros args useSRGB exposure Hlen.
  - destruct args; [done | simpl in Hlen; lia].
  - destruct args as [|arg rest]; [done|]. simpl in Hlen |- *.
    destruct (String.eqb_spec arg "--linear") as [->|Hl].
    { intros Herr.
      destruct (IH rest false exposure) as (pre & u & e & -> & Hpre);
        [lia | done |].
      by exists ("--linear" :: pre), u, e. }
    destruct (String.eqb_spec arg "--exposure") as [->|He].
    + destruct rest as [|value rest'].
      { intros _. by exists [], useSRGB, exposure. }
      simpl in Hlen. destruct (stof w value) as [e1|] eqn:Hstof; [|done].
      intros Herr.
      destruct (IH rest' useSRGB e1) as (pre & u & e & -> & Hpre);
        [lia | done |].
      exists ("--exposure" :: value :: pre), u, e. split; [done|].
      by rewrite parse_args_exposure, Hstof.
    + intros Herr.
      destruct (IH rest useSRGB exposure) as (pre & u & e & -> & Hpre);
        [lia | done |].
      exists (arg :: pre), u, e. split; [done|].
      by rewrite parse_args_unrecognised.
Qed.

Lemma main_usage_error prog dir args st :
  General.parse_args w args true (literal 1 1) = General.UsageError ->
  General.main w (prog :: dir :: args) st = (Exit 1, st).
Proof.
  intros Herr. unfold General.main, General.prepare. simpl.
  by rewrite ?drop_0, Herr.
Qed.

(** C9, as amended.  A token that the option loop meets in option
    position and that is neither "--linear" nor "--exposure" is ignored;
    the token after "--exposure" is not ignored but handed to [std::stof]
    as the value; the loop reports a usage error exactly when
    "--exposure" is the last token and stands in option position, and
    [main] then returns 1 before any other action. *)
Theorem option_loop_characterised
    (args : list string) (useSRGB : bool) (exposure : float) :
  (forall token rest,
     unrecognised token ->
     General.parse_args w (token :: rest) useSRGB exposure
     = General.parse_args w rest useSRGB exposure) /\
  (forall value rest,
     General.parse_args w ("--exposure" :: value :: rest) useSRGB exposure
     = match stof w value with
       | Some e => General.parse_args w rest useSRGB e
       | None => General.StofThrows
       end) /\
  (General.parse_args w args useSRGB exposure = General.UsageError <->
     exists pre u e,
       args = pre ++ ["--exposure"] /\
       General.parse_args w pre useSRGB exposure = General.Options u e) /\
  (General.parse_args w args true (literal 1 1) = General.UsageError ->
     forall prog dir st,
       General.main w (prog :: dir :: args) st = (Exit 1, st)).
Proof.
  split; [intros; by apply parse_args_unrecognised|].
  split; [intros; apply parse_args_exposure|].
  split.
  - split.
    + by apply (usage_error_inv_bounded (length args)).
    + intros (pre & u & e & -> & Hpre).
      by rewrite (parse_args_app _ _ _ _ _ _ Hpre).
  - intros Herr prog dir st. by apply main_usage_error.
Qed.

End OptionFacts.

Section SinglePrecisionBatch.
#[local] Existing Instance Binary32.model.


Example main_shots :
  (General.main (Samples.shots NoFault) ["prog"; "shots"; "--linear"]
     empty_state).1 = Exit 1.
Proof. reflexivity. Qed.

Example main_shots_full_sensor :
  (FullSensor.main (Samples.shots NoFault) ["prog"; "shots"] empty_state).1
  = Exit 1.
Proof. reflexivity. Qed.

Example main_empty_directory :
  General.main Samples.empty_dir ["prog"; "empty"] empty_state
  = (Exit 0, empty_state).
Proof. reflexivity. Qed.




Lemma option_loop_characterised_witness :
  General.parse_args (Samples.shots NoFault) ["--verbose"; "--linear"]
    true (literal 1 1)
  = General.parse_args (Samples.shots NoFault) ["--linear"] true (literal 1 1) /\
  General.main (Samples.shots NoFault)
    ["prog"; "shots"; "--verbose"; "--exposure"] empty_state
  = (Exit 1, empty_state).
Proof.
  destruct (option_loop_characterised (Samples.shots NoFault)
              ["--verbose"; "--exposure"] true (literal 1 1))
    as (Hignored & _ & _ & Husage).
  split.
  - apply Hignored. split; discriminate.
  - apply Husage. reflexivity.
Defined.

(** C9 fails as stated: the token "2" is neither "--linear" nor
    "--exposure", yet after "--exposure" it is not ignored: it sets the
    exposure to 2, and without it the program stops with a usage error. *)
Lemma exposure_value_is_not_ignored :
  unrecognised "2" /\
  General.parse_args (Samples.shots NoFault) ["--exposure"; "2"]
    true (literal 1 1) = General.Options true (literal 2 1) /\
  General.parse_args (Samples.shots NoFault) ["--exposure"]
    true (literal 1 1) = General.UsageError.
Proof. repeat split; discriminate. Qed.

Example exposure_without_number_terminates :
  (General.main (Samples.shots NoFault)
     ["prog"; "shots"; "--exposure"; "--exposure"] empty_state).1 = Terminate.
Proof. reflexivity. Qed.

End SinglePrecisionBatch.

(** * Further properties *)

(** ** Strings *)

Lemma append_cons (c : ascii) (s1 s2 : string) :
  String c s1 +:+ s2 = String c (s1 +:+ s2).
Proof. reflexivity. Qed.

Lemma append_nil_l (s : string) : "" +:+ s = s.
Proof. reflexivity. Qed.

Lemma length_append (s1 s2 : string) :
  String.length (s1 +:+ s2) = (String.length s1 + String.length s2)%nat.
Proof.
  induction s1 as [|c s1 IH]; [done|].
  rewrite append_cons. simpl. by rewrite IH.
Qed.

Lemma append_assoc (s1 s2 s3 : string) :
  (s1 +:+ s2) +:+ s3 = s1 +:+ (s2 +:+ s3).
Proof.
  induction s1 as [|c s1 IH]; [done|].
  rewrite !append_cons. by rewrite IH.
Qed.

Lemma append_nil_r (s : string) : s +:+ "" = s.
Proof.
  induction s as [|c s IH]; [done|]. rewrite append_cons. by rewrite IH.
Qed.

Lemma substring_0_append (s1 s2 : string) :
  substring 0 (String.length s1) (s1 +:+ s2) = s1.
Proof.
  induction s1 as [|c s1 IH]; [by destruct s2|].
  rewrite append_cons. simpl. by rewrite IH.
Qed.

Lemma substring_skip_append (s1 s2 : string) n :
  substring (String.length s1) n (s1 +:+ s2) = substring 0 n s2.
Proof.
  induction s1 as [|c s1 IH]; [done|]. rewrite append_cons. simpl. done.
Qed.

Lemma substring_0_all (s : string) : substring 0 (String.length s) s = s.
Proof. induction s as [|c s IH]; simpl; [done | by rewrite IH]. Qed.

Lemma substring_middle (s1 s2 s3 : string) :
  substring (String.length s1) (String.length s2) (s1 +:+ s2 +:+ s3) = s2.
Proof. by rewrite substring_skip_append, substring_0_append. Qed.

(** A string is its first [n] characters followed by the rest. *)
Lemma substring_split (s : string) n :
  (n <= String.length s)%nat ->
  s = substring 0 n s +:+ substring n (String.length s - n) s.
Proof.
  revert n. induction s as [|c s IH]; intros [|n] Hn; simpl in *; try lia.
  - done.
  - by rewrite append_nil_l, substring_0_all.
  - rewrite append_cons. by rewrite <- IH by lia.
Qed.

Lemma length_substring (s : string) n m :
  (n + m <= String.length s)%nat -> String.length (substring n m s) = m.
Proof.
  revert n m. induction s as [|c s IH]; intros [|n] [|m] Hn; simpl in *;
    try lia; try done.
  - by rewrite IH by lia.
  - by rewrite IH by lia.
  - by rewrite IH by lia.
Qed.

Lemma length_4_inv (s : string) :
  String.length s = 4%nat ->
  exists a b c d, s = String a (String b (String c (String d EmptyString))).
Proof.
  destruct s as [|a [|b [|c [|d [|e s]]]]]; simpl; try done.
  intros _. by exists a, b, c, d.
Qed.

Lemma avoids_weaken chars chars' (s : string) :
  (forall c, c ∈ chars' -> c ∈ chars) ->
  avoids chars s = true -> avoids chars' s = true.
Proof.
  intros Hsub. induction s as [|c s IH]; [done|]. simpl.
  intros [Hc Hs]%andb_true_iff. rewrite IH, andb_true_r by done.
  apply negb_true_iff, bool_decide_eq_false.
  apply negb_true_iff, bool_decide_eq_false in Hc. auto.
Qed.

Lemma avoids_substring chars (s : string) n m :
  avoids chars s = true -> avoids chars (substring n m s) = true.
Proof.
  revert n m. induction s as [|c s IH]; intros [|n] [|m]; simpl; try done.
  - intros [Hc Hs]%andb_true_iff. by rewrite Hc, IH.
  - intros [Hc Hs]%andb_true_iff. by apply IH.
  - intros [Hc Hs]%andb_true_iff. by apply IH.
Qed.

Lemma avoids_append chars (s1 s2 : string) :
  avoids chars (s1 +:+ s2) = avoids chars s1 && avoids chars s2.
Proof.
  induction s1 as [|c s1 IH]; [done|].
  rewrite append_cons. simpl. by rewrite IH, andb_assoc.
Qed.

(** ** [tolower] *)

Lemma tolower_fixed (c c' : ascii) :
  tolower c = c' ->
  (nat_of_ascii c' < 65 \/ 90 < nat_of_ascii c')%nat ->
  c = c' \/ nat_of_ascii c' = (nat_of_ascii c + 32)%nat.
Proof.
  intros <- Hrange. unfold tolower in *.
  destruct ((65 <=? nat_of_ascii c) && (nat_of_ascii c <=? 90))%nat eqn:E;
    [|by left].
  right. apply andb_true_iff in E as [H1 H2].
  apply Nat.leb_le in H1, H2.
  rewrite nat_ascii_embedding; [done|lia].
Qed.

Lemma tolower_is (c : ascii) (lower upper : ascii) :
  (97 <= nat_of_ascii lower <= 122)%nat ->
  nat_of_ascii lower = (nat_of_ascii upper + 32)%nat ->
  tolower c = lower <-> c = lower \/ c = upper.
Proof.
  intros Hl Hu. split.
  - intros H. destruct (tolower_fixed c lower H) as [?|Hc]; [lia|by left|].
    right. rewrite <- (ascii_nat_embedding c), <- (ascii_nat_embedding upper).
    f_equal. lia.
  - intros [->| ->]; unfold tolower.
    + rewrite (proj2 (andb_false_iff _ _)); [done|].
      right. apply Nat.leb_gt. lia.
    + rewrite (proj2 (andb_true_iff _ _)).
      * rewrite <- Hu. apply ascii_nat_embedding.
      * split; apply Nat.leb_le; lia.
Qed.

Lemma tolower_other (c c' : ascii) :
  (nat_of_ascii c' < 65 \/ 122 < nat_of_ascii c'
   \/ 90 < nat_of_ascii c' < 97)%nat ->
  tolower c = c' <-> c = c'.
Proof.
  intros Hr. split.
  - intros H. destruct (tolower_fixed c c' H) as [?|Hc]; [lia|done|].
    unfold tolower in H.
    destruct ((65 <=? nat_of_ascii c) && (nat_of_ascii c <=? 90))%nat eqn:E;
      [|done].
    apply andb_true_iff in E as [H1 H2]. apply Nat.leb_le in H1, H2. lia.
  - intros ->. unfold tolower.
    rewrite (proj2 (andb_false_iff _ _)); [done|].
    destruct (Nat.leb_spec 65 (nat_of_ascii c')); [|by left].
    right. apply Nat.leb_gt. lia.
Qed.

(** ** [is3frFile] *)

Lemma lowercase_3fr (ext : string) :
  String.length ext = 4%nat ->
  transform tolower ext = ".3fr" <-> is_3fr_extension ext.
Proof.
  intros Hlen. destruct (length_4_inv ext Hlen) as (a & b & c & d & ->).
  simpl. unfold is_3fr_extension. split.
  - intros [= Ha Hb Hc Hd].
    apply (tolower_other a ".") in Ha; [|ascii_codes].
    apply (tolower_other b "3") in Hb; [|ascii_codes].
    apply (tolower_is c "f" "F") in Hc; [|ascii_codes|ascii_codes].
    apply (tolower_is d "r" "R") in Hd; [|ascii_codes|ascii_codes].
    subst a b. by exists c, d.
  - intros (c1 & c2 & [= -> -> -> ->] & H1 & H2).
    apply (tolower_is c1 "f" "F") in H1; [|ascii_codes|ascii_codes].
    apply (tolower_is c2 "r" "R") in H2; [|ascii_codes|ascii_codes].
    by rewrite H1, H2.
Qed.

Lemma is3frFile_split (filename : string) :
  is3frFile filename = true ->
  (4 <= String.length filename)%nat /\
  filename = substring 0 (String.length filename - 4) filename
             +:+ substring (String.length filename - 4) 4 filename /\
  is_3fr_extension (substring (String.length filename - 4) 4 filename).
Proof.
  unfold is3frFile.
  destruct (Nat.ltb_spec (String.length filename) 4) as [|Hlen]; [done|].
  intros Heq%String.eqb_eq. split; [done|]. split.
  - rewrite (substring_split filename (String.length filename - 4)) at 1 by lia.
    do 2 f_equal. lia.
  - apply lowercase_3fr; [|done]. apply length_substring. lia.
Qed.

Lemma is3frFile_accepts (stem ext : string) :
  is_3fr_extension ext -> is3frFile (stem +:+ ext) = true.
Proof.
  intros Hext. unfold is3frFile.
  assert (Hlen : String.length ext = 4%nat)
    by (destruct Hext as (c1 & c2 & -> & _); done).
  rewrite length_append, Hlen.
  destruct (Nat.ltb_spec (String.length stem + 4) 4) as [|_]; [lia|].
  replace (String.length stem + 4 - 4)%nat with (String.length stem) by lia.
  rewrite <- Hlen, substring_skip_append, substring_0_all.
  apply String.eqb_eq. by apply lowercase_3fr.
Qed.

(** X1.  [is3frFile] accepts exactly the names that end in a dot, the digit
    3, an f of either case and an r of either case; shorter names and all
    other endings are rejected. *)
Theorem is3frFile_spec (filename : string) :
  is3frFile filename = true <->
  exists stem ext, filename = stem +:+ ext /\ is_3fr_extension ext.
Proof.
  split.
  - intros (_ & Hsplit & Hext)%is3frFile_split. by do 2 eexists.
  - intros (stem & ext & -> & Hext). by apply is3frFile_accepts.
Qed.

(** ** [find_last_of] and [getBasename] *)

Lemma find_last_from_shift chars (s : string) pos found :
  find_last_from chars s pos found
  = match find_last_of chars s with
    | Some i => Some (pos + i)%nat
    | None => found
    end.
Proof.
  unfold find_last_of. revert pos found.
  induction s as [|c s IH]; intros pos found; simpl; [done|].
  rewrite (IH (S pos)), (IH 1%nat).
  destruct (find_last_from chars s 0 None) as [i|];
    [f_equal; lia|].
  case_bool_decide; [f_equal; lia | done].
Qed.

Lemma find_last_of_cons chars (c : ascii) (s : string) :
  find_last_of chars (String c s)
  = match find_last_of chars s with
    | Some i => Some (S i)
    | None => if bool_decide (c ∈ chars) then Some 0%nat else None
    end.
Proof.
  unfold find_last_of at 1. simpl. rewrite find_last_from_shift.
  by destruct (find_last_of chars s).
Qed.

Lemma find_last_of_avoids chars (s : string) :
  avoids chars s = true -> find_last_of chars s = None.
Proof.
  induction s as [|c s IH]; [done|]. simpl.
  intros [Hc Hs]%andb_true_iff. rewrite find_last_of_cons, IH by done.
  by destruct (bool_decide (c ∈ chars)).
Qed.

Lemma find_last_of_append_avoids chars (s1 s2 : string) :
  avoids chars s2 = true ->
  find_last_of chars (s1 +:+ s2) = find_last_of chars s1.
Proof.
  intros Hs2. induction s1 as [|c s1 IH].
  - rewrite append_nil_l. by apply find_last_of_avoids.
  - by rewrite append_cons, !find_last_of_cons, IH.
Qed.

(** The last separator: the position of [c] when nothing after it is a
    separator. *)
Lemma find_last_of_last chars (s1 : string) (c : ascii) (s2 : string) :
  c ∈ chars -> avoids chars s2 = true ->
  find_last_of chars (s1 +:+ String c s2) = Some (String.length s1).
Proof.
  intros Hc Hs2. induction s1 as [|c1 s1 IH].
  - rewrite append_nil_l, find_last_of_cons, find_last_of_avoids by done.
    by rewrite bool_decide_eq_true_2.
  - by rewrite append_cons, find_last_of_cons, IH.
Qed.

Lemma find_last_of_inv chars (s : string) i :
  find_last_of chars s = Some i ->
  exists s1 c s2,
    s = s1 +:+ String c s2 /\ String.length s1 = i /\
    c ∈ chars /\ avoids chars s2 = true.
Proof.
  revert i. induction s as [|c s IH]; intros i; [done|].
  rewrite find_last_of_cons.
  destruct (find_last_of chars s) as [j|] eqn:Hj.
  - intros [= <-]. destruct (IH j eq_refl) as (s1 & c' & s2 & -> & <- & Hc & Hs2).
    by exists (String c s1), c', s2.
  - case_bool_decide as Hc; [|done]. intros [= <-].
    exists "", c, s. repeat split; [done|].
    clear IH. induction s as [|c' s IH]; [done|].
    rewrite find_last_of_cons in Hj.
    destruct (find_last_of chars s); [done|].
    simpl. case_bool_decide; [done|]. by apply IH.
Qed.

Lemma back_append_cons (s : string) (c : ascii) :
  back (s +:+ String c "") = Some c.
Proof.
  induction s as [|c' s IH]; [done|].
  rewrite append_cons. simpl. rewrite IH.
  by destruct (s +:+ String c "") eqn:E; [destruct s|].
Qed.

Lemma back_inv (s : string) (c : ascii) :
  back s = Some c -> exists s', s = s' +:+ String c "".
Proof.
  induction s as [|c' s IH]; [done|]. simpl.
  destruct s as [|c'' s].
  - intros [= ->]. by exists "".
  - intros H. destruct (IH H) as [s' ->]. by exists (String c' s').
Qed.

Lemma back_None (s : string) : back s = None -> s = "".
Proof.
  induction s as [|c s IH]; [done|]. simpl.
  destruct s; [done|]. intros H. by specialize (IH H).
Qed.

(** Where the file name starts in [dir +:+ name]. *)
Lemma start_of_name (dir name : string) :
  ends_in_separator dir -> avoids slashes name = true ->
  match find_last_of slashes (dir +:+ name) with
  | None => 0%nat
  | Some i => S i
  end = String.length dir.
Proof.
  intros Hdir Hname. rewrite find_last_of_append_avoids by done.
  unfold ends_in_separator in Hdir.
  destruct (back dir) as [c|] eqn:Hback.
  - destruct (back_inv dir c Hback) as [d ->].
    rewrite find_last_of_last, length_append by done. simpl. lia.
  - by rewrite (back_None dir Hback).
Qed.

Lemma find_last_of_None chars (s : string) :
  find_last_of chars s = None -> avoids chars s = true.
Proof.
  induction s as [|c s IH]; [done|]. rewrite find_last_of_cons.
  destruct (find_last_of chars s); [done|].
  simpl. case_bool_decide; [done|]. intros _. by rewrite IH.
Qed.

Lemma find_last_of_lt chars (s : string) i :
  find_last_of chars s = Some i -> (i < String.length s)%nat.
Proof.
  intros (s1 & c & s2 & -> & <- & _)%find_last_of_inv.
  rewrite length_append. simpl. lia.
Qed.

Lemma getBasename_stem (dir stem ext : string) :
  ends_in_separator dir ->
  avoids slashes stem = true ->
  avoids ("."%char :: slashes) ext = true ->
  getBasename (dir +:+ stem +:+ "." +:+ ext) = stem.
Proof.
  intros Hdir Hstem Hext.
  assert (Hext_dot : avoids ["."%char] ext = true)
    by (apply (avoids_weaken ("."%char :: slashes)); [weaker_chars | done]).
  assert (Hext_slash : avoids slashes ext = true)
    by (apply (avoids_weaken ("."%char :: slashes)); [weaker_chars | done]).
  unfold getBasename.
  pose proof (start_of_name dir (stem +:+ "." +:+ ext) Hdir) as Hstart.
  rewrite !avoids_append in Hstart. simpl in Hstart.
  rewrite Hstem, Hext_slash in Hstart. specialize (Hstart eq_refl).
  replace (find_last_of ["."%char] (dir +:+ stem +:+ "." +:+ ext))
    with (Some (String.length dir + String.length stem)%nat).
  2:{ rewrite <- append_assoc. change ("." +:+ ext) with (String "."%char ext).
      rewrite find_last_of_last, length_append; [done | by left | done]. }
  rewrite Hstart.
  destruct (Nat.ltb_spec (String.length dir + String.length stem)
              (String.length dir)); [lia|].
  replace (String.length dir + String.length stem - String.length dir)%nat
    with (String.length stem) by lia.
  apply substring_middle.
Qed.

(** X2.  For a path made of a directory part that is empty or ends in a
    separator, a name without separators, a dot and an extension without
    dots or separators, [getBasename] returns the name: the directory and
    the last extension are stripped, earlier dots of the name are kept. *)
Theorem getBasename_strips_directory_and_extension (dir stem ext : string) :
  ends_in_separator dir ->
  avoids slashes stem = true ->
  avoids ("."%char :: slashes) ext = true ->
  getBasename (dir +:+ stem +:+ "." +:+ ext) = stem.
Proof. apply getBasename_stem. Qed.

Lemma getBasename_strips_directory_and_extension_witness :
  getBasename ("shots.v2/" +:+ "B0001.raw" +:+ "." +:+ "3FR") = "B0001.raw".
Proof.
  apply (getBasename_strips_directory_and_extension
           "shots.v2/" "B0001.raw" "3FR"); first [reflexivity | by left].
Defined.

(** X3.  When the file name has neither a dot nor a separator,
    [getBasename] returns it whole, also when the directory part contains
    dots. *)
Theorem getBasename_without_extension (dir name : string) :
  ends_in_separator dir ->
  avoids ("."%char :: slashes) name = true ->
  getBasename (dir +:+ name) = name.
Proof.
  intros Hdir Hname.
  assert (Hdot : avoids ["."%char] name = true)
    by (apply (avoids_weaken ("."%char :: slashes)); [weaker_chars | done]).
  assert (Hslash : avoids slashes name = true)
    by (apply (avoids_weaken ("."%char :: slashes)); [weaker_chars | done]).
  unfold getBasename.
  rewrite (start_of_name dir name Hdir Hslash).
  rewrite (find_last_of_append_avoids ["."%char]) by done.
  assert (Hsub : substring (String.length dir)
                   (String.length (dir +:+ name) - String.length dir)
                   (dir +:+ name) = name).
  { rewrite length_append.
    replace (String.length dir + String.length name - String.length dir)%nat
      with (String.length name) by lia.
    by rewrite substring_skip_append, substring_0_all. }
  destruct (find_last_of ["."%char] dir) as [d|] eqn:Hd; [|done].
  apply find_last_of_lt in Hd.
  by destruct (Nat.ltb_spec d (String.length dir)); [|lia].
Qed.

Lemma getBasename_without_extension_witness :
  getBasename ("shots.v2/" +:+ "frame") = "frame".
Proof.
  apply (getBasename_without_extension "shots.v2/" "frame");
    first [reflexivity | by left].
Defined.

(** X4.  Whatever the path, the result of [getBasename] contains no path
    separator: the output file name derived from it stays inside the output
    directory. *)
Theorem getBasename_has_no_separator (filepath : string) :
  avoids slashes (getBasename filepath) = true.
Proof.
  unfold getBasename.
  destruct (find_last_of slashes filepath) as [i|] eqn:Hi.
  - destruct (find_last_of_inv _ _ _ Hi) as (s1 & c & s2 & -> & <- & _ & Hs2).
    replace (S (String.length s1)) with (String.length (s1 +:+ String c ""))
      by (rewrite length_append; simpl; lia).
    replace (s1 +:+ String c s2) with ((s1 +:+ String c "") +:+ s2)
      by (by rewrite append_assoc).
    rewrite substring_skip_append. by apply avoids_substring.
  - apply avoids_substring. by apply find_last_of_None.
Qed.

(** ** Trailing separator and output paths *)

(** X5.  [with_trailing_slash] fails only on the empty string; otherwise
    the result ends in a separator, is the argument itself or the argument
    followed by a slash, and is left alone by a second application. *)
Theorem with_trailing_slash_spec (dir : string) :
  (with_trailing_slash dir = None <-> dir = "") /\
  (forall dir', with_trailing_slash dir = Some dir' ->
     (exists c, back dir' = Some c /\ c ∈ slashes) /\
     (dir' = dir \/ dir' = dir +:+ "/") /\
     with_trailing_slash dir' = Some dir').
Proof.
  unfold with_trailing_slash. split.
  - split.
    + destruct (back dir) eqn:Hb; [done|]. intros _. by apply back_None.
    + by intros ->.
  - intros dir'. destruct (back dir) as [c|] eqn:Hb; [|done]. simpl.
    case_bool_decide as Hc; intros [= <-].
    + rewrite Hb. simpl. rewrite bool_decide_eq_true_2 by done.
      split; [by exists c | by split; [left|]].
    + rewrite back_append_cons. simpl.
      split; [exists "/"%char; split; [done | by left] | by split; [right|]].
Qed.

Lemma with_trailing_slash_ends (dir dir' : string) :
  with_trailing_slash dir = Some dir' -> ends_in_separator dir'.
Proof.
  unfold with_trailing_slash, ends_in_separator.
  destruct (back dir) as [c|] eqn:Hb; [|done]. simpl.
  case_bool_decide as Hc; intros [= <-].
  - by rewrite Hb.
  - rewrite back_append_cons. by left.
Qed.

(** X6.  For a directory entry accepted by [is3frFile] whose name holds no
    separator, found in an input directory that ends in a separator, the
    output path derived by [main] is the output directory, the name without
    its last four characters, and ".exr". *)
Theorem candidate_output_path (inputDir outputDir name : string) :
  ends_in_separator inputDir ->
  avoids slashes name = true ->
  is3frFile name = true ->
  output_for outputDir (inputDir +:+ name)
  = outputDir +:+ substring 0 (String.length name - 4) name +:+ ".exr".
Proof.
  intros Hdir Hname (Hlen & Hsplit & (c1 & c2 & Hext & H1 & H2))%is3frFile_split.
  unfold output_for. do 2 f_equal.
  set (stem := substring 0 (String.length name - 4) name) in *.
  rewrite Hsplit, Hext in Hname |- *.
  rewrite avoids_append in Hname. apply andb_true_iff in Hname as [Hstem _].
  change (String "."%char (String "3"%char (String c1 (String c2 ""))))
    with ("." +:+ String "3"%char (String c1 (String c2 ""))).
  apply getBasename_stem; [done..|].
  destruct H1 as [-> | ->], H2 as [-> | ->]; vm_compute; reflexivity.
Qed.

Lemma candidate_output_path_witness :
  output_for "shots/EXR/" ("shots/" +:+ "B0001234.3FR")
  = "shots/EXR/" +:+ substring 0 (String.length "B0001234.3FR" - 4) "B0001234.3FR"
    +:+ ".exr".
Proof.
  apply (candidate_output_path "shots/" "shots/EXR/" "B0001234.3FR");
    first [reflexivity | by left].
Defined.

(** ** More on the option loop *)

Section OptionLoop.
Context {fm : FloatModel}.
Variable w : world.

(** X7.  A command line without "--exposure" always parses, without
    consulting [std::stof]: the exposure keeps its value and the
    linearisation stays on unless "--linear" occurs among the tokens. *)
Theorem parse_args_without_exposure
    (args : list string) (useSRGB : bool) (exposure : float) :
  "--exposure" ∉ args ->
  General.parse_args w args useSRGB exposure
  = General.Options (useSRGB && negb (bool_decide ("--linear" ∈ args))) exposure.
Proof.
  revert useSRGB. induction args as [|arg rest IH]; intros useSRGB Hno.
  - simpl. by rewrite andb_true_r.
  - apply not_elem_of_cons in Hno as [Hne Hrest].
    destruct (decide (arg = "--linear")) as [->|Hl].
    + change (General.parse_args w ("--linear" :: rest) useSRGB exposure)
        with (General.parse_args w rest false exposure).
      rewrite IH by done.
      rewrite (bool_decide_eq_true_2 ("--linear" ∈ "--linear" :: rest)) by left.
      by rewrite andb_false_r.
    + rewrite parse_args_unrecognised, IH by done. do 3 f_equal.
      apply bool_decide_ext. rewrite elem_of_cons. intuition congruence.
Qed.

(** X8.  Later options override earlier ones: after any prefix that
    parses, a final "--linear" switches the linearisation off and a final
    "--exposure v" replaces the exposure by the value of [v]. *)
Theorem later_options_override
    (pre : list string) (useSRGB u : bool) (exposure e : float) :
  General.parse_args w pre useSRGB exposure = General.Options u e ->
  General.parse_args w (pre ++ ["--linear"]) useSRGB exposure
  = General.Options false e /\
  forall value x,
    stof w value = Some x ->
    General.parse_args w (pre ++ ["--exposure"; value]) useSRGB exposure
    = General.Options u x.
Proof.
  intros Hpre. split.
  - by rewrite (parse_args_app w _ _ _ _ _ _ Hpre).
  - intros value x Hx. rewrite (parse_args_app w _ _ _ _ _ _ Hpre).
    simpl. by rewrite Hx.
Qed.

End OptionLoop.

(** ** The start of [main] *)

Section StartFacts.
Context {fm : FloatModel}.
Variable w : world.

Lemma general_prepare_effect argv st :
  only_creates_output_directory w argv st (General.prepare w argv st).2.
Proof.
  unfold General.prepare, only_creates_output_directory, createDirectory.
  repeat case_match; simplify_eq/=;
    first [ by left
          | right; do 2 eexists; repeat split; eauto using negb_false_iff;
            by apply negb_false_iff ].
Qed.

Lemma full_sensor_prepare_effect argv st :
  only_creates_output_directory w argv st (FullSensor.prepare w argv st).2.
Proof.
  unfold FullSensor.prepare, only_creates_output_directory, createDirectory.
  repeat case_match; simplify_eq/=;
    first [ by left
          | right; do 2 eexists; repeat split; eauto using negb_false_iff;
            by apply negb_false_iff ].
Qed.

(** X9.  Before its conversion loop, [main] of either program touches at
    most one thing: it may create the directory EXR inside the input
    directory, and only after it has found that the input directory exists
    and that EXR does not.  It opens no raw file and changes no EXR file. *)
Theorem main_start_only_creates_output_directory argv st :
  only_creates_output_directory w argv st (General.prepare w argv st).2 /\
  only_creates_output_directory w argv st (FullSensor.prepare w argv st).2.
Proof.
  split; [apply general_prepare_effect | apply full_sensor_prepare_effect].
Qed.

(** X10.  When the input directory does not exist, [main] of either
    program returns 1 and leaves the state as it was: no directory is
    created. *)
Theorem missing_input_directory_fails_fast (prog dir inputDir : string) st :
  with_trailing_slash dir = Some inputDir ->
  directoryExists w inputDir = false ->
  General.main w [prog; dir] st = (Exit 1, st) /\
  FullSensor.main w [prog; dir] st = (Exit 1, st).
Proof.
  intros Hin Hno.
  unfold General.main, General.prepare, FullSensor.main, FullSensor.prepare.
  simpl. by rewrite Hin, Hno.
Qed.

Lemma full_sensor_prepare_stop_code argv st c :
  (FullSensor.prepare w argv st).1 = FullSensor.Stop (Exit c) -> c = 1.
Proof.
  unfold FullSensor.prepare.
  repeat case_match; simpl; intros [= ]; done.
Qed.

(** X11.  The full-sensor program follows the same exit-status rule as the
    general one: when its [main] returns, the status is non-zero if and
    only if it stopped before the conversion loop or the converter failed
    on at least one candidate. *)
Theorem full_sensor_exit_status argv st code :
  world_ok w ->
  (forall j, (FullSensor.prepare w argv st).1 = FullSensor.Ready j ->
             Z.of_nat (length (FullSensor.threeFrFiles j)) <= INT_MAX) ->
  (FullSensor.main w argv st).1 = Exit code ->
  (code <> 0 <->
   full_sensor_stopped_early w argv st \/
   a_full_sensor_conversion_failed w argv st).
Proof.
  intros Hok Hbound.
  unfold FullSensor.main, full_sensor_stopped_early,
    a_full_sensor_conversion_failed.
  destruct (FullSensor.prepare w argv st) as [[o|j] st1] eqn:Hprep; simpl.
  - intros ->.
    assert (code = 1) as ->
      by (apply (full_sensor_prepare_stop_code argv st); by rewrite Hprep).
    split; [intros _; left; by eexists | done].
  - specialize (Hbound j eq_refl).
    destruct (FullSensor.threeFrFiles j) as [|f files] eqn:Hfiles; cbv match.
    + simpl. intros [= <-]. split; [done|].
      intros [[o [= ]] | (j' & f & [= <-] & Hin & _)].
      rewrite Hfiles in Hin. by apply elem_of_nil in Hin.
    + rewrite <- Hfiles in *.
      destruct (full_sensor_process_files_spec w Hok j
                  (FullSensor.threeFrFiles j) 0 0 st1)
        as (st' & Heq & _); [lia | lia | lia |].
      rewrite Heq. simpl. intros [= <-].
      set (failed := filter (fun f => full_sensor_result w j f = Some false)
                       (FullSensor.threeFrFiles j)).
      split.
      * intros Hcode. right.
        destruct failed as [|f' failed'] eqn:Hfailed.
        { by rewrite decide_False in Hcode by (simpl; lia). }
        assert (Hin : f' ∈ failed) by (rewrite Hfailed; left).
        apply list_elem_of_filter in Hin as [Hres Hin].
        by exists j, f'.
      * intros [[o [= ]] | (j' & f' & [= <-] & Hin & Hres)].
        assert (Hin' : f' ∈ failed) by (by apply list_elem_of_filter).
        rewrite decide_True; [done|].
        destruct failed; [by apply elem_of_nil in Hin' | simpl; lia].
Qed.

End StartFacts.

(** ** More on the single-image converters *)

Section MoreConvertFacts.
Context {fm : FloatModel}.
Variable w : world.

Lemma general_convert_frame input out useSRGB exposure st path :
  path <> out ->
  files (General.convert3frToExr w input out useSRGB exposure st).2 !! path
  = files st !! path.
Proof.
  intros Hne.
  unfold General.convert3frToExr, General.write_exr, General.caught.
  repeat (case_decide || case_match); simpl;
    by rewrite ?lookup_insert_ne by done.
Qed.

Lemma full_convert_frame input out st path :
  path <> out ->
  files (FullSensor.convert3frToExr w input out st).2 !! path
  = files st !! path.
Proof.
  intros Hne.
  unfold FullSensor.convert3frToExr, FullSensor.write_exr, FullSensor.caught.
  repeat (case_decide || case_match); simpl;
    by rewrite ?lookup_insert_ne by done.
Qed.

(** X12.  A conversion, successful or not, leaves every file other than
    its own output path as it was, in both programs. *)
Theorem convert_changes_only_its_output
    input out useSRGB exposure st path :
  path <> out ->
  files (General.convert3frToExr w input out useSRGB exposure st).2 !! path
  = files st !! path /\
  files (FullSensor.convert3frToExr w input out st).2 !! path
  = files st !! path.
Proof.
  intros Hne. split;
    [by apply general_convert_frame | by apply full_convert_frame].
Qed.

Lemma general_process_files_frame (j : General.job) todo succ fail st path :
  (forall f, f ∈ todo -> path <> output_for (General.outputDir j) f) ->
  files (General.process_files w j todo succ fail st).2 !! path
  = files st !! path.
Proof.
  revert succ fail st. induction todo as [|f todo IH]; intros succ fail st Hne;
    [done|].
  simpl.
  pose proof (general_convert_frame f
                (General.outputDir j +:+ getBasename f +:+ ".exr")
                (General.useSRGB j) (General.exposure j) st path) as Hf.
  destruct (General.convert3frToExr w f _ _ _ st) as [[[|]|] st1];
    simpl in Hf; rewrite ?IH by (intros; apply Hne; by right);
    apply Hf, Hne; by left.
Qed.

Lemma full_process_files_frame (j : FullSensor.job) todo succ fail st path :
  (forall f, f ∈ todo -> path <> output_for (FullSensor.outputDir j) f) ->
  files (FullSensor.process_files w j todo succ fail st).2 !! path
  = files st !! path.
Proof.
  revert succ fail st. induction todo as [|f todo IH]; intros succ fail st Hne;
    [done|].
  simpl.
  pose proof (full_convert_frame f
                (FullSensor.outputDir j +:+ getBasename f +:+ ".exr")
                st path) as Hf.
  destruct (FullSensor.convert3frToExr w f _ st) as [[[|]|] st1];
    simpl in Hf; rewrite ?IH by (intros; apply Hne; by right);
    apply Hf, Hne; by left.
Qed.

(** X13.  The conversion loop of either program changes no file other
    than the output paths derived from its candidates. *)
Theorem batch_changes_only_candidate_outputs
    (gj : General.job) (fj : FullSensor.job) st path :
  (forall f, f ∈ General.threeFrFiles gj ->
             path <> output_for (General.outputDir gj) f) ->
  (forall f, f ∈ FullSensor.threeFrFiles fj ->
             path <> output_for (FullSensor.outputDir fj) f) ->
  files (General.process_files w gj (General.threeFrFiles gj) 0 0 st).2 !! path
  = files st !! path /\
  files (FullSensor.process_files w fj (FullSensor.threeFrFiles fj) 0 0 st).2
    !! path
  = files st !! path.
Proof.
  intros Hg Hf. split;
    [by apply general_process_files_frame | by apply full_process_files_frame].
Qed.

Lemma general_release input out useSRGB exposure st image :
  decodes w input image -> buffer_ok image ->
  releases_once (general_events_before_release w input out image) st
    (General.convert3frToExr w input out useSRGB exposure st).2.
Proof.
  intros (Ho & Hu & Hp & Hi) Hbuf.
  destruct (fill_pixels_total
              (general_pixel (libm_pow w) image useSRGB exposure)
              (img_height image) (img_width image)) as [px Hpx].
  { intros. by apply convert_pixel_total. }
  unfold releases_once, general_events_before_release,
    General.convert3frToExr, General.write_exr, General.caught.
  rewrite Ho, Hu, Hp, Hi, Hpx. simpl.
  split; [destruct (exr w out); simpl; by rewrite <- !app_assoc|].
  split; [set_solver|].
  destruct (exr w out); not_in_events.
Qed.

Lemma general_no_release input out useSRGB exposure st :
  decode_fails w input ->
  never_releases st (General.convert3frToExr w input out useSRGB exposure st).2.
Proof.
  unfold decode_fails, never_releases, General.convert3frToExr.
  intros Hfail. repeat case_decide; simpl.
  - exists [EvOpenFile input]. split; [done | not_in_events].
  - exists [EvOpenFile input; EvUnpack].
    split; [by rewrite <- !app_assoc | not_in_events].
  - exists ([EvOpenFile input; EvUnpack;
             EvSetSizes (force_full_sensor (rb_sizes (libraw w input)))]
            ++ General.params ++ [EvProcess]).
    split; [by rewrite <- !app_assoc | not_in_events].
  - destruct (rb_image _) eqn:Hi;
      [destruct Hfail as [?|[?|[?|?]]]; congruence|].
    exists ([EvOpenFile input; EvUnpack;
             EvSetSizes (force_full_sensor (rb_sizes (libraw w input)))]
            ++ General.params ++ [EvProcess; EvMakeMemImage]).
    split; [simpl; by rewrite <- !app_assoc | not_in_events].
Qed.

Lemma full_release input out st image :
  decodes w input image -> buffer_ok image ->
  releases_once (full_sensor_events_before_release w input out image) st
    (FullSensor.convert3frToExr w input out st).2.
Proof.
  intros (Ho & Hu & Hp & Hi) Hbuf.
  pose proof (fun Hc => fill_pixels_total _ (img_height image) (img_width image)
                (fun y x Hy Hx => full_sensor_pixel_total image y x Hbuf Hc Hy Hx))
    as Hfill.
  unfold general_read, general_max in Hfill.
  unfold releases_once, full_sensor_events_before_release, supported,
    FullSensor.convert3frToExr, FullSensor.write_exr, FullSensor.caught.
  rewrite Ho, Hu, Hp, Hi. simpl.
  destruct (decide (img_colors image = 3 /\ img_bits image = 16)) as [[Hc Hb]|H16].
  { destruct (Hfill Hc) as [px Hpx]. rewrite !decide_True in Hpx by done.
    rewrite Hpx, (decide_True (P := _ /\ _)) by auto.
    split; [destruct (exr w out); simpl; by rewrite <- !app_assoc|].
    split; [set_solver|]. destruct (exr w out); not_in_events. }
  destruct (decide (img_colors image = 3 /\ img_bits image = 8)) as [[Hc Hb]|H8].
  { destruct (Hfill Hc) as [px Hpx]. rewrite !decide_False in Hpx by lia.
    rewrite Hpx, (decide_True (P := _ /\ _)) by auto.
    split; [destruct (exr w out); simpl; by rewrite <- !app_assoc|].
    split; [set_solver|]. destruct (exr w out); not_in_events. }
  rewrite (decide_False (P := _ /\ (_ \/ _))) by (intros [? [?|?]]; auto).
  split; [destruct (exr w out); simpl; by rewrite <- !app_assoc|].
  split; [set_solver|]. destruct (exr w out); not_in_events.
Qed.

Lemma full_no_release input out st :
  decode_fails w input ->
  never_releases st (FullSensor.convert3frToExr w input out st).2.
Proof.
  unfold decode_fails, never_releases, FullSensor.convert3frToExr.
  intros Hfail. repeat case_decide; simpl.
  - exists [EvOpenFile input]. split; [done | not_in_events].
  - exists ([EvOpenFile input] ++ FullSensor.params
            ++ [EvSetSizes (FullSensor.use_full_sensor
                              (rb_sizes (libraw w input))); EvUnpack]).
    split; [by rewrite <- !app_assoc | not_in_events].
  - exists ([EvOpenFile input] ++ FullSensor.params
            ++ [EvSetSizes (FullSensor.use_full_sensor
                              (rb_sizes (libraw w input))); EvUnpack; EvProcess]).
    split; [by rewrite <- !app_assoc | not_in_events].
  - destruct (rb_image _) eqn:Hi;
      [destruct Hfail as [?|[?|[?|?]]]; congruence|].
    exists ([EvOpenFile input] ++ FullSensor.params
            ++ [EvSetSizes (FullSensor.use_full_sensor
                              (rb_sizes (libraw w input)));
                EvUnpack; EvProcess; EvMakeMemImage]).
    split; [simpl; by rewrite <- !app_assoc | not_in_events].
Qed.

(** X14.  In both programs every call of the converter that fetched a
    decoded buffer releases it exactly once, as its last action, whether the
    conversion succeeds, the format is rejected or OpenEXR throws; a call
    that fails before the fetch releases nothing. *)
Theorem buffer_released_exactly_once input out useSRGB exposure st :
  (forall image,
     decodes w input image -> buffer_ok image ->
     releases_once (general_events_before_release w input out image) st
       (General.convert3frToExr w input out useSRGB exposure st).2 /\
     releases_once (full_sensor_events_before_release w input out image) st
       (FullSensor.convert3frToExr w input out st).2) /\
  (decode_fails w input ->
     never_releases st
       (General.convert3frToExr w input out useSRGB exposure st).2 /\
     never_releases st (FullSensor.convert3frToExr w input out st).2).
Proof.
  split.
  - intros image Hd Hb. split; [by apply general_release | by apply full_release].
  - intros Hd. split; [by apply general_no_release | by apply full_no_release].
Qed.

End MoreConvertFacts.

(** ** What the converters write *)

Section WrittenPixels.
Context {fm : FloatModel}.

Lemma length_mapM {A B} (f : A -> option B) (l : list A) (k : list B) :
  mapM f l = Some k -> length k = length l.
Proof. intros H%mapM_Some. symmetry. by eapply Forall2_length. Qed.

Lemma fill_pixels_dims (px : Z -> Z -> option Rgba) h w pixels :
  fill_pixels px h w = Some pixels ->
  length pixels = Z.to_nat h /\
  Forall (fun row => length row = Z.to_nat w) pixels.
Proof.
  unfold fill_pixels. intros Hfill. split.
  - rewrite (length_mapM _ _ _ Hfill). apply length_seqZ.
  - apply mapM_Some in Hfill.
    apply Forall_forall. intros row Hrow.
    apply list_elem_of_lookup in Hrow as [i Hi].
    destruct (Forall2_lookup_r _ _ _ _ _ Hfill Hi) as (y & _ & Hy).
    rewrite (length_mapM _ _ _ Hy). apply length_seqZ.
Qed.

Lemma fill_pixels_ext (px px' : Z -> Z -> option Rgba) h w :
  (forall y x, px y x = px' y x) ->
  fill_pixels px h w = fill_pixels px' h w.
Proof.
  intros Hext. unfold fill_pixels.
  apply mapM_ext. intros y. apply mapM_ext. intros x. apply Hext.
Qed.

Lemma pixel_index_inv y x width colors idx :
  pixel_index y x width colors = Some idx ->
  idx = (y * width + x) * colors /\ INT_MIN <= idx <= INT_MAX.
Proof.
  unfold pixel_index.
  destruct (int (y * width)) as [row|] eqn:Hrow; simpl; [|done].
  destruct (int (row + x)) as [col|] eqn:Hcol; simpl; [|done].
  intros Hidx.
  apply int_inv in Hrow as [-> _]. apply int_inv in Hcol as [-> _].
  apply int_inv in Hidx as [-> ?]. done.
Qed.

Lemma pixel_from_rgb read channel alpha image y x p :
  3 <= img_colors image ->
  pixel_from read channel alpha image y x = Some p ->
  let idx := (y * img_width image + x) * img_colors image in
  exists s0 s1 s2,
    read (img_data image) idx = Some s0 /\
    read (img_data image) (idx + 1) = Some s1 /\
    read (img_data image) (idx + 2) = Some s2 /\
    p = {| r := channel s0; g := channel s1; b := channel s2; a := alpha |}.
Proof.
  intros Hc. unfold pixel_from.
  destruct (pixel_index _ _ _ _) as [idx|] eqn:Hidx; simpl; [|done].
  apply pixel_index_inv in Hidx as [-> _].
  rewrite decide_True by done.
  destruct (int (_ + 1)) as [i1|] eqn:H1; simpl; [|done].
  destruct (int (_ + 2)) as [i2|] eqn:H2; simpl; [|done].
  apply int_inv in H1 as [-> _]. apply int_inv in H2 as [-> _].
  set (idx := (y * img_width image + x) * img_colors image).
  destruct (read (img_data image) idx) as [s0|] eqn:Hs0; simpl; [|done].
  destruct (read (img_data image) (idx + 1)) as [s1|] eqn:Hs1; simpl; [|done].
  destruct (read (img_data image) (idx + 2)) as [s2|] eqn:Hs2; simpl; [|done].
  intros [= <-]. by exists s0, s1, s2.
Qed.

(** On a three-channel buffer the loop body of the full-sensor converter
    is the one of the general converter with linearisation off and a
    neutral exposure. *)
Lemma full_sensor_pixel_general powf image exposure y x :
  img_colors image = 3 ->
  feqb exposure (literal 1 1) = true ->
  full_sensor_pixel (general_read image) (general_max image) image y x
  = general_pixel powf image false exposure y x.
Proof.
  intros Hc He. rewrite general_pixel_eq.
  unfold full_sensor_pixel, convert_pixel, tonemap_stage, linearize_stage.
  rewrite Hc, He. simpl.
  destruct (pixel_index y x (img_width image) 3) as [idx|] eqn:Hidx;
    simpl; [|done].
  apply pixel_index_inv in Hidx as [_ Hidx].
  rewrite Z.add_0_r, (int_Some idx) by done. simpl.
  by rewrite ?decide_True by lia.
Qed.

Variable w : world.

(** X15.  When the general converter succeeds on a buffer with three or
    more channels, the pixel at (y, x) of the file it wrote holds the
    channel values of the three consecutive samples that start at index
    (y * width + x) * colors, in the order R, G, B, and alpha 1.0; samples
    of further channels are skipped. *)
Theorem rgb_pixels_hold_three_consecutive_samples
    input out useSRGB exposure st image :
  (General.convert3frToExr w input out useSRGB exposure st).1 = Some true ->
  rb_image (libraw w input) = Some image ->
  3 <= img_colors image ->
  exists pixels,
    files (General.convert3frToExr w input out useSRGB exposure st).2 !! out
    = Some (Complete pixels) /\
    forall y x,
      0 <= y < img_height image -> 0 <= x < img_width image ->
      let idx := (y * img_width image + x) * img_colors image in
      let channel s :=
        to_half (channel_value (libm_pow w) (general_max image)
                   useSRGB exposure s) in
      exists s0 s1 s2,
        general_read image (img_data image) idx = Some s0 /\
        general_read image (img_data image) (idx + 1) = Some s1 /\
        general_read image (img_data image) (idx + 2) = Some s2 /\
        pixel_at pixels y x
        = Some {| r := channel s0; g := channel s1; b := channel s2;
                  a := to_half (literal 1 1) |}.
Proof.
  intros Hok Himg Hc.
  destruct (general_convert_success _ _ _ _ _ _ Hok)
    as (image' & pixels & (_ & _ & _ & Himg') & _ & Hfill & Hfile).
  assert (image' = image) as -> by congruence.
  exists pixels. split; [done|]. intros y x Hy Hx.
  destruct (fill_pixels_lookup _ _ _ _ _ _ Hfill Hy Hx) as (p & Hp & Hat).
  rewrite general_pixel_from in Hp.
  destruct (pixel_from_rgb _ _ _ _ _ _ _ Hc Hp)
    as (s0 & s1 & s2 & H0 & H1 & H2 & ->).
  by exists s0, s1, s2.
Qed.

Lemma full_convert_success input out st :
  (FullSensor.convert3frToExr w input out st).1 = Some true ->
  exists image pixels,
    decodes w input image /\
    supported image /\
    exr w out = NoFault /\
    fill_pixels
      (full_sensor_pixel (general_read image) (general_max image) image)
      (img_height image) (img_width image) = Some pixels /\
    files (FullSensor.convert3frToExr w input out st).2 !! out
    = Some (Complete pixels).
Proof.
  unfold FullSensor.convert3frToExr, decodes.
  destruct (decide (rb_open _ <> _)) as [|Ho%dec_stable]; [done|].
  destruct (decide (rb_unpack _ <> _)) as [|Hu%dec_stable]; [done|].
  destruct (decide (rb_process _ <> _)) as [|Hp%dec_stable]; [done|].
  destruct (rb_image _) as [image|]; [|done].
  unfold FullSensor.write_exr, FullSensor.caught, supported,
    general_read, general_max.
  destruct (decide (exr w out = FaultCreate)); [done|].
  destruct (decide (exr w out = FaultAlloc)); [done|].
  destruct (decide (img_colors image = 3 /\ img_bits image = 16))
    as [[Hc Hb]|H16].
  - destruct (fill_pixels _ _ _) as [pixels|] eqn:Hfill; [|done].
    repeat case_decide; try done. intros _.
    exists image, pixels. rewrite !decide_True by done.
    repeat split; auto.
    + by destruct (exr w out).
    + simpl. by rewrite lookup_insert_eq.
  - destruct (decide (img_colors image = 3 /\ img_bits image = 8))
      as [[Hc Hb]|H8]; [|done].
    destruct (fill_pixels _ _ _) as [pixels|] eqn:Hfill; [|done].
    repeat case_decide; try done. intros _.
    exists image, pixels. rewrite !decide_False by lia.
    repeat split; auto.
    + by destruct (exr w out).
    + simpl. by rewrite lookup_insert_eq.
Qed.

(** X16.  The pixel array of a file either converter wrote completely has
    as many rows as the decoded buffer is high and every row is as long as
    the buffer is wide. *)
Theorem written_array_has_buffer_dimensions
    input out useSRGB exposure st image :
  rb_image (libraw w input) = Some image ->
  ((General.convert3frToExr w input out useSRGB exposure st).1 = Some true ->
   exists pixels,
     files (General.convert3frToExr w input out useSRGB exposure st).2 !! out
     = Some (Complete pixels) /\
     length pixels = Z.to_nat (img_height image) /\
     Forall (fun row => length row = Z.to_nat (img_width image)) pixels) /\
  ((FullSensor.convert3frToExr w input out st).1 = Some true ->
   exists pixels,
     files (FullSensor.convert3frToExr w input out st).2 !! out
     = Some (Complete pixels) /\
     length pixels = Z.to_nat (img_height image) /\
     Forall (fun row => length row = Z.to_nat (img_width image)) pixels).
Proof.
  intros Himg. split; intros Hok.
  - destruct (general_convert_success _ _ _ _ _ _ Hok)
      as (image' & pixels & (_ & _ & _ & Himg') & _ & Hfill & Hfile).
    assert (image' = image) as -> by congruence.
    exists pixels. split; [done|]. by eapply fill_pixels_dims.
  - destruct (full_convert_success _ _ _ Hok)
      as (image' & pixels & (_ & _ & _ & Himg') & _ & _ & Hfill & Hfile).
    assert (image' = image) as -> by congruence.
    exists pixels. split; [done|]. by eapply fill_pixels_dims.
Qed.

Lemma write_exr_agree image out exposure st :
  supported image ->
  feqb exposure (literal 1 1) = true ->
  FullSensor.write_exr w image out st
  = General.write_exr w image out false exposure st.
Proof.
  intros [Hc Hb] He.
  assert (Hfill :
    fill_pixels (full_sensor_pixel (general_read image) (general_max image) image)
      (img_height image) (img_width image)
    = fill_pixels (general_pixel (libm_pow w) image false exposure)
        (img_height image) (img_width image)).
  { apply fill_pixels_ext. intros y x. by apply full_sensor_pixel_general. }
  unfold general_read, general_max in Hfill.
  unfold FullSensor.write_exr, General.write_exr,
    FullSensor.caught, General.caught.
  destruct (decide (exr w out = FaultCreate)); [done|].
  destruct (decide (exr w out = FaultAlloc)); [done|].
  destruct Hb as [Hb|Hb].
  - rewrite !decide_True in Hfill by done.
    rewrite (decide_True (P := _ /\ _)) by done. by rewrite Hfill.
  - rewrite !decide_False in Hfill by lia.
    rewrite (decide_False (P := _ /\ img_bits image = 16)) by lia.
    rewrite (decide_True (P := _ /\ _)) by done. by rewrite Hfill.
Qed.

(** X17.  Handed the same decoded buffer of three channels of 16 or of 8
    bits, the encode stage of the full-sensor converter and that of the
    general converter, run with linearisation off and an exposure that
    compares equal to 1.0, return the same answer, leave the same files
    and make the same library calls.  What the decoder delivers for one
    input file under the different settings of the two programs is not
    compared. *)
Theorem encode_stages_agree_on_supported_buffers image out exposure st :
  supported image ->
  feqb exposure (literal 1 1) = true ->
  FullSensor.write_exr w image out st
  = General.write_exr w image out false exposure st.
Proof. apply write_exr_agree. Qed.

(** X18.  With buffers that hold their samples, the full-sensor converter
    reports success exactly when the decoder delivers a buffer of three
    channels of 16 or of 8 bits and OpenEXR does not throw. *)
Theorem full_sensor_success_characterised input out st :
  world_ok w ->
  (FullSensor.convert3frToExr w input out st).1 = Some true <->
  exists image,
    decodes w input image /\ supported image /\ exr w out = NoFault.
Proof.
  intros Hw. split.
  - intros Hok.
    destruct (full_convert_success _ _ _ Hok) as (image & ? & ? & ? & ? & _).
    by exists image.
  - intros (image & (Ho & Hu & Hp & Hi) & [Hc Hb] & Hfault).
    pose proof (Hw _ _ Hi) as Hbuf.
    destruct (fill_pixels_total _ (img_height image) (img_width image)
                (fun y x Hy Hx =>
                   full_sensor_pixel_total image y x Hbuf Hc Hy Hx))
      as [px Hpx].
    unfold general_read, general_max in Hpx.
    unfold FullSensor.convert3frToExr, FullSensor.write_exr.
    rewrite Ho, Hu, Hp, Hi, Hfault. simpl.
    destruct Hb as [Hb|Hb].
    + rewrite !decide_True in Hpx by done.
      rewrite (decide_True (P := _ /\ _)) by done. by rewrite Hpx.
    + rewrite !decide_False in Hpx by lia.
      rewrite (decide_False (P := _ /\ img_bits image = 16)) by lia.
      rewrite (decide_True (P := _ /\ _)) by done. by rewrite Hpx.
Qed.

End WrittenPixels.

(** ** A whole run *)

Section RunFacts.
Context {fm : FloatModel}.
Variable w : world.
Hypothesis Hok : world_ok w.

Lemma output_directory_slash (inputDir : string) :
  with_trailing_slash (inputDir +:+ "EXR") = Some (inputDir +:+ "EXR/").
Proof.
  unfold with_trailing_slash.
  change "EXR" with ("EX" +:+ String "R"%char "").
  rewrite <- append_assoc, back_append_cons. simpl.
  by rewrite !append_assoc.
Qed.











End RunFacts.

(** ** Sample ranges *)

Lemma byte_value_range (b : Byte.byte) : 0 <= byte_value b <= 255.
Proof. unfold byte_value. pose proof (Byte.to_N_bounded b). lia. Qed.

Lemma read_u8_range data i s : read_u8 data i = Some s -> 0 <= s <= 255.
Proof.
  unfold read_u8. case_decide; [|done].
  destruct (data !! Z.to_nat i) as [b|]; [|done].
  intros [= <-]. apply byte_value_range.
Qed.

Lemma read_u16_range data i s : read_u16 data i = Some s -> 0 <= s <= 65535.
Proof.
  unfold read_u16.
  destruct (read_u8 data (2 * i)) as [lo|] eqn:Hlo; simpl; [|done].
  destruct (read_u8 data (2 * i + 1)) as [hi|] eqn:Hhi; simpl; [|done].
  apply read_u8_range in Hlo, Hhi. intros [= <-]. lia.
Qed.

Lemma general_read_range image data i s :
  general_read image data i = Some s -> 0 <= s <= general_max image.
Proof.
  unfold general_read, general_max. case_decide.
  - apply read_u16_range.
  - apply read_u8_range.
Qed.

(** ** Clamping in single precision *)

Section SingleClamp.
#[local] Existing Instance Binary32.model.
Variable powf : float -> float -> float.

Lemma ltb_leb (a b : spec_float) : SFltb a b = true -> SFleb a b = true.
Proof. unfold SFltb, SFleb. by destruct (SFcompare a b) as [[]|]. Qed.

Lemma clamp01_single_cases (x : float) :
  (clamp01 x = x /\ fltb (literal 0 1) x = true /\ fltb x (literal 1 1) = true)
  \/ (clamp01 x = literal 0 1 /\ fltb (literal 0 1) x = false /\
      fltb x (literal 1 1) = true)
  \/ (clamp01 x = literal 1 1 /\ fltb x (literal 1 1) = false).
Proof.
  unfold clamp01, fmax, fmin.
  destruct (fltb x (literal 1 1)) eqn:H1.
  - destruct (fltb (literal 0 1) x) eqn:H0; auto.
  - right. right. split; reflexivity.
Qed.

(** X21.  In single precision the clamp [max(0, min(1, x))] yields a value
    between 0 and 1 for every input, infinities and NaN included: an input
    strictly between 0 and 1 is returned unchanged, an input that does not
    compare below 1 -- NaN among them -- becomes 1, and every other input,
    the negative zero included, becomes +0. *)
Theorem clamp01_single_range (x : float) :
  fleb (literal 0 1) (clamp01 x) = true /\
  fleb (clamp01 x) (literal 1 1) = true /\
  (fltb (literal 0 1) x = true -> fltb x (literal 1 1) = true ->
     clamp01 x = x) /\
  (fltb x (literal 1 1) = false -> clamp01 x = literal 1 1) /\
  (fltb (literal 0 1) x = false -> fltb x (literal 1 1) = true ->
     clamp01 x = S754_zero false).
Proof.
  destruct (clamp01_single_cases x)
    as [(-> & H0 & H1)|[(-> & H0 & H1)|(-> & H1)]].
  - repeat split; try congruence; by apply ltb_leb.
  - repeat split; try congruence.
  - repeat split; try congruence.
Qed.

(** X22.  In single precision, whatever [std::pow] computes, the inverse
    sRGB curve saturates: every input that does not compare below 1 (NaN
    included) is mapped to the value at 1, and every input that does not
    compare above 0 but below 1 -- negative numbers, minus infinity, either
    zero -- is mapped to +0. *)
Theorem srgb_inverse_saturates (x : float) :
  (fltb x (literal 1 1) = false ->
     applySRGBInverse powf x = applySRGBInverse powf (literal 1 1)) /\
  (fltb (literal 0 1) x = false -> fltb x (literal 1 1) = true ->
     applySRGBInverse powf x = S754_zero false).
Proof.
  unfold applySRGBInverse.
  destruct (clamp01_single_cases x)
    as [(_ & H0 & H1)|[(-> & H0 & H1)|(-> & H1)]].
  - split; congruence.
  - split; [congruence | reflexivity].
  - split; [reflexivity | congruence].
Qed.

End SingleClamp.

(** ** Directories that cannot be used *)

Section DirectoryFacts.
Context {fm : FloatModel}.
Variable w : world.

(** X24.  With an input directory that exists, [main] of either program
    returns 1 without opening a raw file or touching an EXR file when the
    EXR directory neither exists nor can be created, or when the input
    directory cannot be read; at most the directory EXR has been created
    by then. *)
Theorem unusable_directories_fail_fast (prog dir : string) args inputDir
    useSRGB exposure st :
  General.parse_args w args true (literal 1 1)
    = General.Options useSRGB exposure ->
  with_trailing_slash dir = Some inputDir ->
  directoryExists w inputDir = true ->
  directory_unusable w inputDir ->
  forall res,
    res = General.main w (prog :: dir :: args) st \/
    res = FullSensor.main w [prog; dir] st ->
    res.1 = Exit 1 /\
    (res.2 = st \/ res.2 = emit (EvMkdir (inputDir +:+ "EXR")) st).
Proof.
  intros Hargs Hin Hdir Hbad res Hres.
  unfold General.main, General.prepare, FullSensor.main, FullSensor.prepare,
    createDirectory in Hres.
  change (drop 2 (prog :: dir :: args)) with args in Hres.
  cbn [length Nat.ltb Nat.leb Nat.eqb lookup list_lookup negb] in Hres.
  rewrite Hargs, Hin, Hdir in Hres. cbn [negb] in Hres.
  destruct Hbad as [[Hex Hmk]|Hents].
  - rewrite Hex, Hmk in Hres. destruct Hres as [->| ->]; auto.
  - rewrite Hents, output_directory_slash in Hres.
    destruct (directoryExists w (inputDir +:+ "EXR")),
      (mkdir_ok w (inputDir +:+ "EXR"));
      destruct Hres as [->| ->]; auto.
Qed.

End DirectoryFacts.

(** ** The properties above on the sample directory *)

Section SinglePrecisionFurther.
#[local] Existing Instance Binary32.model.

Example full_sensor_prepare_shots :
  (FullSensor.prepare (Samples.shots NoFault) ["prog"; "shots"] empty_state).1
  = FullSensor.Ready Samples.full_job.
Proof. reflexivity. Qed.

Lemma parse_args_without_exposure_witness :
  General.parse_args (Samples.shots NoFault) ["--verbose"; "--linear"]
    true (literal 1 1)
  = General.Options
      (true && negb (bool_decide ("--linear" ∈ ["--verbose"; "--linear"])))
      (literal 1 1).
Proof.
  apply (parse_args_without_exposure (Samples.shots NoFault)
           ["--verbose"; "--linear"] true (literal 1 1)).
  not_in_list.
Defined.

Lemma later_options_override_witness :
  General.parse_args (Samples.shots NoFault)
    (["--exposure"; "2"] ++ ["--linear"]) true (literal 1 1)
  = General.Options false (literal 2 1) /\
  forall value x,
    stof (Samples.shots NoFault) value = Some x ->
    General.parse_args (Samples.shots NoFault)
      (["--exposure"; "2"] ++ ["--exposure"; value]) true (literal 1 1)
    = General.Options true x.
Proof.
  apply (later_options_override (Samples.shots NoFault)
           ["--exposure"; "2"] true true (literal 1 1) (literal 2 1)).
  reflexivity.
Defined.

Lemma missing_input_directory_fails_fast_witness :
  General.main (Samples.shots NoFault) ["prog"; "nowhere"] empty_state
  = (Exit 1, empty_state) /\
  FullSensor.main (Samples.shots NoFault) ["prog"; "nowhere"] empty_state
  = (Exit 1, empty_state).
Proof.
  apply (missing_input_directory_fails_fast (Samples.shots NoFault)
           "prog" "nowhere" "nowhere/" empty_state); reflexivity.
Defined.

Lemma full_sensor_exit_status_witness :
  1 <> 0 <->
  full_sensor_stopped_early (Samples.shots NoFault) ["prog"; "shots"] empty_state
  \/ a_full_sensor_conversion_failed (Samples.shots NoFault)
       ["prog"; "shots"] empty_state.
Proof.
  apply (full_sensor_exit_status (Samples.shots NoFault)
           ["prog"; "shots"] empty_state 1).
  - apply shots_ok.
  - intros j. rewrite full_sensor_prepare_shots. intros [= <-].
    vm_compute. discriminate.
  - reflexivity.
Defined.

Lemma convert_changes_only_its_output_witness :
  files (General.convert3frToExr (Samples.shots NoFault) "shots/a.3fr"
           "shots/EXR/a.exr" true (literal 1 1) empty_state).2
    !! "shots/EXR/G.exr"
  = files empty_state !! "shots/EXR/G.exr" /\
  files (FullSensor.convert3frToExr (Samples.shots NoFault) "shots/a.3fr"
           "shots/EXR/a.exr" empty_state).2
    !! "shots/EXR/G.exr"
  = files empty_state !! "shots/EXR/G.exr".
Proof.
  apply (convert_changes_only_its_output (Samples.shots NoFault)
           "shots/a.3fr" "shots/EXR/a.exr" true (literal 1 1) empty_state
           "shots/EXR/G.exr").
  discriminate.
Defined.

Lemma batch_changes_only_candidate_outputs_witness :
  files (General.process_files (Samples.shots NoFault) Samples.job
           (General.threeFrFiles Samples.job) 0 0 empty_state).2
    !! "shots/EXR/notes.exr"
  = files empty_state !! "shots/EXR/notes.exr" /\
  files (FullSensor.process_files (Samples.shots NoFault) Samples.full_job
           (FullSensor.threeFrFiles Samples.full_job) 0 0 empty_state).2
    !! "shots/EXR/notes.exr"
  = files empty_state !! "shots/EXR/notes.exr".
Proof.
  apply (batch_changes_only_candidate_outputs (Samples.shots NoFault)
           Samples.job Samples.full_job empty_state "shots/EXR/notes.exr").
  - intros f Hf.
    repeat (apply elem_of_cons in Hf as [->|Hf]; [vm_compute; discriminate|]).
    by apply elem_of_nil in Hf.
  - intros f Hf.
    repeat (apply elem_of_cons in Hf as [->|Hf]; [vm_compute; discriminate|]).
    by apply elem_of_nil in Hf.
Defined.

Lemma rgb_pixels_hold_three_consecutive_samples_witness :
  exists pixels,
    files (General.convert3frToExr (Samples.shots NoFault) "shots/a.3fr"
             "shots/EXR/a.exr" false (literal 1 1) empty_state).2
      !! "shots/EXR/a.exr"
    = Some (Complete pixels) /\
    pixel_at pixels 0 1
    = Some {| r := to_half (fdiv (of_int 1280) (literal 65535 1));
              g := to_half (fdiv (of_int 2048) (literal 65535 1));
              b := to_half (fdiv (of_int 2560) (literal 65535 1));
              a := to_half (literal 1 1) |}.
Proof.
  destruct (rgb_pixels_hold_three_consecutive_samples
              (Samples.shots NoFault) "shots/a.3fr" "shots/EXR/a.exr"
              false (literal 1 1) empty_state Samples.rgb16)
    as (pixels & Hfile & Hpx); [reflexivity | reflexivity | simpl; lia |].
  exists pixels. split; [exact Hfile|].
  destruct (Hpx 0 1) as (s0 & s1 & s2 & H0 & H1 & H2 & Hat);
    [simpl; lia | simpl; lia |].
  vm_compute in H0. injection H0 as <-.
  vm_compute in H1. injection H1 as <-.
  vm_compute in H2. injection H2 as <-.
  exact Hat.
Defined.

Lemma written_array_has_buffer_dimensions_witness :
  exists pixels,
    files (General.convert3frToExr (Samples.shots NoFault) "shots/G.3FR"
             "shots/EXR/G.exr" true (literal 1 1) empty_state).2
      !! "shots/EXR/G.exr"
    = Some (Complete pixels) /\
    length pixels = 2%nat /\
    Forall (fun row => length row = 2%nat) pixels.
Proof.
  destruct (written_array_has_buffer_dimensions
              (Samples.shots NoFault) "shots/G.3FR" "shots/EXR/G.exr"
              true (literal 1 1) empty_state Samples.gray8)
    as [Hgeneral _]; [reflexivity|].
  apply Hgeneral. reflexivity.
Defined.

Lemma encode_stages_agree_on_supported_buffers_witness :
  FullSensor.write_exr (Samples.shots NoFault) Samples.rgb16
    "shots/EXR/a.exr" empty_state
  = General.write_exr (Samples.shots NoFault) Samples.rgb16
      "shots/EXR/a.exr" false (literal 1 1) empty_state.
Proof.
  apply (encode_stages_agree_on_supported_buffers (Samples.shots NoFault)
           Samples.rgb16 "shots/EXR/a.exr" (literal 1 1) empty_state).
  - split; [reflexivity | left; reflexivity].
  - reflexivity.
Defined.

Lemma full_sensor_success_characterised_witness :
  (FullSensor.convert3frToExr (Samples.shots NoFault) "shots/a.3fr"
     "shots/EXR/a.exr" empty_state).1 = Some true <->
  exists image,
    decodes (Samples.shots NoFault) "shots/a.3fr" image /\
    supported image /\
    exr (Samples.shots NoFault) "shots/EXR/a.exr" = NoFault.
Proof.
  apply (full_sensor_success_characterised (Samples.shots NoFault)
           "shots/a.3fr" "shots/EXR/a.exr" empty_state).
  apply shots_ok.
Defined.


Lemma unusable_directories_fail_fast_witness :
  (General.main read_only_shots ("prog" :: "shots" :: ["--linear"])
     empty_state).1 = Exit 1 /\
  ((General.main read_only_shots ("prog" :: "shots" :: ["--linear"])
      empty_state).2 = empty_state \/
   (General.main read_only_shots ("prog" :: "shots" :: ["--linear"])
      empty_state).2 = emit (EvMkdir ("shots/" +:+ "EXR")) empty_state).
Proof.
  apply (unusable_directories_fail_fast read_only_shots
           "prog" "shots" ["--linear"] "shots/" false (literal 1 1)
           empty_state); try reflexivity.
  - left. split; reflexivity.
  - left. reflexivity.
Defined.

End SinglePrecisionFurther.

(** ** The written pixels against the specification *)

Section SpecFacts.
Context {fm : FloatModel}.
Variable powf : float -> float -> float.

Lemma channel_value_spec maxv useSRGB exposure s :
  channel_value powf maxv useSRGB exposure s
  = Spec.channel powf maxv useSRGB exposure s.
Proof.
  unfold channel_value, Spec.channel, tonemap_stage, linearize_stage.
  destruct (feqb exposure (literal 1 1)), useSRGB; reflexivity.
Qed.

Lemma pixel_index_value y x width colors idx :
  pixel_index y x width colors = Some idx -> idx = (y * width + x) * colors.
Proof.
  unfold pixel_index.
  destruct (int (y * width)) as [row|] eqn:Hrow; simpl; [|done].
  destruct (int (row + x)) as [col|] eqn:Hcol; simpl; [|done].
  intros Hidx.
  apply int_inv in Hrow as [-> _]. apply int_inv in Hcol as [-> _].
  by apply int_inv in Hidx as [-> _].
Qed.

Lemma pixel_from_holds read channel alpha image y x p :
  pixel_from read channel alpha image y x = Some p ->
  Spec.holds_samples read channel alpha image y x p.
Proof.
  unfold pixel_from, Spec.holds_samples.
  destruct (pixel_index _ _ _ _) as [idx|] eqn:Hidx; simpl; [|done].
  apply pixel_index_value in Hidx as ->.
  set (idx := (y * img_width image + x) * img_colors image).
  case_decide.
  - destruct (int (idx + 1)) as [i1|] eqn:H1; simpl; [|done].
    destruct (int (idx + 2)) as [i2|] eqn:H2; simpl; [|done].
    apply int_inv in H1 as [-> _]. apply int_inv in H2 as [-> _].
    destruct (read (img_data image) idx) as [s0|]; simpl; [|done].
    destruct (read (img_data image) (idx + 1)) as [s1|]; simpl; [|done].
    destruct (read (img_data image) (idx + 2)) as [s2|]; simpl; [|done].
    intros [= <-]. by exists s0, s1, s2.
  - destruct (read (img_data image) idx) as [s|]; simpl; [|done].
    intros [= <-]. by exists s.
Qed.

(** Every pixel the general converter computes holds, in the words of the
    specification, the channel values of its samples. *)
Lemma general_pixel_spec image useSRGB exposure y x p :
  general_pixel powf image useSRGB exposure y x = Some p ->
  Spec.holds_samples (general_read image)
    (fun s => to_half (Spec.channel powf (general_max image)
                         useSRGB exposure s))
    (to_half (literal 1 1)) image y x p.
Proof.
  rewrite general_pixel_from. intros Hp.
  apply pixel_from_holds.
  rewrite <- Hp. apply pixel_from_ext. intros s.
  by rewrite channel_value_spec.
Qed.

End SpecFacts.

Section SpecConvertFacts.
Context {fm : FloatModel}.
Variable w : world.

Lemma general_written_pixels input out useSRGB exposure st image :
  (General.convert3frToExr w input out useSRGB exposure st).1 = Some true ->
  rb_image (libraw w input) = Some image ->
  exists pixels,
    files (General.convert3frToExr w input out useSRGB exposure st).2 !! out
    = Some (Complete pixels) /\
    forall y x,
      0 <= y < img_height image -> 0 <= x < img_width image ->
      exists p,
        pixel_at pixels y x = Some p /\
        Spec.holds_samples (general_read image)
          (fun s => to_half (Spec.channel (libm_pow w) (general_max image)
                               useSRGB exposure s))
          (to_half (literal 1 1)) image y x p.
Proof.
  intros Hok Himg.
  destruct (general_convert_success _ _ _ _ _ _ Hok)
    as (image' & pixels & (_ & _ & _ & Himg') & _ & Hfill & Hfile).
  assert (image' = image) as -> by congruence.
  exists pixels. split; [done|]. intros y x Hy Hx.
  destruct (fill_pixels_lookup _ _ _ _ _ _ Hfill Hy Hx) as (p & Hp & Hat).
  exists p. split; [done|]. by apply general_pixel_spec.
Qed.

(** C7.  When the general converter succeeds on a buffer with fewer than
    three channels, every pixel of the file it wrote has R = G = B equal
    to the [half] of the channel value the specification prescribes for
    the single sample of that pixel -- the sample at index
    (y * width + x) * colors, divided by 65535 or 255, linearised when
    linearisation is on and compressed when the exposure differs from
    1.0 -- and alpha 1.0. *)
Theorem grayscale_pixels_are_replicated
    input out useSRGB exposure st image :
  (General.convert3frToExr w input out useSRGB exposure st).1 = Some true ->
  rb_image (libraw w input) = Some image ->
  img_colors image < 3 ->
  exists pixels,
    files (General.convert3frToExr w input out useSRGB exposure st).2 !! out
    = Some (Complete pixels) /\
    forall y x,
      0 <= y < img_height image -> 0 <= x < img_width image ->
      exists sample,
        general_read image (img_data image)
          ((y * img_width image + x) * img_colors image) = Some sample /\
        let gray :=
          to_half (Spec.channel (libm_pow w) (general_max image)
                     useSRGB exposure sample) in
        pixel_at pixels y x
        = Some {| r := gray; g := gray; b := gray;
                  a := to_half (literal 1 1) |}.
Proof.
  intros Hok Himg Hc.
  destruct (general_written_pixels _ _ _ _ _ _ Hok Himg)
    as (pixels & Hfile & Hpx).
  exists pixels. split; [done|]. intros y x Hy Hx.
  destruct (Hpx y x Hy Hx) as (p & Hat & Hp).
  unfold Spec.holds_samples in Hp. rewrite decide_False in Hp by lia.
  destruct Hp as (s & Hs & ->). by exists s.
Qed.

(** C10.  Once the decoder has delivered a buffer, the general converter
    fails only if OpenEXR throws.  A buffer whose bit depth is not 16 is
    converted by the 8 bit loop, whatever its channel count: the
    conversion succeeds and every pixel of the file written holds the
    channel values of its one-byte samples divided by 255.  The
    full-sensor converter returns failure for every buffer that is neither
    3-channel 16 bit nor 3-channel 8 bit. *)
Theorem general_has_no_unsupported_format_branch
    input out useSRGB exposure st image :
  decodes w input image ->
  (img_bits image <> 16 -> buffer_ok image -> exr w out = NoFault ->
     (General.convert3frToExr w input out useSRGB exposure st).1 = Some true /\
     exists pixels,
       files (General.convert3frToExr w input out useSRGB exposure st).2 !! out
       = Some (Complete pixels) /\
       forall y x,
         0 <= y < img_height image -> 0 <= x < img_width image ->
         exists p,
           pixel_at pixels y x = Some p /\
           Spec.holds_samples read_u8
             (fun s => to_half (Spec.channel (libm_pow w) 255
                                  useSRGB exposure s))
             (to_half (literal 1 1)) image y x p) /\
  (buffer_ok image -> exr w out = NoFault ->
     (General.convert3frToExr w input out useSRGB exposure st).1 = Some true) /\
  ((General.convert3frToExr w input out useSRGB exposure st).1 = Some false ->
     exr w out <> NoFault) /\
  (~ (img_colors image = 3 /\ img_bits image = 16) ->
   ~ (img_colors image = 3 /\ img_bits image = 8) ->
     (FullSensor.convert3frToExr w input out st).1 = Some false).
Proof.
  intros (Ho & Hu & Hp & Hi).
  assert (Hsucc : buffer_ok image -> exr w out = NoFault ->
    (General.convert3frToExr w input out useSRGB exposure st).1 = Some true).
  { intros Hbuf Hfault.
    destruct (fill_pixels_total
                (general_pixel (libm_pow w) image useSRGB exposure)
                (img_height image) (img_width image)) as [px Hpx].
    { intros. by apply convert_pixel_total. }
    unfold General.convert3frToExr, General.write_exr.
    by rewrite Ho, Hu, Hp, Hi, Hpx, Hfault. }
  repeat split.
  - by apply Hsucc.
  - destruct (general_written_pixels _ _ _ _ _ _ (Hsucc H0 H1) Hi)
      as (pixels & Hfile & Hpx).
    exists pixels. split; [done|]. intros y x Hy Hx.
    destruct (Hpx y x Hy Hx) as (p & Hat & Hsp).
    exists p. split; [done|].
    unfold general_read, general_max in Hsp.
    by rewrite !decide_False in Hsp by done.
  - done.
  - unfold General.convert3frToExr, General.write_exr, General.caught.
    rewrite Ho, Hu, Hp, Hi. simpl. intros Hres Hfault.
    rewrite Hfault in Hres. simpl in Hres. by case_match.
  - intros H16 H8.
    unfold FullSensor.convert3frToExr, FullSensor.write_exr, FullSensor.caught.
    rewrite Ho, Hu, Hp, Hi. simpl.
    rewrite (decide_False (P := _ /\ img_bits image = 16)) by done.
    rewrite (decide_False (P := _ /\ img_bits image = 8)) by done.
    by repeat case_decide.
Qed.

End SpecConvertFacts.

Section SinglePrecisionSpec.
#[local] Existing Instance Binary32.model.

Lemma grayscale_pixels_are_replicated_witness :
  exists pixels,
    files (General.convert3frToExr (Samples.shots NoFault) "shots/G.3FR"
             "shots/EXR/G.exr" true (literal 2 1) empty_state).2
      !! "shots/EXR/G.exr"
    = Some (Complete pixels) /\
    let linear := fdiv (fdiv (of_int 10) (literal 255 1)) (literal 1292 100) in
    let scaled := fmul linear (literal 2 1) in
    let gray := to_half (fdiv scaled (fadd (literal 1 1) scaled)) in
    pixel_at pixels 1 0
    = Some {| r := gray; g := gray; b := gray; a := to_half (literal 1 1) |}.
Proof.
  destruct (grayscale_pixels_are_replicated
              (Samples.shots NoFault) "shots/G.3FR" "shots/EXR/G.exr"
              true (literal 2 1) empty_state Samples.gray8)
    as (pixels & Hfile & Hpx); [reflexivity | reflexivity | simpl; lia |].
  exists pixels. split; [exact Hfile|].
  destruct (Hpx 1 0) as (s & Hs & Hat); [simpl; lia | simpl; lia |].
  vm_compute in Hs. injection Hs as <-.
  exact Hat.
Defined.

Lemma general_has_no_unsupported_format_branch_witness :
  ((General.convert3frToExr (Samples.shots NoFault) "shots/four.3fr"
      "shots/EXR/four.exr" true (literal 2 1) empty_state).1 = Some true /\
   exists pixels,
     files (General.convert3frToExr (Samples.shots NoFault) "shots/four.3fr"
              "shots/EXR/four.exr" true (literal 2 1) empty_state).2
       !! "shots/EXR/four.exr"
     = Some (Complete pixels) /\
     exists p,
       pixel_at pixels 0 0 = Some p /\
       Spec.holds_samples read_u8
         (fun s => to_half (Spec.channel (libm_pow (Samples.shots NoFault)) 255
                              true (literal 2 1) s))
         (to_half (literal 1 1)) Samples.four8 0 0 p) /\
  (FullSensor.convert3frToExr (Samples.shots NoFault) "shots/four.3fr"
     "shots/EXR/four.exr" empty_state).1 = Some false.
Proof.
  destruct (general_has_no_unsupported_format_branch
              (Samples.shots NoFault) "shots/four.3fr" "shots/EXR/four.exr"
              true (literal 2 1) empty_state Samples.four8)
    as (Hloop & _ & _ & Hfull); [repeat split; reflexivity|].
  split.
  - destruct Hloop as (Hres & pixels & Hfile & Hpx).
    + simpl. lia.
    + apply (shots_ok NoFault "shots/four.3fr"). reflexivity.
    + reflexivity.
    + split; [exact Hres|]. exists pixels. split; [exact Hfile|].
      apply (Hpx 0 0); simpl; lia.
  - apply Hfull; simpl; intros [? ?]; discriminate.
Defined.

End SinglePrecisionSpec.

(** * Single precision arithmetic *)

Local Open Scope Z_scope.

(** ** Digits *)

Lemma fexp32_spec e : fexp32 e = Z.max (e - 24) (-149).
Proof. reflexivity. Qed.

Lemma digits2_size p : digits2_pos p = Pos.size p.
Proof. induction p; simpl; congruence. Qed.

Lemma Zdigits2_log2 m : 0 < m -> Zdigits2 m = Z.log2 m + 1.
Proof.
  destruct m as [|p|p]; try lia. intros _. simpl. rewrite digits2_size.
  destruct p; simpl; lia.
Qed.

Lemma Zdigits2_bounds m :
  0 < m -> 2 ^ (Zdigits2 m - 1) <= m < 2 ^ Zdigits2 m.
Proof.
  intros Hm. rewrite Zdigits2_log2 by done.
  replace (Z.log2 m + 1 - 1) with (Z.log2 m) by lia.
  apply Z.log2_spec. done.
Qed.

Lemma Zdigits2_unique m d :
  1 <= d -> 2 ^ (d - 1) <= m < 2 ^ d -> Zdigits2 m = d.
Proof.
  intros Hd Hm.
  assert (0 < m) by (pose proof (Z.pow_pos_nonneg 2 (d - 1) ltac:(lia) ltac:(lia)); lia).
  rewrite Zdigits2_log2 by done.
  rewrite (Z.log2_unique m (d - 1)); [lia | lia |].
  by replace (Z.succ (d - 1)) with d by lia.
Qed.

Lemma Zdigits2_nonneg m : 0 <= Zdigits2 m.
Proof. by destruct m. Qed.

Lemma Zdigits2_pos m : 0 < m -> 1 <= Zdigits2 m.
Proof. destruct m; simpl; lia. Qed.

Lemma Zdigits2_le m d : 0 <= d -> 0 <= m < 2 ^ d -> Zdigits2 m <= d.
Proof.
  intros Hd [H0 Hm]. destruct (decide (m = 0)) as [->|]; [done|].
  rewrite Zdigits2_log2 by lia.
  assert (Z.log2 m < d) by (apply Z.log2_lt_pow2; lia). lia.
Qed.

Lemma Zdigits2_ge m d : 1 <= d -> 2 ^ (d - 1) <= m -> d <= Zdigits2 m.
Proof.
  intros Hd Hm.
  assert (0 < m) by (pose proof (Z.pow_pos_nonneg 2 (d - 1) ltac:(lia) ltac:(lia)); lia).
  rewrite Zdigits2_log2 by lia.
  assert (d - 1 <= Z.log2 m) by (apply Z.log2_le_pow2; lia). lia.
Qed.

(** ** Shifts *)

Lemma iter_pos_nat {A} (f : A -> A) p x :
  SpecFloat.iter_pos f p x = Nat.iter (Pos.to_nat p) f x.
Proof.
  revert x. induction p as [p IH|p IH|]; intros x.
  - change (SpecFloat.iter_pos f p~1 x)
      with (SpecFloat.iter_pos f p (SpecFloat.iter_pos f p (f x))).
    rewrite !IH, Pos2Nat.inj_xI, <- Nat.iter_succ_r, <- Nat.iter_add.
    f_equal. lia.
  - change (SpecFloat.iter_pos f p~0 x)
      with (SpecFloat.iter_pos f p (SpecFloat.iter_pos f p x)).
    rewrite !IH, Pos2Nat.inj_xO, <- Nat.iter_add. f_equal. lia.
  - done.
Qed.

Lemma shr_1_spec mrs :
  0 <= shr_m mrs ->
  shr_1 mrs = {| shr_m := shr_m mrs / 2;
                 shr_r := Z.odd (shr_m mrs);
                 shr_s := shr_r mrs || shr_s mrs |}.
Proof.
  destruct mrs as [m r s]. simpl. intros Hm.
  rewrite <- Z.div2_div.
  destruct m as [|[p|p|]|]; try done; lia.
Qed.

Lemma shr_iter_m n mrs :
  0 <= shr_m mrs ->
  shr_m (Nat.iter n shr_1 mrs) = shr_m mrs / 2 ^ Z.of_nat n.
Proof.
  intros Hm. induction n as [|n IH].
  - simpl. by rewrite Z.div_1_r.
  - rewrite Nat2Z.inj_succ, Z.pow_succ_r by lia. simpl.
    rewrite shr_1_spec by (rewrite IH; apply Z.div_pos; lia).
    simpl. rewrite IH, Z.div_div by lia. f_equal. lia.
Qed.

Lemma shr_iter_exact n m :
  0 <= m -> m mod 2 ^ Z.of_nat n = 0 ->
  Nat.iter n shr_1 {| shr_m := m; shr_r := false; shr_s := false |}
  = {| shr_m := m / 2 ^ Z.of_nat n; shr_r := false; shr_s := false |}.
Proof.
  intros Hm. induction n as [|n IH]; intros Hmod.
  - simpl. by rewrite Z.div_1_r.
  - rewrite Nat2Z.inj_succ, Z.pow_succ_r in * by lia.
    assert (Hp : 0 < 2 ^ Z.of_nat n) by (apply Z.pow_pos_nonneg; lia).
    assert (Hq : m = 2 * 2 ^ Z.of_nat n * (m / (2 * 2 ^ Z.of_nat n)))
      by (apply Z.div_exact; lia).
    set (q := m / (2 * 2 ^ Z.of_nat n)) in *.
    assert (Hdiv : m / 2 ^ Z.of_nat n = 2 * q).
    { rewrite Hq. replace (2 * 2 ^ Z.of_nat n * q) with (2 * q * 2 ^ Z.of_nat n)
        by lia. apply Z.div_mul. lia. }
    simpl. rewrite IH.
    + rewrite shr_1_spec by (simpl; rewrite Hdiv; lia). simpl.
      rewrite Hdiv. f_equal.
      * rewrite Z.mul_comm. apply Z.div_mul. lia.
      * by rewrite Z.odd_mul.
    + rewrite Hq. replace (2 * 2 ^ Z.of_nat n * q) with (2 * q * 2 ^ Z.of_nat n)
        by lia. apply Z.mod_mul. lia.
Qed.

Lemma shr_spec mrs e n :
  0 <= shr_m mrs -> 0 <= n ->
  exists mrs',
    shr mrs e n = (mrs', e + n) /\ shr_m mrs' = shr_m mrs / 2 ^ n /\
    (shr_r mrs = false -> shr_s mrs = false -> shr_m mrs mod 2 ^ n = 0 ->
     loc_of_shr_record mrs' = loc_Exact).
Proof.
  intros Hm Hn. destruct n as [|p|p]; [| |lia].
  - exists mrs. rewrite Z.add_0_r, Z.div_1_r. repeat split.
    intros Hr Hs _. destruct mrs as [m r s]. simpl in *. by subst.
  - unfold shr. rewrite iter_pos_nat.
    eexists. split; [done|].
    rewrite shr_iter_m, positive_nat_Z by done. split; [done|].
    intros Hr Hs Hmod. destruct mrs as [m r s]. simpl in *. subst.
    rewrite shr_iter_exact by (rewrite ?positive_nat_Z; done). done.
Qed.

Lemma shr_fexp_spec m e l :
  0 <= m -> e <= fexp32 (Zdigits2 m + e) ->
  exists mrs,
    shr_fexp Binary32.prec Binary32.emax m e l
    = (mrs, fexp32 (Zdigits2 m + e)) /\
    shr_m mrs = m / 2 ^ (fexp32 (Zdigits2 m + e) - e) /\
    (l = loc_Exact -> m mod 2 ^ (fexp32 (Zdigits2 m + e) - e) = 0 ->
     loc_of_shr_record mrs = loc_Exact).
Proof.
  intros Hm He. unfold shr_fexp. fold (fexp32 (Zdigits2 m + e)).
  set (t := fexp32 (Zdigits2 m + e)) in *.
  destruct (shr_spec (shr_record_of_loc m l) e (t - e)) as (mrs & Hs & Hv & Hx).
  { by destruct l as [|[]]. }
  { lia. }
  exists mrs. replace (e + (t - e)) with t in Hs by lia.
  split; [done|]. split.
  - rewrite Hv. by destruct l as [|[]].
  - intros -> Hmod. apply Hx; done.
Qed.

Lemma shr_fexp_same m e l :
  fexp32 (Zdigits2 m + e) <= e ->
  shr_fexp Binary32.prec Binary32.emax m e l = (shr_record_of_loc m l, e).
Proof.
  intros He. unfold shr_fexp. fold (fexp32 (Zdigits2 m + e)).
  destruct (fexp32 (Zdigits2 m + e) - e) eqn:E; try done. lia.
Qed.

(** ** Powers of two *)

Lemma bpow_IZR n : 0 <= n -> bpow n = IZR (2 ^ n).
Proof.
  intros Hn. unfold bpow. destruct n as [|p|p]; [done| |lia].
  simpl. by rewrite pow_IZR, positive_nat_Z.
Qed.

Lemma bpow_add a b : bpow (a + b) = (bpow a * bpow b)%R.
Proof. unfold bpow. apply powerRZ_add. lra. Qed.

Lemma bpow_pos e : (0 < bpow e)%R.
Proof. unfold bpow. apply powerRZ_lt. lra. Qed.

Lemma bpow_0 : bpow 0 = 1%R.
Proof. done. Qed.

Lemma bpow_ge_1 n : 0 <= n -> (1 <= bpow n)%R.
Proof.
  intros Hn. rewrite bpow_IZR by done. apply IZR_le.
  pose proof (Z.pow_pos_nonneg 2 n ltac:(lia) Hn). lia.
Qed.

Lemma bpow_le a b : a <= b -> (bpow a <= bpow b)%R.
Proof.
  intros Hab. replace b with (a + (b - a)) by lia. rewrite bpow_add.
  pose proof (bpow_pos a). pose proof (bpow_ge_1 (b - a) ltac:(lia)). nra.
Qed.

Lemma bpow_lt a b : a < b -> (bpow a < bpow b)%R.
Proof.
  intros Hab. replace b with (a + 1 + (b - a - 1)) by lia.
  rewrite !bpow_add.
  assert (bpow 1 = 2%R) as -> by (unfold bpow; simpl; lra).
  pose proof (bpow_pos a). pose proof (bpow_ge_1 (b - a - 1) ltac:(lia)). nra.
Qed.

Lemma bpow_lt_inv a b : (bpow a < bpow b)%R -> a < b.
Proof.
  intros H. destruct (Z_lt_le_dec a b) as [|Hle]; [done|].
  apply bpow_le in Hle. lra.
Qed.

Lemma bpow_le_inv a b : (bpow a <= bpow b)%R -> a <= b.
Proof.
  intros H. destruct (Z_le_gt_dec a b) as [|Hgt]; [done|].
  assert (b < a) as Hlt%bpow_lt by lia. lra.
Qed.

Lemma F2R_shift m n e : 0 <= n -> F2R (m * 2 ^ n) e = F2R m (e + n).
Proof.
  intros Hn. unfold F2R. rewrite mult_IZR, bpow_add, <- bpow_IZR by done.
  rewrite (Rmult_comm (bpow e)). by rewrite Rmult_assoc.
Qed.

Lemma F2R_le m1 m2 e : m1 <= m2 -> (F2R m1 e <= F2R m2 e)%R.
Proof.
  intros H%IZR_le. unfold F2R. pose proof (bpow_pos e). nra.
Qed.

Lemma F2R_lt m1 m2 e : m1 < m2 -> (F2R m1 e < F2R m2 e)%R.
Proof.
  intros H%IZR_lt. unfold F2R. pose proof (bpow_pos e). nra.
Qed.

Lemma F2R_le_inv m1 m2 e : (F2R m1 e <= F2R m2 e)%R -> m1 <= m2.
Proof.
  intros H. destruct (Z_le_gt_dec m1 m2) as [|Hgt]; [done|].
  assert (m2 < m1) as Hlt%(F2R_lt _ _ e) by lia. lra.
Qed.

Lemma F2R_lt_inv m1 m2 e : (F2R m1 e < F2R m2 e)%R -> m1 < m2.
Proof.
  intros H. destruct (Z_lt_le_dec m1 m2) as [|Hle]; [done|].
  apply (F2R_le _ _ e) in Hle. lra.
Qed.

Lemma F2R_0 e : F2R 0 e = 0%R.
Proof. unfold F2R. lra. Qed.

Lemma F2R_pow n e : 0 <= n -> F2R (2 ^ n) e = bpow (n + e).
Proof.
  intros Hn. unfold F2R. rewrite <- bpow_IZR, <- bpow_add by done. done.
Qed.

(** A mantissa of [d] digits at exponent [e] lies in
    [[2^(d-1+e), 2^(d+e))]. *)
Lemma F2R_digits m e :
  0 < m ->
  (bpow (Zdigits2 m - 1 + e) <= F2R m e < bpow (Zdigits2 m + e))%R.
Proof.
  intros Hm. destruct (Zdigits2_bounds m Hm) as [Hlo Hhi].
  pose proof (Zdigits2_pos m Hm).
  rewrite <- !F2R_pow by lia. split; [by apply F2R_le | by apply F2R_lt].
Qed.

(** ** Rounding to nearest *)

Lemma round_nearest_even_cases m l :
  round_nearest_even m l = m \/ round_nearest_even m l = m + 1.
Proof. destruct l as [|[]]; simpl; auto. destruct (Z.even m); auto. Qed.

Lemma div_pow2_lt m d n :
  0 <= n -> 0 <= d -> 0 <= m < 2 ^ (n + d) -> m / 2 ^ n < 2 ^ d.
Proof.
  intros Hn Hd Hm. apply Z.div_lt_upper_bound.
  - apply Z.pow_pos_nonneg; lia.
  - rewrite <- Z.pow_add_r by lia. lia.
Qed.

Lemma div_pow2_ge m d n :
  0 <= n -> 0 <= d -> 2 ^ (n + d) <= m -> 2 ^ d <= m / 2 ^ n.
Proof.
  intros Hn Hd Hm. apply Z.div_le_lower_bound.
  - apply Z.pow_pos_nonneg; lia.
  - rewrite <- Z.pow_add_r by lia. lia.
Qed.

Lemma round_aux_correct sx mx ex lx :
  0 <= mx -> ex <= fexp32 (Zdigits2 mx + ex) ->
  exists k,
    (k = mx / 2 ^ (fexp32 (Zdigits2 mx + ex) - ex) \/
     k = mx / 2 ^ (fexp32 (Zdigits2 mx + ex) - ex) + 1) /\
    (lx = loc_Exact -> mx mod 2 ^ (fexp32 (Zdigits2 mx + ex) - ex) = 0 ->
     k = mx / 2 ^ (fexp32 (Zdigits2 mx + ex) - ex)) /\
    (fexp32 (Zdigits2 mx + ex) = -149 \/
     2 ^ 23 <= mx / 2 ^ (fexp32 (Zdigits2 mx + ex) - ex)) /\
    0 <= k <= 2 ^ 24 /\
    binary_round_aux Binary32.prec Binary32.emax sx mx ex lx
    = pack sx k (fexp32 (Zdigits2 mx + ex)).
Proof.
  intros Hmx He.
  destruct (shr_fexp_spec mx ex lx Hmx He) as (mrs & Hs & Hm & Hx).
  set (t := fexp32 (Zdigits2 mx + ex)) in *.
  set (m1 := mx / 2 ^ (t - ex)) in *.
  assert (Ht : t = Z.max (Zdigits2 mx + ex - 24) (-149))
    by apply fexp32_spec.
  assert (Hm1 : 0 <= m1 < 2 ^ 24).
  { split; [apply Z.div_pos; [lia | apply Z.pow_pos_nonneg; lia]|].
    destruct (decide (mx = 0)) as [->|Hne].
    { unfold m1. rewrite Z.div_0_l; [done|].
      pose proof (Z.pow_pos_nonneg 2 (t - ex) ltac:(lia) ltac:(lia)). lia. }
    apply div_pow2_lt; [lia | lia |]. split; [done|].
    pose proof (Zdigits2_bounds mx ltac:(lia)) as [_ Hhi].
    eapply Z.lt_le_trans; [exact Hhi|].
    apply Z.pow_le_mono_r; lia. }
  assert (Hnormal : t = -149 \/ 2 ^ 23 <= m1).
  { destruct (decide (t = -149)) as [|Hn]; [by left | right].
    assert (0 < mx).
    { destruct (decide (mx = 0)) as [->|]; [|lia].
      simpl in Ht. lia. }
    pose proof (Zdigits2_bounds mx ltac:(lia)) as [Hlo _].
    apply div_pow2_ge; [lia | lia |].
    replace (t - ex + 23) with (Zdigits2 mx - 1) by lia. done. }
  set (k := round_nearest_even (shr_m mrs) (loc_of_shr_record mrs)).
  assert (Hk : k = m1 \/ k = m1 + 1)
    by (unfold k; rewrite Hm; apply round_nearest_even_cases).
  exists k. split; [done|]. split.
  { intros Hl Hmod. unfold k. rewrite Hx, Hm by done. done. }
  split; [done|]. split; [lia|].
  unfold binary_round_aux. rewrite Hs. fold k. unfold pack.
  destruct (decide (k = 0)) as [Hk0|Hk0].
  { rewrite Hk0. simpl (0 =? 0).
    rewrite shr_fexp_same by (rewrite fexp32_spec; simpl; lia). done. }
  rewrite (proj2 (Z.eqb_neq k 0)) by done.
  destruct (decide (k = 2 ^ 24)) as [Hk24|Hk24].
  - rewrite Hk24. rewrite Z.eqb_refl.
    assert (Hd : Zdigits2 (2 ^ 24) = 25) by done.
    destruct (shr_fexp_spec (2 ^ 24) t loc_Exact) as (mrs2 & Hs2 & Hm2 & _);
      [done | rewrite Hd, fexp32_spec; lia |].
    rewrite Hd in Hs2, Hm2.
    assert (Ht2 : fexp32 (25 + t) = t + 1) by (rewrite fexp32_spec; lia).
    rewrite Ht2 in Hs2, Hm2. rewrite Hs2, Hm2.
    replace (t + 1 - t) with 1 by lia. done.
  - rewrite (proj2 (Z.eqb_neq k (2 ^ 24))) by done.
    assert (Hd : Zdigits2 k <= 24) by (apply Zdigits2_le; lia).
    rewrite shr_fexp_same by (rewrite fexp32_spec; lia).
    destruct k as [|p|p]; try lia. done.
Qed.

Lemma pack_valid sx k t :
  0 <= k <= 2 ^ 24 -> -149 <= t -> (t = -149 \/ 2 ^ 23 <= k) ->
  valid (pack sx k t) = true.
Proof.
  intros Hk Ht Hn. unfold pack.
  destruct (k =? 0) eqn:E0; [done|]. apply Z.eqb_neq in E0.
  destruct (k =? 2 ^ 24) eqn:E24.
  - destruct (t + 1 <=? 104) eqn:El; [|done]. apply Z.leb_le in El.
    unfold valid, valid_binary, bounded, canonical_mantissa.
    apply andb_true_iff. split; [|apply Z.leb_le; done].
    apply Z.eqb_eq. change (digits2_pos (2 ^ 23)) with 24%positive.
    change (fexp Binary32.prec Binary32.emax (24 + (t + 1)))
      with (fexp32 (24 + (t + 1))).
    rewrite fexp32_spec. lia.
  - apply Z.eqb_neq in E24.
    destruct (t <=? 104) eqn:El; [|done]. apply Z.leb_le in El.
    unfold valid, valid_binary, bounded, canonical_mantissa.
    apply andb_true_iff. split; [|apply Z.leb_le; done].
    apply Z.eqb_eq.
    change (Z.pos (digits2_pos (Z.to_pos k))) with (Zdigits2 (Z.pos (Z.to_pos k))).
    rewrite Z2Pos.id by lia.
    change (fexp Binary32.prec Binary32.emax (Zdigits2 k + t))
      with (fexp32 (Zdigits2 k + t)).
    rewrite fexp32_spec.
    assert (Zdigits2 k <= 24) by (apply Zdigits2_le; lia).
    destruct Hn as [->|Hn]; [lia|].
    assert (24 <= Zdigits2 k) by (apply Zdigits2_ge; [lia | done]).
    lia.
Qed.

Lemma pack_B2R sx k t :
  0 <= k -> is_finite (pack sx k t) = true ->
  B2R (pack sx k t) = F2R (cond_Zopp sx k) t.
Proof.
  intros Hk. unfold pack.
  destruct (k =? 0) eqn:E0.
  { apply Z.eqb_eq in E0. subst. intros _. simpl.
    destruct sx; simpl; by rewrite F2R_0. }
  apply Z.eqb_neq in E0.
  destruct (k =? 2 ^ 24) eqn:E24.
  - apply Z.eqb_eq in E24. subst.
    destruct (t + 1 <=? 104); [|done]. intros _. simpl.
    destruct sx; simpl.
    + change (Z.neg (2 ^ 23)) with (- 2 ^ 23).
      change (- 2 ^ 24) with (- 2 ^ 23 * 2 ^ 1).
      by rewrite F2R_shift.
    + change (Z.pos (2 ^ 23)) with (2 ^ 23).
      change (2 ^ 24) with (2 ^ 23 * 2 ^ 1).
      by rewrite F2R_shift.
  - destruct (t <=? 104); [|done]. intros _. simpl.
    destruct k as [|p|p]; try lia. done.
Qed.

Lemma pack_finite sx k t :
  0 <= k <= 2 ^ 24 -> (t = -149 \/ 2 ^ 23 <= k) ->
  (F2R k t < bpow 128)%R -> is_finite (pack sx k t) = true.
Proof.
  intros Hk Hn Hlt. unfold pack.
  destruct (k =? 0) eqn:E0; [done|]. apply Z.eqb_neq in E0.
  destruct (k =? 2 ^ 24) eqn:E24.
  - apply Z.eqb_eq in E24. subst.
    rewrite F2R_pow in Hlt by lia. apply bpow_lt_inv in Hlt.
    rewrite (proj2 (Z.leb_le (t + 1) 104)) by lia. done.
  - destruct Hn as [->|Hn]; [done|].
    assert (F2R (2 ^ 23) t <= F2R k t)%R by (by apply F2R_le).
    rewrite F2R_pow in * by lia.
    assert (bpow (23 + t) < bpow 128)%R as Hlt'%bpow_lt_inv by lra.
    rewrite (proj2 (Z.leb_le t 104)) by lia. done.
Qed.

Lemma pack_sign sx k t :
  is_finite (pack sx k t) = true ->
  pack sx k t = S754_zero sx \/
  exists m e, pack sx k t = S754_finite sx m e.
Proof.
  unfold pack. repeat case_match; try done; eauto.
Qed.

(** ** Valid numbers *)

Lemma valid_finite_inv s m e :
  valid (S754_finite s m e) = true ->
  e = fexp32 (Zdigits2 (Z.pos m) + e) /\ -149 <= e <= 104 /\
  Zdigits2 (Z.pos m) <= 24 /\ (e = -149 \/ Zdigits2 (Z.pos m) = 24).
Proof.
  unfold valid, valid_binary, bounded, canonical_mantissa.
  intros [Hc He]%andb_true_iff. apply Z.eqb_eq in Hc. apply Z.leb_le in He.
  change (fexp Binary32.prec Binary32.emax (Z.pos (digits2_pos m) + e))
    with (fexp32 (Zdigits2 (Z.pos m) + e)) in Hc.
  change (Binary32.emax - Binary32.prec) with 104 in He.
  pose proof (fexp32_spec (Zdigits2 (Z.pos m) + e)). lia.
Qed.

Lemma valid_finite_bounds s m e :
  valid (S754_finite s m e) = true ->
  (F2R (Z.pos m) e < bpow (24 + e))%R /\
  (e = -149 \/ (bpow (23 + e) <= F2R (Z.pos m) e)%R).
Proof.
  intros (_ & _ & Hd & Hn)%valid_finite_inv.
  pose proof (F2R_digits (Z.pos m) e ltac:(lia)) as [Hlo Hhi]. split.
  - eapply Rlt_le_trans; [exact Hhi|]. apply bpow_le. lia.
  - destruct Hn as [|Hn]; [by left | right].
    rewrite Hn in Hlo. by replace (24 - 1 + e) with (23 + e) in Hlo by lia.
Qed.

Lemma B2R_nonneg x : finite_nonneg x = true -> (0 <= B2R x)%R.
Proof.
  destruct x as [| | |[] m e]; simpl; try done; try lra.
  intros _. unfold F2R. pose proof (bpow_pos e).
  assert (0 < IZR (Z.pos m))%R by (apply IZR_lt; lia). nra.
Qed.

Lemma B2R_pos m e : (0 < B2R (S754_finite false m e))%R.
Proof.
  simpl. unfold F2R. pose proof (bpow_pos e).
  assert (0 < IZR (Z.pos m))%R by (apply IZR_lt; lia). nra.
Qed.

Lemma finite_nonneg_finite x : finite_nonneg x = true -> is_finite x = true.
Proof. by destruct x as [| | |[]]. Qed.

(** ** Roundings *)

Lemma round_aux_rounds sx mx ex lx (v : R) :
  0 <= mx -> ex <= fexp32 (Zdigits2 mx + ex) ->
  (F2R mx ex <= v < F2R (mx + 1) ex)%R ->
  (v = F2R mx ex -> lx = loc_Exact) ->
  rounds_to sx v (binary_round_aux Binary32.prec Binary32.emax sx mx ex lx).
Proof.
  intros Hmx He [Hlo Hhi] Hx.
  destruct (round_aux_correct sx mx ex lx Hmx He)
    as (k & Hk & Hkx & Hn & Hk24 & ->).
  set (t := fexp32 (Zdigits2 mx + ex)) in *.
  set (n := t - ex) in *.
  assert (Hp : 0 < 2 ^ n) by (apply Z.pow_pos_nonneg; lia).
  pose proof (Z.div_mod mx (2 ^ n) ltac:(lia)) as Hdm.
  pose proof (Z.mod_pos_bound mx (2 ^ n) Hp) as Hmod.
  set (m1 := mx / 2 ^ n) in *.
  assert (Hm1 : 0 <= m1) by (apply Z.div_pos; lia).
  assert (Hsh : forall m, F2R m t = F2R (m * 2 ^ n) ex).
  { intros m. rewrite F2R_shift by lia. f_equal. lia. }
  exists k, t. split; [done|]. split; [done|]. split.
  { pose proof (fexp32_spec (Zdigits2 mx + ex)). lia. }
  exists m1. split; [done|]. split; [done|].
  split; [done|]. split; [split|].
  - rewrite Hsh. eapply Rle_trans; [|exact Hlo]. apply F2R_le. lia.
  - rewrite Hsh. eapply Rlt_le_trans; [exact Hhi|]. apply F2R_le. lia.
  - intros Hv. rewrite Hsh in Hv.
    assert (mx <= m1 * 2 ^ n)
      by (apply (F2R_le_inv _ _ ex); rewrite <- Hv; done).
    apply Hkx.
    + apply Hx. rewrite Hv. f_equal. lia.
    + lia.
Qed.

Lemma rounds_valid sx v r : rounds_to sx v r -> valid r = true.
Proof.
  intros (k & t & -> & Hk & Ht & m1 & Hm1 & Hn & Hkm & _).
  apply pack_valid; [done | done | lia].
Qed.

Lemma rounds_nonneg v r : rounds_to false v r -> is_finite r = true ->
  finite_nonneg r = true.
Proof.
  intros (k & t & -> & _) [->|(m & e & ->)]%pack_sign; done.
Qed.

(** A valid number is a multiple of [2^t] for every [t] up to its
    exponent. *)
Lemma valid_multiple m e t :
  t <= e -> F2R (Z.pos m) e = F2R (Z.pos m * 2 ^ (e - t)) t.
Proof.
  intros Ht. rewrite F2R_shift by lia. f_equal. lia.
Qed.

(** Rounding is monotone: the result is not below a valid number that
    the rounded real is not below. *)
Lemma rounding_ge v k t (l : spec_float) :
  rounding v k t -> valid l = true -> is_finite l = true ->
  (B2R l <= v)%R -> (B2R l <= F2R k t)%R.
Proof.
  intros (Hk & Ht & m1 & Hm1 & Hn & Hkm & [Hlo Hhi] & _) Hl Hf Hle.
  assert (Hk1 : (F2R m1 t <= F2R k t)%R) by (apply F2R_le; lia).
  assert (H0 : (0 <= F2R m1 t)%R).
  { rewrite <- (F2R_0 t). by apply F2R_le. }
  destruct l as [| | |[] m e]; cbn [B2R cond_Zopp is_finite] in *;
    try lra; try done.
  { assert (F2R (- Z.pos m) e <= F2R 0 e)%R by (apply F2R_le; lia).
    rewrite F2R_0 in *. lra. }
  eapply Rle_trans; [|exact Hk1].
  destruct (valid_finite_inv _ _ _ Hl) as (_ & He & _).
  destruct (valid_finite_bounds _ _ _ Hl) as [Hu _].
  destruct (Z_le_gt_dec t e) as [Hte|Hte].
  - rewrite (valid_multiple m e t Hte) in *.
    apply F2R_le.
    assert (Z.pos m * 2 ^ (e - t) < m1 + 1)
      by (apply (F2R_lt_inv _ _ t); lra). lia.
  - destruct Hn as [->|Hn]; [lia|].
    assert (bpow (24 + e) <= bpow (23 + t))%R by (apply bpow_le; lia).
    assert (F2R (2 ^ 23) t <= F2R m1 t)%R by (by apply F2R_le).
    rewrite F2R_pow in * by lia. lra.
Qed.

(** The result is not above a valid number that the rounded real is not
    above. *)
Lemma rounding_le v k t (u : spec_float) :
  rounding v k t -> valid u = true -> is_finite u = true ->
  (v <= B2R u)%R -> (F2R k t <= B2R u)%R.
Proof.
  intros (Hk & Ht & m1 & Hm1 & Hn & Hkm & [Hlo Hhi] & Hx) Hu Hf Hle.
  assert (H0 : (0 <= F2R m1 t)%R).
  { rewrite <- (F2R_0 t). by apply F2R_le. }
  destruct (Req_dec v (F2R m1 t)) as [Hv|Hv].
  { rewrite (Hx Hv). lra. }
  assert (Hk1 : (F2R k t <= F2R (m1 + 1) t)%R) by (apply F2R_le; lia).
  eapply Rle_trans; [exact Hk1|].
  destruct u as [| | |[] m e]; cbn [B2R cond_Zopp is_finite] in *;
    try lra; try done.
  { assert (F2R (- Z.pos m) e <= F2R 0 e)%R by (apply F2R_le; lia).
    rewrite F2R_0 in *. lra. }
  destruct (valid_finite_inv _ _ _ Hu) as (_ & He & _).
  destruct (valid_finite_bounds _ _ _ Hu) as [Hub _].
  destruct (Z_le_gt_dec t e) as [Hte|Hte].
  - rewrite (valid_multiple m e t Hte) in *.
    apply F2R_le.
    assert (m1 < Z.pos m * 2 ^ (e - t))
      by (apply (F2R_lt_inv _ _ t); lra). lia.
  - destruct Hn as [->|Hn]; [lia|].
    assert (bpow (24 + e) <= bpow (23 + t))%R by (apply bpow_le; lia).
    assert (F2R (2 ^ 23) t <= F2R m1 t)%R by (by apply F2R_le).
    rewrite F2R_pow in * by lia. lra.
Qed.

Lemma rounding_error v k t :
  rounding v k t ->
  (Rabs (F2R k t - v) <= bpow t)%R /\
  (t = -149 \/ (bpow t <= bpow (-23) * v)%R).
Proof.
  intros (Hk & Ht & m1 & Hm1 & Hn & Hkm & [Hlo Hhi] & Hx).
  assert (Hs : F2R (m1 + 1) t = (F2R m1 t + bpow t)%R).
  { unfold F2R. rewrite plus_IZR. lra. }
  split.
  - apply Rabs_le. destruct Hkm as [->| ->]; lra.
  - destruct Hn as [|Hn]; [by left | right].
    assert (F2R (2 ^ 23) t <= F2R m1 t)%R by (by apply F2R_le).
    rewrite F2R_pow in * by lia.
    replace (23 + t) with (t + 23) in * by lia.
    rewrite bpow_add in *.
    assert (Hb : (bpow (-23) * bpow 23 = 1)%R).
    { rewrite <- bpow_add. done. }
    pose proof (bpow_pos (-23)). pose proof (bpow_pos 23).
    pose proof (bpow_pos t). nra.
Qed.

Lemma rounds_B2R v r :
  rounds_to false v r -> is_finite r = true ->
  exists k t, rounding v k t /\ B2R r = F2R k t.
Proof.
  intros (k & t & -> & Hr) Hf. exists k, t. split; [done|].
  rewrite pack_B2R; [done | apply Hr | done].
Qed.

Lemma rounds_ge v r l :
  rounds_to false v r -> is_finite r = true ->
  valid l = true -> is_finite l = true -> (B2R l <= v)%R ->
  (B2R l <= B2R r)%R.
Proof.
  intros Hr Hf Hl Hlf Hle.
  destruct (rounds_B2R _ _ Hr Hf) as (k & t & Hk & ->).
  by eapply rounding_ge.
Qed.

Lemma rounds_le v r u :
  rounds_to false v r ->
  valid u = true -> is_finite u = true -> (v <= B2R u)%R ->
  is_finite r = true /\ (B2R r <= B2R u)%R.
Proof.
  intros (k & t & -> & Hr) Hu Huf Hle.
  pose proof (rounding_le _ _ _ _ Hr Hu Huf Hle) as Hkt.
  assert (Hfin : is_finite (pack false k t) = true).
  { destruct Hr as (Hk & Ht & m1 & Hm1 & Hn & Hkm & _).
    apply pack_finite; [done | lia |].
    eapply Rle_lt_trans; [exact Hkt|].
    destruct u as [| | |s m e]; cbn [B2R cond_Zopp is_finite] in *; try done;
      try (pose proof (bpow_pos 128); lra).
    destruct (valid_finite_inv _ _ _ Hu) as (_ & He & _).
    destruct (valid_finite_bounds _ _ _ Hu) as [Hub _].
    assert (bpow (24 + e) <= bpow 128)%R by (apply bpow_le; lia).
    destruct s; cbn [cond_Zopp]; [|lra].
    assert (F2R (- Z.pos m) e <= F2R 0 e)%R by (apply F2R_le; lia).
    rewrite F2R_0 in *. pose proof (bpow_pos 128). lra. }
  split; [done|]. rewrite pack_B2R; [done | apply Hr | done].
Qed.

Lemma rounds_error v r :
  rounds_to false v r -> is_finite r = true -> (0 <= v)%R ->
  (Rabs (B2R r - v) <= bpow (-23) * v + bpow (-149))%R.
Proof.
  intros Hr Hf Hv.
  destruct (rounds_B2R _ _ Hr Hf) as (k & t & Hk & ->).
  destruct (rounding_error _ _ _ Hk) as [He [->|Hb]].
  - pose proof (bpow_pos (-23)). nra.
  - pose proof (bpow_pos (-149)). lra.
Qed.

(** ** Comparison *)

Lemma compare_nonneg_spec x y :
  valid x = true -> valid y = true ->
  finite_nonneg x = true -> finite_nonneg y = true ->
  match SFcompare x y with
  | Some Lt => (B2R x < B2R y)%R
  | Some Eq => B2R x = B2R y
  | Some Gt => (B2R y < B2R x)%R
  | None => False
  end.
Proof.
  intros Hx Hy Hfx Hfy.
  destruct x as [sx| | |[] mx ex], y as [sy| | |[] my ey]; try done.
  - apply B2R_pos.
  - apply B2R_pos.
  - cbn [SFcompare B2R cond_Zopp].
    destruct (valid_finite_inv _ _ _ Hx) as (_ & Hex & _).
    destruct (valid_finite_inv _ _ _ Hy) as (_ & Hey & _).
    destruct (valid_finite_bounds _ _ _ Hx) as [Hxu Hxl].
    destruct (valid_finite_bounds _ _ _ Hy) as [Hyu Hyl].
    destruct (Z.compare_spec ex ey) as [->|Hlt|Hlt].
    + rewrite Pos.compare_cont_spec. simpl.
      destruct (Pos.compare_spec mx my) as [->|Hm|Hm]; [done| |];
        apply F2R_lt; lia.
    + destruct Hyl as [->|Hyl]; [lia|].
      assert (bpow (24 + ex) <= bpow (23 + ey))%R by (apply bpow_le; lia).
      lra.
    + destruct Hxl as [->|Hxl]; [lia|].
      assert (bpow (24 + ey) <= bpow (23 + ex))%R by (apply bpow_le; lia).
      lra.
Qed.

Lemma ltb_nonneg_spec x y :
  valid x = true -> valid y = true ->
  finite_nonneg x = true -> finite_nonneg y = true ->
  if SFltb x y then (B2R x < B2R y)%R else (B2R y <= B2R x)%R.
Proof.
  intros Hx Hy Hfx Hfy.
  pose proof (compare_nonneg_spec x y Hx Hy Hfx Hfy) as H.
  unfold SFltb. destruct (SFcompare x y) as [[]|]; try done; lra.
Qed.

Lemma leb_nonneg_spec x y :
  valid x = true -> valid y = true ->
  finite_nonneg x = true -> finite_nonneg y = true ->
  if SFleb x y then (B2R x <= B2R y)%R else (B2R y < B2R x)%R.
Proof.
  intros Hx Hy Hfx Hfy.
  pose proof (compare_nonneg_spec x y Hx Hy Hfx Hfy) as H.
  unfold SFleb. destruct (SFcompare x y) as [[]|]; try done; lra.
Qed.

(** ** The operations on positive numbers *)

Lemma Zdigits2_mul_pow2 m n :
  0 < m -> 0 <= n -> Zdigits2 (m * 2 ^ n) = Zdigits2 m + n.
Proof.
  intros Hm Hn.
  assert (0 < 2 ^ n) by (apply Z.pow_pos_nonneg; lia).
  rewrite !Zdigits2_log2 by nia.
  rewrite Z.log2_mul_pow2 by lia. lia.
Qed.

Lemma Zdigits2_mul_ge a b :
  0 < a -> 0 < b -> Zdigits2 a + Zdigits2 b - 1 <= Zdigits2 (a * b).
Proof.
  intros Ha Hb.
  pose proof (Zdigits2_bounds a Ha) as [Hal _].
  pose proof (Zdigits2_bounds b Hb) as [Hbl _].
  pose proof (Zdigits2_pos a Ha). pose proof (Zdigits2_pos b Hb).
  apply Zdigits2_ge; [lia|].
  replace (Zdigits2 a + Zdigits2 b - 1 - 1)
    with ((Zdigits2 a - 1) + (Zdigits2 b - 1)) by lia.
  rewrite Z.pow_add_r by lia.
  assert (0 < 2 ^ (Zdigits2 a - 1)) by (apply Z.pow_pos_nonneg; lia).
  assert (0 < 2 ^ (Zdigits2 b - 1)) by (apply Z.pow_pos_nonneg; lia).
  nia.
Qed.

Lemma Zdigits2_mono a b : 0 <= a <= b -> Zdigits2 a <= Zdigits2 b.
Proof.
  intros [Ha Hab]. destruct (decide (a = 0)) as [->|]; [apply Zdigits2_nonneg|].
  rewrite !Zdigits2_log2 by lia.
  pose proof (Z.log2_le_mono a b Hab). lia.
Qed.

Lemma F2R_mul m1 e1 m2 e2 :
  F2R (m1 * m2) (e1 + e2) = (F2R m1 e1 * F2R m2 e2)%R.
Proof. unfold F2R. rewrite mult_IZR, bpow_add. lra. Qed.

Lemma F2R_add m1 m2 e : F2R (m1 + m2) e = (F2R m1 e + F2R m2 e)%R.
Proof. unfold F2R. rewrite plus_IZR. lra. Qed.

Lemma F2R_sub m1 m2 e : F2R (m1 - m2) e = (F2R m1 e - F2R m2 e)%R.
Proof. unfold F2R. rewrite minus_IZR. lra. Qed.

Lemma exact_bracket m e : (F2R m e <= F2R m e < F2R (m + 1) e)%R.
Proof. split; [lra | apply F2R_lt; lia]. Qed.

Lemma mul_rounds mx ex my ey :
  valid (S754_finite false mx ex) = true ->
  valid (S754_finite false my ey) = true ->
  rounds_to false
    (B2R (S754_finite false mx ex) * B2R (S754_finite false my ey))
    (SFmul Binary32.prec Binary32.emax
       (S754_finite false mx ex) (S754_finite false my ey)).
Proof.
  intros Hx Hy. cbn [SFmul B2R cond_Zopp xorb].
  rewrite <- F2R_mul. rewrite <- Pos2Z.inj_mul.
  apply round_aux_rounds; [lia | | apply exact_bracket | done].
  destruct (valid_finite_inv _ _ _ Hx) as (_ & Hex & Hdx & Hnx).
  destruct (valid_finite_inv _ _ _ Hy) as (_ & Hey & Hdy & Hny).
  pose proof (Zdigits2_mul_ge (Z.pos mx) (Z.pos my) ltac:(lia) ltac:(lia)).
  pose proof (Zdigits2_pos (Z.pos mx) ltac:(lia)).
  pose proof (Zdigits2_pos (Z.pos my) ltac:(lia)).
  rewrite Pos2Z.inj_mul, fexp32_spec. lia.
Qed.

Lemma iter_xO mx d : Z.pos (Pos.iter xO mx d) = Z.pos mx * 2 ^ Z.pos d.
Proof.
  induction d as [|d IH] using Pos.peano_ind.
  - simpl. lia.
  - rewrite Pos.iter_succ, Pos2Z.inj_xO, IH, Pos2Z.inj_succ.
    rewrite Z.pow_succ_r by lia. lia.
Qed.

Lemma shl_align_spec mx ex ez :
  exists m',
    shl_align mx ex ez = (m', Z.min ex ez) /\
    Z.pos m' = Z.pos mx * 2 ^ (ex - Z.min ex ez).
Proof.
  unfold shl_align. destruct (ez - ex) as [|d|d] eqn:E.
  - exists mx. replace (Z.min ex ez) with ex by lia.
    rewrite Z.sub_diag. split; [done | lia].
  - exists mx. replace (Z.min ex ez) with ex by lia.
    rewrite Z.sub_diag. split; [done | lia].
  - exists (Pos.iter xO mx d). replace (Z.min ex ez) with ez by lia.
    split; [done|].
    replace (ex - ez) with (Z.pos d) by lia. apply iter_xO.
Qed.

Lemma binary_round_rounds sx m e :
  rounds_to sx (F2R (Z.pos m) e)
    (binary_round Binary32.prec Binary32.emax sx m e).
Proof.
  unfold binary_round.
  change (fexp Binary32.prec Binary32.emax (Z.pos (digits2_pos m) + e))
    with (fexp32 (Zdigits2 (Z.pos m) + e)).
  destruct (shl_align_spec m e (fexp32 (Zdigits2 (Z.pos m) + e)))
    as (mz & -> & Hmz).
  set (ez := Z.min e (fexp32 (Zdigits2 (Z.pos m) + e))) in *.
  assert (Hv : F2R (Z.pos m) e = F2R (Z.pos mz) ez).
  { rewrite Hmz, F2R_shift by lia. f_equal. lia. }
  rewrite Hv.
  apply round_aux_rounds; [lia | | apply exact_bracket | done].
  rewrite Hmz, Zdigits2_mul_pow2 by lia.
  replace (Zdigits2 (Z.pos m) + (e - ez) + ez) with (Zdigits2 (Z.pos m) + e)
    by lia.
  lia.
Qed.

Lemma add_rounds mx ex my ey :
  rounds_to false
    (B2R (S754_finite false mx ex) + B2R (S754_finite false my ey))
    (SFadd Binary32.prec Binary32.emax
       (S754_finite false mx ex) (S754_finite false my ey)).
Proof.
  cbn [SFadd B2R cond_Zopp].
  destruct (shl_align_spec mx ex (Z.min ex ey)) as (mx' & -> & Hx).
  destruct (shl_align_spec my ey (Z.min ex ey)) as (my' & -> & Hy).
  replace (Z.min ex (Z.min ex ey)) with (Z.min ex ey) in Hx by lia.
  replace (Z.min ey (Z.min ex ey)) with (Z.min ex ey) in Hy by lia.
  cbn [fst]. set (ez := Z.min ex ey) in *.
  assert (Hvx : F2R (Z.pos mx) ex = F2R (Z.pos mx') ez).
  { rewrite Hx, F2R_shift by lia. f_equal. lia. }
  assert (Hvy : F2R (Z.pos my) ey = F2R (Z.pos my') ez).
  { rewrite Hy, F2R_shift by lia. f_equal. lia. }
  rewrite Hvx, Hvy, <- F2R_add. simpl (Z.pos mx' + Z.pos my').
  apply binary_round_rounds.
Qed.

Lemma sub_rounds mx ex my ey :
  (B2R (S754_finite false my ey) < B2R (S754_finite false mx ex))%R ->
  rounds_to false
    (B2R (S754_finite false mx ex) - B2R (S754_finite false my ey))
    (SFsub Binary32.prec Binary32.emax
       (S754_finite false mx ex) (S754_finite false my ey)).
Proof.
  cbn [SFsub B2R cond_Zopp]. intros Hlt.
  destruct (shl_align_spec mx ex (Z.min ex ey)) as (mx' & -> & Hx).
  destruct (shl_align_spec my ey (Z.min ex ey)) as (my' & -> & Hy).
  replace (Z.min ex (Z.min ex ey)) with (Z.min ex ey) in Hx by lia.
  replace (Z.min ey (Z.min ex ey)) with (Z.min ex ey) in Hy by lia.
  cbn [fst]. set (ez := Z.min ex ey) in *.
  assert (Hvx : F2R (Z.pos mx) ex = F2R (Z.pos mx') ez).
  { rewrite Hx, F2R_shift by lia. f_equal. lia. }
  assert (Hvy : F2R (Z.pos my) ey = F2R (Z.pos my') ez).
  { rewrite Hy, F2R_shift by lia. f_equal. lia. }
  rewrite Hvx, Hvy in *. rewrite <- F2R_sub.
  apply F2R_lt_inv in Hlt.
  destruct (Z.pos mx' - Z.pos my') as [|d|d] eqn:E; try lia.
  apply binary_round_rounds.
Qed.

Lemma new_location_exact nb : new_location nb 0 = loc_Exact.
Proof.
  unfold new_location, new_location_even, new_location_odd.
  by destruct (Z.even nb).
Qed.

Lemma div_rounds mx ex my ey :
  rounds_to false
    (B2R (S754_finite false mx ex) / B2R (S754_finite false my ey))
    (SFdiv Binary32.prec Binary32.emax
       (S754_finite false mx ex) (S754_finite false my ey)).
Proof.
  cbn [SFdiv B2R cond_Zopp xorb]. unfold SFdiv_core_binary.
  change (fexp Binary32.prec Binary32.emax) with fexp32.
  set (d1 := Zdigits2 (Z.pos mx)). set (d2 := Zdigits2 (Z.pos my)).
  set (D := d1 + ex - (d2 + ey)).
  set (e' := Z.min (fexp32 D) (ex - ey)).
  set (s := ex - ey - e').
  assert (Hs : 0 <= s) by lia.
  set (m' := match s with
             | 0 => Z.pos mx
             | Z.pos _ => Z.shiftl (Z.pos mx) s
             | Z.neg _ => 0
             end).
  assert (Hm' : m' = Z.pos mx * 2 ^ s).
  { unfold m'. destruct s as [|p|p] eqn:E; [lia | | lia].
    by rewrite Z.shiftl_mul_pow2. }
  clearbody m'.
  pose proof (Z.div_eucl_eq m' (Z.pos my) ltac:(lia)) as Heq.
  pose proof (Z.mod_pos_bound m' (Z.pos my) ltac:(lia)) as Hr.
  unfold Z.modulo in Hr.
  destruct (Z.div_eucl m' (Z.pos my)) as [q r].
  assert (Hp : 0 < 2 ^ s) by (apply Z.pow_pos_nonneg; lia).
  assert (Hq : 0 <= q) by nia.
  pose proof (Zdigits2_bounds (Z.pos mx) ltac:(lia)) as [Hxl Hxu].
  pose proof (Zdigits2_bounds (Z.pos my) ltac:(lia)) as [Hyl Hyu].
  pose proof (Zdigits2_pos (Z.pos mx) ltac:(lia)).
  pose proof (Zdigits2_pos (Z.pos my) ltac:(lia)).
  fold d1 d2 in Hxl, Hxu, Hyl, Hyu, H, H0.
  apply round_aux_rounds.
  - done.
  - pose proof (fexp32_spec D) as HD.
    destruct (Z_le_gt_dec e' (-149)) as [|He'].
    { pose proof (fexp32_spec (Zdigits2 q + e')). lia. }
    (* here [e' <= D - 24], so the quotient has at least 24 digits *)
    assert (HDe : 0 <= D - 1 - e') by lia.
    assert (Hqd : 2 ^ (D - 1 - e') <= q).
    { assert (Hle : Z.pos my * 2 ^ (D - 1 - e') <= m').
      { rewrite Hm'.
        assert (2 ^ d2 * 2 ^ (D - 1 - e') = 2 ^ (d1 - 1) * 2 ^ s).
        { rewrite <- !Z.pow_add_r by lia. f_equal. lia. }
        assert (0 < 2 ^ (D - 1 - e')) by (apply Z.pow_pos_nonneg; lia).
        nia. }
      assert (0 < 2 ^ (D - 1 - e')) by (apply Z.pow_pos_nonneg; lia).
      nia. }
    assert (D - e' <= Zdigits2 q).
    { apply Zdigits2_ge; [lia|].
      by replace (D - e' - 1) with (D - 1 - e') by lia. }
    pose proof (fexp32_spec (Zdigits2 q + e')). lia.
  - assert (Hv : (F2R (Z.pos mx) ex / F2R (Z.pos my) ey
                  = IZR m' / IZR (Z.pos my) * bpow e')%R).
    { unfold F2R. rewrite Hm', mult_IZR, <- bpow_IZR by done.
      assert (bpow ex = bpow s * bpow e' * bpow ey)%R as ->
        by (rewrite <- !bpow_add; f_equal; lia).
      pose proof (bpow_pos ey).
      assert (IZR (Z.pos my) <> 0%R) by (apply not_0_IZR; lia).
      field. split; lra. }
    rewrite Hv. unfold F2R.
    assert (Hy0 : (0 < IZR (Z.pos my))%R) by (apply IZR_lt; lia).
    assert (Hm : IZR m' = (IZR (Z.pos my) * IZR q + IZR r)%R).
    { rewrite Heq, plus_IZR, mult_IZR. done. }
    assert (Hr0 : (0 <= IZR r)%R) by (apply IZR_le; lia).
    assert (Hr1 : (IZR r < IZR (Z.pos my))%R) by (apply IZR_lt; lia).
    pose proof (bpow_pos e').
    assert (Hdiv : (IZR m' / IZR (Z.pos my)
                    = IZR q + IZR r / IZR (Z.pos my))%R).
    { rewrite Hm. field. lra. }
    rewrite Hdiv, plus_IZR.
    assert (0 <= IZR r / IZR (Z.pos my) < 1)%R.
    { split.
      - apply Rle_mult_inv_pos; lra.
      - apply (Rmult_lt_reg_r (IZR (Z.pos my))); [lra|].
        unfold Rdiv. rewrite Rmult_assoc, Rinv_l by lra. lra. }
    split; nra.
  - intros Hv.
    assert (r = 0); [|subst; apply new_location_exact].
    assert (Hv' : (F2R (Z.pos mx) ex / F2R (Z.pos my) ey
                  = IZR m' / IZR (Z.pos my) * bpow e')%R).
    { unfold F2R. rewrite Hm', mult_IZR, <- bpow_IZR by done.
      assert (bpow ex = bpow s * bpow e' * bpow ey)%R as ->
        by (rewrite <- !bpow_add; f_equal; lia).
      pose proof (bpow_pos ey).
      assert (IZR (Z.pos my) <> 0%R) by (apply not_0_IZR; lia).
      field. split; lra. }
    rewrite Hv' in Hv. unfold F2R in Hv.
    assert (Hy0 : (0 < IZR (Z.pos my))%R) by (apply IZR_lt; lia).
    pose proof (bpow_pos e').
    assert (Hm : IZR m' = (IZR (Z.pos my) * IZR q + IZR r)%R).
    { rewrite Heq, plus_IZR, mult_IZR. done. }
    assert (Hqe : (IZR m' / IZR (Z.pos my) = IZR q)%R) by nra.
    assert (Hr0 : IZR r = 0%R).
    { rewrite Hm in Hqe. field_simplify in Hqe; [|lra].
      apply (Rmult_eq_compat_r (IZR (Z.pos my))) in Hqe.
      unfold Rdiv in Hqe. rewrite Rmult_assoc, Rinv_l in Hqe by lra. lra. }
    by apply eq_IZR in Hr0.
Qed.

(** ** The tone mapping curve in single precision *)

Section ToneMapRange.
#[local] Existing Instance Binary32.model.

Lemma one_literal : literal 1 1 = one.
Proof. reflexivity. Qed.

Lemma zero_literal : literal 0 1 = S754_zero false.
Proof. reflexivity. Qed.

Lemma B2R_one : B2R one = 1%R.
Proof.
  unfold one. cbn [B2R cond_Zopp]. unfold F2R.
  change 8388608 with (2 ^ 23). rewrite <- bpow_IZR, <- bpow_add by done.
  done.
Qed.

Lemma valid_one : valid one = true.
Proof. reflexivity. Qed.

Lemma leb_zero_iff (x : spec_float) :
  SFleb (S754_zero false) x = true ->
  finite_nonneg x = true \/ x = S754_infinity false.
Proof. destruct x as [|[]| |[]]; auto; done. Qed.

Lemma finite_nonneg_leb_zero (x : spec_float) :
  finite_nonneg x = true -> SFleb (S754_zero false) x = true.
Proof. by destruct x as [|[]| |[]]. Qed.

Lemma leb_of_le (x y : spec_float) :
  valid x = true -> valid y = true ->
  finite_nonneg x = true -> finite_nonneg y = true ->
  (B2R x <= B2R y)%R -> SFleb x y = true.
Proof.
  intros Hx Hy Hfx Hfy Hle.
  pose proof (leb_nonneg_spec x y Hx Hy Hfx Hfy) as H.
  destruct (SFleb x y); [done | lra].
Qed.

(** A finite quotient of a non-negative number by a number that is not
    below it, not below 1, or infinite, lies in [[0, 1]]. *)
Lemma div_in_unit_interval (p q : spec_float) :
  valid p = true -> finite_nonneg p = true ->
  (q = S754_infinity false \/
   (valid q = true /\ finite_nonneg q = true /\
    (0 < B2R q)%R /\ (B2R p <= B2R q)%R)) ->
  let t := SFdiv Binary32.prec Binary32.emax p q in
  valid t = true /\ finite_nonneg t = true /\ (B2R t <= 1)%R.
Proof.
  intros Hp Hfp [->|(Hq & Hfq & Hq0 & Hpq)]; cbn zeta.
  { destruct p as [|[]| |[]]; try done; simpl; repeat split; lra. }
  destruct q as [sq| | |[] mq eq]; try done.
  { simpl in Hq0. lra. }
  destruct p as [sp| | |[] mp ep]; try done.
  { simpl. repeat split; try done. lra. }
  pose proof (div_rounds mp ep mq eq) as Hr.
  destruct (rounds_le _ _ one Hr valid_one eq_refl) as [Hf Hle].
  { rewrite B2R_one.
    apply (Rmult_le_reg_r (B2R (S754_finite false mq eq))); [done|].
    unfold Rdiv. rewrite Rmult_assoc, Rinv_l by lra. lra. }
  rewrite B2R_one in Hle.
  split; [by eapply rounds_valid|]. split; [by eapply rounds_nonneg | done].
Qed.

Lemma tone_map_single_range (x m : spec_float) :
  valid x = true -> valid m = true ->
  fleb (literal 0 1) x = true -> fleb (literal 0 1) m = true ->
  is_finite (fmul x m) = true ->
  fleb (literal 0 1) (simpleToneMap x m) = true /\
  fleb (simpleToneMap x m) (literal 1 1) = true.
Proof.
  intros Hx Hm Hx0 Hm0 Hfin.
  rewrite one_literal, zero_literal in *. unfold simpleToneMap.
  rewrite one_literal.
  change fleb with SFleb in *.
  change fmul with (SFmul Binary32.prec Binary32.emax) in *.
  change fadd with (SFadd Binary32.prec Binary32.emax).
  change fdiv with (SFdiv Binary32.prec Binary32.emax).
  set (p := SFmul Binary32.prec Binary32.emax x m) in *.
  assert (Hp : valid p = true /\ finite_nonneg p = true).
  { destruct (leb_zero_iff x Hx0) as [Hfx| ->];
      destruct (leb_zero_iff m Hm0) as [Hfm| ->].
    - destruct x as [sx| | |[] mx ex], m as [sm| | |[] mm em]; try done.
      pose proof (mul_rounds mx ex mm em Hx Hm) as Hr.
      split; [by eapply rounds_valid | by eapply rounds_nonneg].
    - by destruct x as [|[]| |[]].
    - by destruct m as [|[]| |[]].
    - done. }
  destruct Hp as [Hp Hfp].
  set (q := SFadd Binary32.prec Binary32.emax one p).
  assert (Hq : q = S754_infinity false \/
               (valid q = true /\ finite_nonneg q = true /\
                (0 < B2R q)%R /\ (B2R p <= B2R q)%R)).
  { destruct p as [sp| | |[] mp ep] eqn:Ep; try done.
    { right. subst q.
      change (SFadd Binary32.prec Binary32.emax one (S754_zero sp)) with one.
      rewrite B2R_one. repeat split; try done; simpl; lra. }
    pose proof (add_rounds 8388608 (-23) mp ep) as Hr.
    fold one in Hr. fold q in Hr.
    destruct (is_finite q) eqn:Hfq.
    - right. split; [by eapply rounds_valid|].
      split; [by eapply rounds_nonneg|].
      pose proof (B2R_pos mp ep).
      pose proof (rounds_ge _ _ one Hr Hfq valid_one eq_refl) as H1.
      pose proof (rounds_ge _ _ (S754_finite false mp ep) Hr Hfq Hp eq_refl)
        as H2.
      rewrite B2R_one in *. split; [lra|]. apply H2. lra.
    - left. destruct Hr as (k & t & Hq & _). rewrite Hq in *.
      unfold pack in *. repeat case_match; done. }
  destruct (div_in_unit_interval p q Hp Hfp Hq) as (Ht & Hft & Hle).
  split.
  - by apply finite_nonneg_leb_zero.
  - apply leb_of_le; try done. by rewrite B2R_one.
Qed.

End ToneMapRange.

(** ** Normalised samples in single precision *)

Lemma F2R_neg_exp m p : F2R m (Z.neg p) = (IZR m / IZR (2 ^ Z.pos p))%R.
Proof.
  unfold F2R. rewrite <- bpow_IZR by lia.
  assert (bpow (Z.neg p) * bpow (Z.pos p) = 1)%R.
  { rewrite <- bpow_add. replace (Z.neg p + Z.pos p) with 0 by lia. done. }
  pose proof (bpow_pos (Z.pos p)) as Hp.
  replace (bpow (Z.neg p)) with (/ bpow (Z.pos p))%R; [done|].
  apply (Rmult_eq_reg_r (bpow (Z.pos p))); [|lra].
  rewrite H. field. lra.
Qed.

Lemma of_Z_rounds s : 0 < s -> rounds_to false (IZR s) (Binary32.of_Z s).
Proof.
  destruct s as [|p|p]; try lia. intros _.
  replace (IZR (Z.pos p)) with (F2R (Z.pos p) 0)
    by (unfold F2R; rewrite bpow_0; lra).
  apply binary_round_rounds.
Qed.

Section SingleSamples.
#[local] Existing Instance Binary32.model.
Variable powf : float -> float -> float.

Lemma general_max_literal image :
  valid (literal (general_max image) 1) = true /\
  finite_nonneg (literal (general_max image) 1) = true /\
  B2R (literal (general_max image) 1) = IZR (general_max image).
Proof.
  unfold general_max. case_decide.
  - change (literal 65535 1) with (S754_finite false 16776960 (-8)).
    repeat split. cbn [B2R cond_Zopp]. rewrite F2R_neg_exp.
    change (2 ^ 8) with 256. lra.
  - change (literal 255 1) with (S754_finite false 16711680 (-16)).
    repeat split. cbn [B2R cond_Zopp]. rewrite F2R_neg_exp.
    change (2 ^ 16) with 65536. lra.
Qed.

Lemma in_unit_interval_of (v : spec_float) :
  valid v = true -> finite_nonneg v = true -> (B2R v <= 1)%R ->
  in_unit_interval v.
Proof.
  intros Hv Hf Hle. unfold in_unit_interval.
  rewrite one_literal, zero_literal. split.
  - by apply finite_nonneg_leb_zero.
  - apply leb_of_le; try done. by rewrite B2R_one.
Qed.

(** A sample divided by the maximum of its bit depth. *)
Lemma normalised_range image i s :
  general_read image (img_data image) i = Some s ->
  let v := fdiv (of_int s) (literal (general_max image) 1) in
  valid v = true /\ finite_nonneg v = true /\ (B2R v <= 1)%R.
Proof.
  intros Hs%general_read_range.
  destruct (general_max_literal image) as (Hu & Hfu & Hbu).
  assert (Hm : 0 < general_max image)
    by (unfold general_max; case_decide; lia).
  set (u := literal (general_max image) 1) in *.
  assert (Hp : valid (Binary32.of_Z s) = true /\
               finite_nonneg (Binary32.of_Z s) = true /\
               (B2R (Binary32.of_Z s) <= B2R u)%R).
  { destruct (decide (s = 0)) as [->|Hne].
    { repeat split. simpl. rewrite Hbu. apply IZR_le. lia. }
    pose proof (of_Z_rounds s ltac:(lia)) as Hr.
    destruct (rounds_le _ _ u Hr Hu (finite_nonneg_finite _ Hfu))
      as [Hf Hle]; [rewrite Hbu; apply IZR_le; lia|].
    split; [by eapply rounds_valid|]. split; [by eapply rounds_nonneg|done]. }
  destruct Hp as (Hp & Hfp & Hle).
  apply (div_in_unit_interval (Binary32.of_Z s) u Hp Hfp).
  right. repeat split; try done. rewrite Hbu. apply IZR_lt. lia.
Qed.

Lemma mul_at_most_one_finite (v e : spec_float) :
  valid v = true -> finite_nonneg v = true -> (B2R v <= 1)%R ->
  valid e = true -> finite_nonneg e = true ->
  is_finite (SFmul Binary32.prec Binary32.emax v e) = true.
Proof.
  intros Hv Hfv Hle He Hfe.
  destruct v as [sv| | |[] mv ev], e as [se| | |[] me ee]; try done.
  pose proof (mul_rounds mv ev me ee Hv He) as Hr.
  destruct (rounds_le _ _ (S754_finite false me ee) Hr He eq_refl); [|done].
  pose proof (B2R_pos me ee). pose proof (B2R_pos mv ev). nra.
Qed.

Lemma linear_channel_range image exposure i s :
  valid exposure = true -> is_finite exposure = true ->
  fleb (literal 0 1) exposure = true ->
  general_read image (img_data image) i = Some s ->
  in_unit_interval
    (Spec.channel powf (general_max image) false exposure s).
Proof.
  intros He Hfin He0 Hs.
  destruct (normalised_range image i s Hs) as (Hv & Hfv & Hle).
  assert (Hfe : finite_nonneg exposure = true).
  { rewrite zero_literal in He0.
    destruct (leb_zero_iff exposure He0) as [Hx|Hx]; [done|by subst]. }
  unfold Spec.channel. cbv zeta. case (feqb _ _).
  - by apply in_unit_interval_of.
  - apply (tone_map_single_range _ exposure Hv He); [|done|].
    + rewrite zero_literal. by apply finite_nonneg_leb_zero.
    + by apply mul_at_most_one_finite.
Qed.

Lemma holds_samples_inv read (channel : Z -> half) alpha image y x p :
  Spec.holds_samples read channel alpha image y x p ->
  exists s0 s1 s2,
    p = {| r := channel s0; g := channel s1; b := channel s2; a := alpha |} /\
    Forall (fun s => exists i, read (img_data image) i = Some s) [s0; s1; s2].
Proof.
  unfold Spec.holds_samples. case_decide.
  - intros (s0 & s1 & s2 & H0 & H1 & H2 & ->). exists s0, s1, s2.
    split; [done|]. repeat constructor; eauto.
  - intros (s & Hs & ->). exists s, s, s.
    split; [done|]. repeat constructor; eauto.
Qed.

(** X20.  In single precision, every pixel the general converter computes
    is made of three samples read from the buffer whose normalised values
    -- the sample divided by 65535 in the 16 bit loop, by 255 otherwise --
    lie in the closed interval [0, 1]. *)
Theorem normalised_samples_lie_in_unit_interval
    image useSRGB exposure y x p :
  general_pixel powf image useSRGB exposure y x = Some p ->
  exists s0 s1 s2,
    p = {| r := to_half (Spec.channel powf (general_max image)
                           useSRGB exposure s0);
           g := to_half (Spec.channel powf (general_max image)
                           useSRGB exposure s1);
           b := to_half (Spec.channel powf (general_max image)
                           useSRGB exposure s2);
           a := to_half (literal 1 1) |} /\
    Forall (fun s =>
              (exists i, general_read image (img_data image) i = Some s) /\
              in_unit_interval
                (fdiv (of_int s) (literal (general_max image) 1)))
      [s0; s1; s2].
Proof.
  intros Hp%general_pixel_spec.
  destruct (holds_samples_inv _ _ _ _ _ _ _ Hp) as (s0 & s1 & s2 & -> & Hs).
  exists s0, s1, s2. split; [done|].
  eapply Forall_impl; [exact Hs|]. intros s [i Hi]. split; [by exists i|].
  destruct (normalised_range image i s Hi) as (Hv & Hfv & Hle).
  by apply in_unit_interval_of.
Qed.

(** X25.  In single precision, with linearisation off and an exposure
    that is a finite binary32 number not below 0, every channel value the
    general converter computes -- the normalised sample when the exposure
    is 1.0, its compressed value otherwise -- lies in the closed interval
    [0, 1]. *)
Theorem linear_channel_values_lie_in_unit_interval
    image exposure y x p :
  valid exposure = true -> is_finite exposure = true ->
  fleb (literal 0 1) exposure = true ->
  general_pixel powf image false exposure y x = Some p ->
  exists s0 s1 s2,
    p = {| r := to_half (Spec.channel powf (general_max image)
                           false exposure s0);
           g := to_half (Spec.channel powf (general_max image)
                           false exposure s1);
           b := to_half (Spec.channel powf (general_max image)
                           false exposure s2);
           a := to_half (literal 1 1) |} /\
    Forall (fun s =>
              in_unit_interval
                (Spec.channel powf (general_max image) false exposure s))
      [s0; s1; s2].
Proof.
  intros He Hfin He0 Hp%general_pixel_spec.
  destruct (holds_samples_inv _ _ _ _ _ _ _ Hp) as (s0 & s1 & s2 & -> & Hs).
  exists s0, s1, s2. split; [done|].
  eapply Forall_impl; [exact Hs|]. intros s [i Hi].
  by eapply linear_channel_range.
Qed.

End SingleSamples.

Section SinglePrecisionSamples.
#[local] Existing Instance Binary32.model.

Lemma normalised_samples_lie_in_unit_interval_witness :
  exists s0 s1 s2,
    {| r := to_half (fdiv (of_int 1280) (literal 65535 1));
       g := to_half (fdiv (of_int 2048) (literal 65535 1));
       b := to_half (fdiv (of_int 2560) (literal 65535 1));
       a := to_half (literal 1 1) |}
    = {| r := to_half (Spec.channel (libm_pow (Samples.shots NoFault))
                         (general_max Samples.rgb16) false (literal 1 1) s0);
         g := to_half (Spec.channel (libm_pow (Samples.shots NoFault))
                         (general_max Samples.rgb16) false (literal 1 1) s1);
         b := to_half (Spec.channel (libm_pow (Samples.shots NoFault))
                         (general_max Samples.rgb16) false (literal 1 1) s2);
         a := to_half (literal 1 1) |} /\
    Forall (fun s =>
              (exists i, general_read Samples.rgb16
                           (img_data Samples.rgb16) i = Some s) /\
              in_unit_interval
                (fdiv (of_int s) (literal (general_max Samples.rgb16) 1)))
      [s0; s1; s2].
Proof.
  apply (normalised_samples_lie_in_unit_interval
           (libm_pow (Samples.shots NoFault)) Samples.rgb16 false
           (literal 1 1) 0 1).
  reflexivity.
Defined.

Lemma linear_channel_values_lie_in_unit_interval_witness :
  exists s0 s1 s2,
    {| r := to_half (Spec.channel (libm_pow (Samples.shots NoFault))
                       65535 false (literal 2 1) 1280);
       g := to_half (Spec.channel (libm_pow (Samples.shots NoFault))
                       65535 false (literal 2 1) 2048);
       b := to_half (Spec.channel (libm_pow (Samples.shots NoFault))
                       65535 false (literal 2 1) 2560);
       a := to_half (literal 1 1) |}
    = {| r := to_half (Spec.channel (libm_pow (Samples.shots NoFault))
                         (general_max Samples.rgb16) false (literal 2 1) s0);
         g := to_half (Spec.channel (libm_pow (Samples.shots NoFault))
                         (general_max Samples.rgb16) false (literal 2 1) s1);
         b := to_half (Spec.channel (libm_pow (Samples.shots NoFault))
                         (general_max Samples.rgb16) false (literal 2 1) s2);
         a := to_half (literal 1 1) |} /\
    Forall (fun s =>
              in_unit_interval
                (Spec.channel (libm_pow (Samples.shots NoFault))
                   (general_max Samples.rgb16) false (literal 2 1) s))
      [s0; s1; s2].
Proof.
  apply (linear_channel_values_lie_in_unit_interval
           (libm_pow (Samples.shots NoFault)) Samples.rgb16
           (Binary32.lit 2 1) 0 1); reflexivity.
Defined.

End SinglePrecisionSamples.

(** * The two curves composed *)

(** ** Logarithms and exponentials *)

Local Open Scope R_scope.

Lemma Rabs_bounds a b : Rabs a <= b -> - b <= a <= b.
Proof. unfold Rabs. destruct (Rcase_abs a); lra. Qed.

Lemma ln_upper A : 0 < A -> ln A <= A - 1.
Proof.
  intros HA. pose proof (exp_ineq1_le (ln A)) as H.
  rewrite exp_ln in H by exact HA. lra.
Qed.

Lemma ln_lower A : 0 < A -> 1 - / A <= ln A.
Proof.
  intros HA. pose proof (Rinv_0_lt_compat A HA) as Hi.
  pose proof (ln_upper (/ A) Hi) as H.
  rewrite ln_Rinv in H by exact HA. lra.
Qed.

Lemma ln_monotone A B : 0 < A -> A <= B -> ln A <= ln B.
Proof.
  intros HA [Hlt | ->]; [|lra].
  left. by apply ln_increasing.
Qed.

Lemma ln_ratio A B :
  0 < A -> 0 < B -> 1 - A / B <= ln B - ln A <= B / A - 1.
Proof.
  intros HA HB.
  assert (Hq : 0 < B / A) by (by apply Rdiv_lt_0_compat).
  pose proof (ln_upper _ Hq) as Hu. pose proof (ln_lower _ Hq) as Hl.
  unfold Rdiv in Hu, Hl at 2.
  rewrite ln_mult, ln_Rinv in Hu, Hl
    by (try done; by apply Rinv_0_lt_compat).
  replace (/ (B / A)) with (A / B) in Hl by (field; lra). lra.
Qed.

Lemma exp_upper w : w < 1 -> exp w * (1 - w) <= 1.
Proof.
  intros Hw. pose proof (exp_ineq1_le (- w)) as H.
  pose proof (exp_pos w) as Hp.
  rewrite exp_Ropp in H.
  assert (exp w * / exp w = 1) by (field; lra).
  nra.
Qed.

(** A number close to another, in the relative sense, has a close
    logarithm. *)
Lemma ln_approx P Q eps :
  0 < Q -> 0 <= eps <= 1 / 2 -> Rabs (P - Q) <= eps * Q ->
  0 < P /\ ln Q - 2 * eps <= ln P <= ln Q + eps.
Proof.
  intros HQ He Hd. apply Rabs_bounds in Hd.
  assert (HP : 0 < P) by nra. split; [done|].
  pose proof (ln_ratio Q P HQ HP) as [Hl Hu].
  assert (P / Q - 1 <= eps).
  { apply (Rmult_le_reg_r Q); [done|]. field_simplify; lra. }
  assert (- (2 * eps) <= 1 - Q / P).
  { apply (Rmult_le_reg_r P); [done|]. field_simplify; nra. }
  lra.
Qed.

(** Numbers with close logarithms are close. *)
Lemma exp_bracket_lower A B lo :
  0 < A -> 0 < B -> lo <= ln B - ln A -> A * (1 + lo) <= B.
Proof.
  intros HA HB Hl.
  assert (HB' : B = A * exp (ln B - ln A)).
  { unfold Rminus. rewrite exp_plus, exp_Ropp, !exp_ln by done. field. lra. }
  set (D := ln B - ln A) in *.
  pose proof (exp_ineq1_le D). nra.
Qed.

Lemma exp_bracket_upper A B hi :
  0 < A -> 0 < B -> ln B - ln A <= hi -> hi < 1 -> B * (1 - hi) <= A.
Proof.
  intros HA HB Hh Hhi.
  assert (HB' : B = A * exp (ln B - ln A)).
  { unfold Rminus. rewrite exp_plus, exp_Ropp, !exp_ln by done. field. lra. }
  set (D := ln B - ln A) in *.
  pose proof (exp_upper D ltac:(lra)). pose proof (exp_pos D). nra.
Qed.

Lemma ln_Rpower_pos A b : 0 < A -> 0 < Rpower A b /\ ln (Rpower A b) = b * ln A.
Proof.
  intros HA. split; [apply exp_pos | apply ln_Rpower].
Qed.

(** ** The round trip over the real numbers *)

(** The constants of the two curves, as the single precision numbers the
    literals denote: 12.92, 0.04045, 0.0031308, 1.055, 0.055, 2.4 and the
    quotient 1.0 / 2.4. *)
Local Notation "'c12_92'" := (13547602 / 1048576).
Local Notation "'c0_04045'" := (10858214 / 268435456).
Local Notation "'c0_0031308'" := (13446684 / 4294967296).
Local Notation "'c1_055'" := (8849981 / 8388608).
Local Notation "'c0_055'" := (14763950 / 268435456).
Local Notation "'c2_4'" := (10066330 / 4194304).
Local Notation "'c1_2_4'" := (13981013 / 33554432).
(** The error of one rounded operation on numbers up to 2, and the
    relative error allowed to [powf]. *)
Local Notation "'eta'" := (/ 2097152).
Local Notation "'eps'" := (/ 1048576).
(** The encoded value at which the curve changes its branch, to eight
    digits. *)
Local Notation "'knee'" := (9047385 / 100000000).

Lemma ln_knee :
  - (1 / 1000000) <= 12 * ln knee - 5 * ln c0_0031308 <= 1 / 1000000 /\
  - 11 <= ln knee <= - (9 / 10).
Proof.
  split.
  - assert (Ha : 0 < knee ^ 12) by (apply pow_lt; lra).
    assert (Hc : 0 < c0_0031308 ^ 5) by (apply pow_lt; lra).
    pose proof (ln_ratio _ _ Hc Ha) as H.
    rewrite !ln_pow in H by lra. simpl INR in H. lra.
  - pose proof (ln_upper knee ltac:(lra)).
    pose proof (ln_lower knee ltac:(lra)). lra.
Qed.

(** Above the threshold the power of the encoding curve stays between
    0.09 and 1. *)
Lemma curve_power_range C :
  c0_0031308 < C <= 1 -> 9 / 100 <= Rpower C c1_2_4 <= 1.
Proof.
  intros [HC HC1].
  destruct (ln_Rpower_pos C c1_2_4 ltac:(lra)) as [Hp Hl].
  destruct ln_knee as [Hk Hk'].
  pose proof (ln_monotone c0_0031308 C ltac:(lra) ltac:(lra)) as Hm.
  pose proof (ln_upper C ltac:(lra)) as Hu.
  split.
  - pose proof (exp_bracket_lower knee (Rpower C c1_2_4) (- (1 / 100000))
                  ltac:(lra) Hp ltac:(lra)). lra.
  - pose proof (exp_bracket_upper 1 (Rpower C c1_2_4) 0 ltac:(lra) Hp) as H.
    rewrite ln_1 in H. lra.
Qed.

(** Both curves on their linear segments. *)
Lemma round_trip_linear_linear X Y Z :
  0 <= X <= c0_04045 ->
  Rabs (Y - X / c12_92) <= eta ->
  Rabs (Z - c12_92 * Y) <= eta ->
  Rabs (Z - X) <= 1 / 10000.
Proof.
  intros HX HY%Rabs_bounds HZ%Rabs_bounds. apply Rabs_le. lra.
Qed.

(** The inverse on its linear segment, the encoding curve on its power
    segment: this happens just below the threshold 0.04045. *)
Lemma round_trip_linear_power X Y P M Z :
  0 <= X <= c0_04045 ->
  Rabs (Y - X / c12_92) <= eta ->
  c0_0031308 < Y ->
  Rabs (P - Rpower Y c1_2_4) <= eps * Rpower Y c1_2_4 ->
  Rabs (M - c1_055 * P) <= eta ->
  Rabs (Z - (M - c0_055)) <= eta ->
  Rabs (Z - X) <= 1 / 10000.
Proof.
  intros HX HY%Rabs_bounds HY3 HP HM%Rabs_bounds HZ%Rabs_bounds.
  destruct (ln_Rpower_pos Y c1_2_4 ltac:(lra)) as [Hp Hl].
  destruct (ln_approx _ _ eps Hp ltac:(lra) HP) as [HP0 HlP].
  destruct ln_knee as [Hk Hk'].
  pose proof (ln_monotone c0_0031308 Y ltac:(lra) ltac:(lra)) as Hm.
  pose proof (ln_ratio c0_0031308 Y ltac:(lra) ltac:(lra)) as [_ Hr].
  assert (Y / c0_0031308 - 1 <= 2 / 10000) by lra.
  pose proof (exp_bracket_lower knee P (- (1 / 100000))
                ltac:(lra) HP0 ltac:(lra)).
  pose proof (exp_bracket_upper knee P (1 / 10000)
                ltac:(lra) HP0 ltac:(lra) ltac:(lra)).
  apply Rabs_le. lra.
Qed.

(** The inverse on its power segment, the encoding curve on its linear
    segment: this happens just above the threshold 0.04045. *)
Lemma round_trip_power_linear X S T P C Z :
  c0_04045 < X <= 1 ->
  Rabs (S - (X + c0_055)) <= eta ->
  Rabs (T - S / c1_055) <= eta ->
  Rabs (P - Rpower T c2_4) <= eps * Rpower T c2_4 ->
  C = Rmin 1 P -> C <= c0_0031308 ->
  Rabs (Z - c12_92 * C) <= eta ->
  Rabs (Z - X) <= 1 / 10000.
Proof.
  intros HX HS%Rabs_bounds HT%Rabs_bounds HP HC HC3 HZ%Rabs_bounds.
  assert (HT0 : 904729 / 10000000 <= T) by lra.
  destruct (ln_Rpower_pos T c2_4 ltac:(lra)) as [Hp Hl].
  destruct (ln_approx _ _ eps Hp ltac:(lra) HP) as [HP0 HlP].
  destruct ln_knee as [Hk Hk'].
  assert (HCP : C = P).
  { rewrite HC in *. unfold Rmin in *. destruct (Rle_dec 1 P); lra. }
  clear HC. subst C.
  pose proof (ln_monotone P c0_0031308 HP0 HC3) as Hm.
  pose proof (ln_monotone (904729 / 10000000) T ltac:(lra) HT0) as Hm'.
  pose proof (ln_ratio knee (904729 / 10000000) ltac:(lra) ltac:(lra))
    as [Hr _].
  pose proof (exp_bracket_upper knee T (2 / 1000000)
                ltac:(lra) ltac:(lra) ltac:(lra) ltac:(lra)).
  pose proof (exp_bracket_lower c0_0031308 P (- (5 / 100000))
                ltac:(lra) HP0 ltac:(lra)).
  apply Rabs_le. lra.
Qed.

(** Both curves on their power segments. *)
Lemma round_trip_power_power X S T P C P2 M Z :
  c0_04045 < X <= 1 ->
  Rabs (S - (X + c0_055)) <= eta ->
  Rabs (T - S / c1_055) <= eta ->
  Rabs (P - Rpower T c2_4) <= eps * Rpower T c2_4 ->
  C = Rmin 1 P ->
  Rabs (P2 - Rpower C c1_2_4) <= eps * Rpower C c1_2_4 ->
  Rabs (M - c1_055 * P2) <= eta ->
  Rabs (Z - (M - c0_055)) <= eta ->
  Rabs (Z - X) <= 1 / 10000.
Proof.
  intros HX HS%Rabs_bounds HT%Rabs_bounds HP HC HP2
    HM%Rabs_bounds HZ%Rabs_bounds.
  assert (HT0 : 9 / 100 <= T <= 1 + 1 / 100000) by lra.
  destruct (ln_Rpower_pos T c2_4 ltac:(lra)) as [Hp Hl].
  destruct (ln_approx _ _ eps Hp ltac:(lra) HP) as [HP0 HlP].
  assert (HC0 : 0 < C).
  { rewrite HC. unfold Rmin. destruct (Rle_dec 1 P); lra. }
  destruct (ln_Rpower_pos C c1_2_4 HC0) as [Hp2 Hl2].
  destruct (ln_approx _ _ eps Hp2 ltac:(lra) HP2) as [HP20 HlP2].
  pose proof (ln_upper T ltac:(lra)) as HuT.
  pose proof (ln_lower T ltac:(lra)) as HlT.
  assert (/ T <= 12).
  { apply (Rmult_le_reg_r T); [lra|]. rewrite Rinv_l by lra. lra. }
  assert (HD : - (1 / 100000) <= ln P2 - ln T <= 1 / 100000).
  { rewrite HC in *. unfold Rmin in *. destruct (Rle_dec 1 P) as [H1|H1].
    - pose proof (ln_monotone 1 P ltac:(lra) H1) as Hm.
      rewrite ln_1 in *. lra.
    - lra. }
  pose proof (exp_bracket_lower T P2 _ ltac:(lra) HP20 (proj1 HD)).
  pose proof (exp_bracket_upper T P2 _ ltac:(lra) HP20 (proj2 HD)
                ltac:(lra)).
  apply Rabs_le. lra.
Qed.

(** ** The round trip in single precision *)

Lemma bpow_neg_20 : bpow (-20) = eps.
Proof. unfold bpow. simpl. lra. Qed.

Lemma bpow_neg_23 : bpow (-23) = / 8388608.
Proof. unfold bpow. simpl. lra. Qed.

Lemma B2R_two : B2R (S754_finite false 8388608 (-22)) = 2.
Proof.
  cbn [B2R cond_Zopp]. rewrite F2R_neg_exp.
  change (2 ^ 22)%Z with 4194304%Z. lra.
Qed.

(** One rounded operation with a result of at most 2. *)
Lemma rounds_approx v r :
  rounds_to false v r -> 0 <= v <= 2 ->
  valid r = true /\ finite_nonneg r = true /\ Rabs (B2R r - v) <= eta.
Proof.
  intros Hr [H0 H2].
  destruct (rounds_le v r (S754_finite false 8388608 (-22)) Hr
              eq_refl eq_refl) as [Hf Hle]; [rewrite B2R_two; lra|].
  split; [by eapply rounds_valid|]. split; [by eapply rounds_nonneg|].
  pose proof (rounds_error v r Hr Hf H0) as He.
  pose proof (bpow_le (-149) (-23) ltac:(lia)) as Hb.
  rewrite bpow_neg_23 in *. lra.
Qed.

Lemma finite_pos_inv r :
  finite_nonneg r = true -> 0 < B2R r -> exists m e, r = S754_finite false m e.
Proof.
  destruct r as [| | |[] m e]; try done; simpl; try lra. eauto.
Qed.

Lemma zero_approx : Rabs (0 - 0) <= eta.
Proof. apply Rabs_le. lra. Qed.

Section RoundTrip.
#[local] Existing Instance Binary32.model.
Variable powf : spec_float -> spec_float -> spec_float.

Lemma div_approx (a b : spec_float) :
  finite_nonneg a = true -> finite_nonneg b = true ->
  0 < B2R b -> B2R a / B2R b <= 2 ->
  valid (fdiv a b) = true /\ finite_nonneg (fdiv a b) = true /\
  Rabs (B2R (fdiv a b) - B2R a / B2R b) <= eta.
Proof.
  intros Ha Hb Hb0 Hle.
  destruct (finite_pos_inv b Hb Hb0) as (mb & eb & ->).
  destruct a as [sa| | |[] ma ea]; try done.
  - repeat split. cbn [fdiv Binary32.model SFdiv B2R].
    unfold Rdiv. rewrite Rmult_0_l. apply zero_approx.
  - apply rounds_approx; [apply div_rounds|].
    pose proof (B2R_pos ma ea). split; [|done].
    apply Rlt_le, Rdiv_lt_0_compat; done.
Qed.

Lemma mul_approx (a b : spec_float) :
  valid a = true -> valid b = true ->
  finite_nonneg a = true -> finite_nonneg b = true ->
  B2R a * B2R b <= 2 ->
  valid (fmul a b) = true /\ finite_nonneg (fmul a b) = true /\
  Rabs (B2R (fmul a b) - B2R a * B2R b) <= eta.
Proof.
  intros Hva Hvb Ha Hb Hle.
  destruct a as [sa| | |[] ma ea], b as [sb| | |[] mb eb]; try done;
    try (repeat split; cbn [fmul Binary32.model SFmul B2R];
         rewrite ?Rmult_0_l, ?Rmult_0_r; apply zero_approx).
  apply rounds_approx; [by apply mul_rounds|].
  pose proof (B2R_pos ma ea). pose proof (B2R_pos mb eb). split; [nra|done].
Qed.

Lemma add_approx (a b : spec_float) :
  valid a = true -> valid b = true ->
  finite_nonneg a = true -> finite_nonneg b = true ->
  B2R a + B2R b <= 2 ->
  valid (fadd a b) = true /\ finite_nonneg (fadd a b) = true /\
  Rabs (B2R (fadd a b) - (B2R a + B2R b)) <= eta.
Proof.
  intros Hva Hvb Ha Hb Hle.
  destruct a as [sa| | |[] ma ea], b as [sb| | |[] mb eb]; try done.
  - destruct sa, sb; repeat split; cbn [fadd Binary32.model SFadd B2R];
      apply Rabs_le; lra.
  - cbn [fadd Binary32.model SFadd]. repeat split; try done.
    cbn [B2R]. apply Rabs_le. lra.
  - cbn [fadd Binary32.model SFadd]. repeat split; try done.
    cbn [B2R]. apply Rabs_le. lra.
  - apply rounds_approx; [apply add_rounds|].
    pose proof (B2R_pos ma ea). pose proof (B2R_pos mb eb). lra.
Qed.

Lemma sub_approx (a b : spec_float) :
  valid a = true -> finite_nonneg a = true -> finite_nonneg b = true ->
  B2R b < B2R a -> B2R a - B2R b <= 2 ->
  valid (fsub a b) = true /\ finite_nonneg (fsub a b) = true /\
  Rabs (B2R (fsub a b) - (B2R a - B2R b)) <= eta.
Proof.
  intros Hva Ha Hb Hlt Hle.
  pose proof (B2R_nonneg b Hb) as Hb0.
  destruct (finite_pos_inv a Ha ltac:(lra)) as (ma & ea & ->).
  destruct b as [sb| | |[] mb eb]; try done.
  - cbn [fsub Binary32.model SFsub]. repeat split; try done.
    cbn [B2R]. apply Rabs_le. lra.
  - apply rounds_approx; [by apply sub_rounds|]. lra.
Qed.

Lemma clamp01_spec (x : spec_float) :
  valid x = true -> finite_nonneg x = true ->
  valid (clamp01 x) = true /\ finite_nonneg (clamp01 x) = true /\
  B2R (clamp01 x) = Rmin 1 (B2R x).
Proof.
  intros Hv Hf. unfold clamp01, fmax, fmin.
  rewrite one_literal, zero_literal.
  cbn [fltb Binary32.model].
  pose proof (ltb_nonneg_spec x one Hv valid_one Hf eq_refl) as H1.
  rewrite B2R_one in H1. pose proof (B2R_nonneg x Hf) as H0.
  unfold Rmin. destruct (SFltb x one).
  - pose proof (ltb_nonneg_spec (S754_zero false) x eq_refl Hv eq_refl Hf)
      as H2. change (B2R (S754_zero false)) with 0 in H2.
    destruct (SFltb (S754_zero false) x); destruct (Rle_dec 1 (B2R x));
      repeat split; try done; cbn [B2R]; lra.
  - change (SFltb (S754_zero false) one) with true. cbv iota.
    rewrite B2R_one. destruct (Rle_dec 1 (B2R x)); repeat split; lra.
Qed.

Lemma literal_12_92 : literal 1292 100 = S754_finite false 13547602 (-20).
Proof. reflexivity. Qed.
Lemma literal_0_04045 :
  literal 4045 100000 = S754_finite false 10858214 (-28).
Proof. reflexivity. Qed.
Lemma literal_0_0031308 :
  literal 31308 10000000 = S754_finite false 13446684 (-32).
Proof. reflexivity. Qed.
Lemma literal_1_055 : literal 1055 1000 = S754_finite false 8849981 (-23).
Proof. reflexivity. Qed.
Lemma literal_0_055 : literal 55 1000 = S754_finite false 14763950 (-28).
Proof. reflexivity. Qed.
Lemma literal_2_4 : literal 24 10 = S754_finite false 10066330 (-22).
Proof. reflexivity. Qed.
Lemma literal_1_2_4 :
  fdiv (literal 1 1) (literal 24 10) = S754_finite false 13981013 (-25).
Proof. reflexivity. Qed.

Lemma B2R_12_92 : B2R (S754_finite false 13547602 (-20)) = c12_92.
Proof. cbn [B2R cond_Zopp]. by rewrite F2R_neg_exp. Qed.
Lemma B2R_0_04045 : B2R (S754_finite false 10858214 (-28)) = c0_04045.
Proof. cbn [B2R cond_Zopp]. by rewrite F2R_neg_exp. Qed.
Lemma B2R_0_0031308 : B2R (S754_finite false 13446684 (-32)) = c0_0031308.
Proof. cbn [B2R cond_Zopp]. by rewrite F2R_neg_exp. Qed.
Lemma B2R_1_055 : B2R (S754_finite false 8849981 (-23)) = c1_055.
Proof. cbn [B2R cond_Zopp]. by rewrite F2R_neg_exp. Qed.
Lemma B2R_0_055 : B2R (S754_finite false 14763950 (-28)) = c0_055.
Proof. cbn [B2R cond_Zopp]. by rewrite F2R_neg_exp. Qed.
Lemma B2R_2_4 : B2R (S754_finite false 10066330 (-22)) = c2_4.
Proof. cbn [B2R cond_Zopp]. by rewrite F2R_neg_exp. Qed.
Lemma B2R_1_2_4 : B2R (S754_finite false 13981013 (-25)) = c1_2_4.
Proof. cbn [B2R cond_Zopp]. by rewrite F2R_neg_exp. Qed.

Lemma finite_pos (r : spec_float) :
  is_finite r = true -> 0 < B2R r -> finite_nonneg r = true.
Proof.
  destruct r as [| | |[] m e]; try done. intros _.
  pose proof (B2R_pos m e) as H. cbn [B2R cond_Zopp] in *.
  unfold F2R in *. rewrite opp_IZR. lra.
Qed.

Lemma pow_accurate_inv (a b : spec_float) A B :
  pow_accurate powf a b -> B2R a = A -> B2R b = B -> 0 < A ->
  valid (powf a b) = true /\ finite_nonneg (powf a b) = true /\
  Rabs (B2R (powf a b) - Rpower A B) <= eps * Rpower A B.
Proof.
  intros (Hv & Hf & He) <- <- HA. rewrite bpow_neg_20 in He.
  split; [done|]. split; [|done].
  apply finite_pos; [done|].
  pose proof (exp_pos (B2R b * ln (B2R a))) as Hp.
  fold (Rpower (B2R a) (B2R b)) in Hp.
  apply Rabs_bounds in He. lra.
Qed.

(** What [applySRGBInverse] computes on a number of [0, 1]. *)
Lemma inverse_spec (x : spec_float) :
  valid x = true -> finite_nonneg x = true -> B2R x <= 1 ->
  (fleb (clamp01 x) (literal 4045 100000) = false ->
   pow_accurate powf
     (fdiv (fadd (clamp01 x) (literal 55 1000)) (literal 1055 1000))
     (literal 24 10)) ->
  valid (applySRGBInverse powf x) = true /\
  finite_nonneg (applySRGBInverse powf x) = true /\
  ((B2R x <= c0_04045 /\
    Rabs (B2R (applySRGBInverse powf x) - B2R x / c12_92) <= eta) \/
   (c0_04045 < B2R x /\
    exists S T,
      Rabs (S - (B2R x + c0_055)) <= eta /\
      Rabs (T - S / c1_055) <= eta /\
      Rabs (B2R (applySRGBInverse powf x) - Rpower T c2_4)
      <= eps * Rpower T c2_4)).
Proof.
  intros Hv Hf Hx1 Hpow.
  destruct (clamp01_spec x Hv Hf) as (Hvc & Hfc & Hc).
  rewrite Rmin_right in Hc by done.
  pose proof (B2R_nonneg x Hf) as Hx0.
  unfold applySRGBInverse. cbv zeta.
  set (c := @clamp01 Binary32.model x) in *.
  pose proof (leb_nonneg_spec c (S754_finite false 10858214 (-28))
                Hvc eq_refl Hfc eq_refl) as Hs.
  rewrite B2R_0_04045, Hc in Hs.
  change (SFleb c (S754_finite false 10858214 (-28)))
    with (fleb c (literal 4045 100000)) in Hs.
  destruct (fleb c (literal 4045 100000)).
  - rewrite literal_12_92.
    destruct (div_approx c (S754_finite false 13547602 (-20)) Hfc eq_refl)
      as (Hvy & Hfy & Hy); rewrite ?B2R_12_92, ?Hc in *; try lra.
    split; [done|]. split; [done|]. left. by split.
  - rewrite literal_0_055, literal_1_055, literal_2_4 in *.
    destruct (add_approx c (S754_finite false 14763950 (-28))
                Hvc eq_refl Hfc eq_refl)
      as (Hvs & Hfs & Hs'); rewrite ?B2R_0_055, ?Hc in *; [lra|].
    pose proof (Rabs_bounds _ _ Hs') as Hsb.
    destruct (div_approx _ (S754_finite false 8849981 (-23)) Hfs eq_refl)
      as (Hvt & Hft & Ht); rewrite ?B2R_1_055 in *; try lra.
    pose proof (Rabs_bounds _ _ Ht) as Htb.
    destruct (pow_accurate_inv _ _ _ c2_4 (Hpow eq_refl) eq_refl B2R_2_4)
      as (Hvy & Hfy & Hy); [lra|].
    split; [done|]. split; [done|]. right. split; [done|].
    eexists _, _. split; [exact Hs'|]. split; [exact Ht|exact Hy].
Qed.

(** What [applySRGBCurve] computes on a number that is not negative. *)
Lemma curve_spec (y : spec_float) :
  valid y = true -> finite_nonneg y = true ->
  (fleb (clamp01 y) (literal 31308 10000000) = false ->
   pow_accurate powf (clamp01 y) (fdiv (literal 1 1) (literal 24 10))) ->
  valid (applySRGBCurve powf y) = true /\
  finite_nonneg (applySRGBCurve powf y) = true /\
  ((Rmin 1 (B2R y) <= c0_0031308 /\
    Rabs (B2R (applySRGBCurve powf y) - c12_92 * Rmin 1 (B2R y)) <= eta) \/
   (c0_0031308 < Rmin 1 (B2R y) /\
    exists P M,
      Rabs (P - Rpower (Rmin 1 (B2R y)) c1_2_4)
      <= eps * Rpower (Rmin 1 (B2R y)) c1_2_4 /\
      Rabs (M - c1_055 * P) <= eta /\
      Rabs (B2R (applySRGBCurve powf y) - (M - c0_055)) <= eta)).
Proof.
  intros Hv Hf Hpow.
  destruct (clamp01_spec y Hv Hf) as (Hvc & Hfc & Hc).
  pose proof (Rmin_l 1 (B2R y)) as HC1.
  unfold applySRGBCurve. cbv zeta.
  set (c := @clamp01 Binary32.model y) in *. rewrite <- Hc in *.
  pose proof (leb_nonneg_spec c (S754_finite false 13446684 (-32))
                Hvc eq_refl Hfc eq_refl) as Hs.
  rewrite B2R_0_0031308 in Hs.
  change (SFleb c (S754_finite false 13446684 (-32)))
    with (fleb c (literal 31308 10000000)) in Hs.
  destruct (fleb c (literal 31308 10000000)).
  - rewrite literal_12_92.
    destruct (mul_approx (S754_finite false 13547602 (-20)) c
                eq_refl Hvc eq_refl Hfc)
      as (Hvz & Hfz & Hz); rewrite ?B2R_12_92 in *; [lra|].
    split; [done|]. split; [done|]. left. by split.
  - rewrite literal_0_055, literal_1_055, literal_1_2_4 in *.
    destruct (pow_accurate_inv _ _ _ c1_2_4 (Hpow eq_refl) eq_refl B2R_1_2_4)
      as (Hvp & Hfp & Hp); [lra|].
    pose proof (curve_power_range (B2R c) ltac:(lra)) as Hr.
    pose proof (Rabs_bounds _ _ Hp) as Hpb.
    destruct (mul_approx (S754_finite false 8849981 (-23)) _
                eq_refl Hvp eq_refl Hfp)
      as (Hvm & Hfm & Hm); rewrite ?B2R_1_055 in *; [lra|].
    pose proof (Rabs_bounds _ _ Hm) as Hmb.
    destruct (sub_approx _ (S754_finite false 14763950 (-28))
                Hvm Hfm eq_refl)
      as (Hvz & Hfz & Hz); rewrite ?B2R_0_055 in *; try lra.
    split; [done|]. split; [done|]. right. split; [done|].
    eexists _, _. split; [exact Hp|]. split; [exact Hm|exact Hz].
Qed.

Lemma clamp01_leb (x k : spec_float) :
  valid x = true -> finite_nonneg x = true ->
  valid k = true -> finite_nonneg k = true -> B2R x <= B2R k ->
  fleb (clamp01 x) k = true.
Proof.
  intros Hv Hf Hvk Hfk Hle.
  destruct (clamp01_spec x Hv Hf) as (Hvc & Hfc & Hc).
  apply leb_of_le; try done.
  pose proof (Rmin_r 1 (B2R x)). lra.
Qed.

Lemma B2R_0_04 : B2R (S754_finite false 10737418 (-28)) = 10737418 / 268435456.
Proof. cbn [B2R cond_Zopp]. by rewrite F2R_neg_exp. Qed.

Lemma B2R_0_003 : B2R (S754_finite false 12884902 (-32)) = 12884902 / 4294967296.
Proof. cbn [B2R cond_Zopp]. by rewrite F2R_neg_exp. Qed.

(** An argument of either curve that is not below 0 and not above a given
    positive bound. *)
Lemma bounded_arg (x k : spec_float) :
  valid x = true -> valid k = true -> finite_nonneg k = true ->
  fleb (literal 0 1) x = true -> fleb x k = true ->
  finite_nonneg x = true /\ 0 <= B2R x <= B2R k.
Proof.
  intros Hv Hvk Hfk H0 H1. rewrite zero_literal in H0.
  assert (Hf : finite_nonneg x = true).
  { destruct (leb_zero_iff x H0) as [Hf|Hf]; [done|subst].
    by destruct k as [| | |[]]. }
  pose proof (leb_nonneg_spec x k Hv Hvk Hf Hfk) as Hx1.
  cbn [fleb Binary32.model] in H1. rewrite H1 in Hx1.
  pose proof (B2R_nonneg x Hf). done.
Qed.

(** C3.  For every single precision number [x] of the interval [0, 1],
    encoding the linearised value gives [x] back within 1e-4:
    [applySRGBCurve (applySRGBInverse x)] is a finite number whose distance
    from [x] is at most 0.0001.  The four arithmetic operations are those
    of IEEE binary32; of [std::pow], which comes from libm, the theorem
    assumes that each of the two calls made on the way returns a finite
    number within the relative distance 2^-20 of the real power. *)
Theorem srgb_round_trip_in_single_precision (x : spec_float) :
  valid x = true ->
  fleb (literal 0 1) x = true -> fleb x (literal 1 1) = true ->
  (fleb (clamp01 x) (literal 4045 100000) = false ->
   pow_accurate powf
     (fdiv (fadd (clamp01 x) (literal 55 1000)) (literal 1055 1000))
     (literal 24 10)) ->
  (fleb (clamp01 (applySRGBInverse powf x)) (literal 31308 10000000) = false ->
   pow_accurate powf (clamp01 (applySRGBInverse powf x))
     (fdiv (literal 1 1) (literal 24 10))) ->
  is_finite (applySRGBCurve powf (applySRGBInverse powf x)) = true /\
  Rabs (B2R (applySRGBCurve powf (applySRGBInverse powf x)) - B2R x)
  <= 1 / 10000.
Proof.
  intros Hv H0 H1 Hp1 Hp2. rewrite one_literal in H1.
  destruct (bounded_arg x one Hv valid_one eq_refl H0 H1) as (Hf & Hx0 & Hx1).
  rewrite B2R_one in Hx1.
  destruct (inverse_spec x Hv Hf Hx1 Hp1) as (Hvy & Hfy & Hy).
  destruct (curve_spec _ Hvy Hfy Hp2) as (Hvz & Hfz & Hz).
  split; [by apply finite_nonneg_finite|].
  destruct Hy as [(Hx & Hy) | (Hx & S & T & HS & HT & Hy)].
  - pose proof (Rabs_bounds _ _ Hy) as Hyb.
    rewrite Rmin_right in Hz by lra.
    destruct Hz as [(_ & Hz) | (Hc & P & M & HP & HM & Hz)].
    + by eapply round_trip_linear_linear.
    + by eapply (round_trip_linear_power _ _ P M).
  - destruct Hz as [(Hc & Hz) | (Hc & P & M & HP & HM & Hz)].
    + by eapply (round_trip_power_linear (B2R x) S T _ _ _
                   ltac:(lra) HS HT Hy).
    + by eapply (round_trip_power_power (B2R x) S T _ _ P M _
                   ltac:(lra) HS HT Hy eq_refl).
Qed.

(** X23.  On their linear segments the two curves undo each other in
    single precision up to rounding, whatever [std::pow] returns: for a
    number [x] of [0, 0.04], [applySRGBCurve (applySRGBInverse x)] is
    within 1e-5 of [x], and for a number [x] of [0, 0.003],
    [applySRGBInverse (applySRGBCurve x)] is within 1e-6 of [x]. *)
Theorem srgb_linear_segments_round_trip (x : spec_float) :
  valid x = true -> fleb (literal 0 1) x = true ->
  (fleb x (literal 4 100) = true ->
   is_finite (applySRGBCurve powf (applySRGBInverse powf x)) = true /\
   Rabs (B2R (applySRGBCurve powf (applySRGBInverse powf x)) - B2R x)
   <= 1 / 100000) /\
  (fleb x (literal 3 1000) = true ->
   is_finite (applySRGBInverse powf (applySRGBCurve powf x)) = true /\
   Rabs (B2R (applySRGBInverse powf (applySRGBCurve powf x)) - B2R x)
   <= 1 / 1000000).
Proof.
  intros Hv H0. split; intros H1.
  - change (literal 4 100) with (S754_finite false 10737418 (-28)) in H1.
    destruct (bounded_arg x (S754_finite false 10737418 (-28))
                Hv eq_refl eq_refl H0 H1) as (Hf & Hx0 & Hx1).
    rewrite B2R_0_04 in Hx1.
    destruct (inverse_spec x Hv Hf ltac:(lra)) as (Hvy & Hfy & Hy).
    { rewrite literal_0_04045, clamp01_leb; try done.
      rewrite B2R_0_04045. lra. }
    destruct Hy as [(_ & Hy) | (Hx & _)]; [|lra].
    pose proof (Rabs_bounds _ _ Hy) as Hyb.
    pose proof (B2R_nonneg _ Hfy) as Hy0.
    destruct (curve_spec _ Hvy Hfy) as (Hvz & Hfz & Hz).
    { rewrite literal_0_0031308, clamp01_leb; try done.
      rewrite B2R_0_0031308. lra. }
    rewrite Rmin_right in Hz by lra.
    split; [by apply finite_nonneg_finite|].
    destruct Hz as [(_ & Hz) | (Hc & _)]; [|lra].
    apply Rabs_bounds in Hz. apply Rabs_le. lra.
  - change (literal 3 1000) with (S754_finite false 12884902 (-32)) in H1.
    destruct (bounded_arg x (S754_finite false 12884902 (-32))
                Hv eq_refl eq_refl H0 H1) as (Hf & Hx0 & Hx1).
    rewrite B2R_0_003 in Hx1.
    destruct (curve_spec x Hv Hf) as (Hvz & Hfz & Hz).
    { rewrite literal_0_0031308, clamp01_leb; try done.
      rewrite B2R_0_0031308. lra. }
    rewrite Rmin_right in Hz by lra.
    destruct Hz as [(_ & Hz) | (Hc & _)]; [|lra].
    pose proof (Rabs_bounds _ _ Hz) as Hzb.
    destruct (inverse_spec _ Hvz Hfz ltac:(lra)) as (Hvy & Hfy & Hy).
    { rewrite literal_0_04045, clamp01_leb; try done.
      rewrite B2R_0_04045. lra. }
    split; [by apply finite_nonneg_finite|].
    destruct Hy as [(_ & Hy) | (Hx & _)]; [|lra].
    apply Rabs_bounds in Hy. apply Rabs_le. lra.
Qed.

End RoundTrip.

Lemma pow_accurate_one (a b : spec_float) :
  a = one -> pow_accurate (fun _ _ => one) a b.
Proof.
  intros ->. split; [done|]. split; [done|].
  rewrite B2R_one. unfold Rpower. rewrite ln_1, Rmult_0_r, exp_0.
  pose proof (bpow_pos (-20)). apply Rabs_le. lra.
Qed.

Section SinglePrecisionRoundTrip.
#[local] Existing Instance Binary32.model.

Lemma srgb_round_trip_in_single_precision_witness :
  is_finite (applySRGBCurve (fun _ _ => one)
               (applySRGBInverse (fun _ _ => one) one)) = true /\
  Rabs (B2R (applySRGBCurve (fun _ _ => one)
               (applySRGBInverse (fun _ _ => one) one)) - B2R one)
  <= 1 / 10000.
Proof.
  apply (srgb_round_trip_in_single_precision (fun _ _ => one) one);
    try reflexivity; intros _; apply pow_accurate_one; reflexivity.
Defined.

Lemma srgb_linear_segments_round_trip_witness :
  (is_finite (applySRGBCurve (libm_pow (Samples.shots NoFault))
                (applySRGBInverse (libm_pow (Samples.shots NoFault))
                   (Binary32.lit 1 1000))) = true /\
   Rabs (B2R (applySRGBCurve (libm_pow (Samples.shots NoFault))
                (applySRGBInverse (libm_pow (Samples.shots NoFault))
                   (Binary32.lit 1 1000))) - B2R (Binary32.lit 1 1000))
   <= 1 / 100000) /\
  (is_finite (applySRGBInverse (libm_pow (Samples.shots NoFault))
                (applySRGBCurve (libm_pow (Samples.shots NoFault))
                   (Binary32.lit 1 1000))) = true /\
   Rabs (B2R (applySRGBInverse (libm_pow (Samples.shots NoFault))
                (applySRGBCurve (libm_pow (Samples.shots NoFault))
                   (Binary32.lit 1 1000))) - B2R (Binary32.lit 1 1000))
   <= 1 / 1000000).
Proof.
  pose proof (srgb_linear_segments_round_trip
                (libm_pow (Samples.shots NoFault)) (Binary32.lit 1 1000)
                eq_refl eq_refl) as [Ha Hb].
  split; [apply Ha | apply Hb]; reflexivity.
Defined.

End SinglePrecisionRoundTrip.

(** ** The accuracy of the compression function *)

Lemma quotient_bounds (a b c : R) :
  (0 < b -> - (c * b) <= a <= c * b -> - c <= a / b <= c)%R.
Proof.
  intros Hb Ha.
  assert (Hq : (a / b * b = a)%R) by (field; lra).
  split; apply (Rmult_le_reg_r b); lra.
Qed.

(** The quotient [P / Q] of a rounded product [P] of [v] and a rounded
    sum [Q] of [1 + P], rounded once more, against [v / (1 + v)]: [u] is
    the relative and [w] the absolute error of one rounding. *)
Lemma tone_map_real_error (v P Q T u w : R) :
  (0 <= u -> 0 <= w -> 0 <= v -> 0 < P -> P <= Q -> 1 <= Q ->
   Rabs (P - v) <= u * v + w ->
   Rabs (Q - (1 + P)) <= u * (1 + P) + w ->
   Rabs (T - P / Q) <= u * (P / Q) + w ->
   Rabs (T - v / (1 + v)) <= 3 * u + 3 * w)%R.
Proof.
  intros Hu Hw Hv HP HPQ HQ HPv%Rabs_bounds HQP%Rabs_bounds HT%Rabs_bounds.
  assert (HA : (0 <= P / Q <= 1)%R).
  { pose proof (quotient_bounds P Q 1 ltac:(lra) ltac:(lra)).
    pose proof (Rdiv_lt_0_compat P Q HP ltac:(lra)). lra. }
  assert (He : (- (u + w) <= (Q - (1 + P)) / (1 + P) <= u + w)%R).
  { apply quotient_bounds; [lra|].
    assert (0 <= w * P)%R by (apply Rmult_le_pos; lra). lra. }
  assert (HAB : (P / Q - P / (1 + P)
                 = - (P / Q * ((Q - (1 + P)) / (1 + P))))%R)
    by (field; lra).
  assert (Hf : (- (u + w) <= (P - v) / ((1 + P) * (1 + v)) <= u + w)%R).
  { assert (0 <= P * v)%R by (apply Rmult_le_pos; lra).
    assert (0 <= u * P)%R by (apply Rmult_le_pos; lra).
    assert (0 <= u * (P * v))%R by (apply Rmult_le_pos; lra).
    assert (0 <= w * P)%R by (apply Rmult_le_pos; lra).
    assert (0 <= w * v)%R by (apply Rmult_le_pos; lra).
    assert (0 <= w * (P * v))%R by (apply Rmult_le_pos; lra).
    apply quotient_bounds; lra. }
  assert (HBC : (P / (1 + P) - v / (1 + v)
                 = (P - v) / ((1 + P) * (1 + v)))%R) by (field; lra).
  apply Rabs_le. 
  set (A := (P / Q)%R) in *. set (e := ((Q - (1 + P)) / (1 + P))%R) in *.
  set (f := ((P - v) / ((1 + P) * (1 + v)))%R) in *.
  assert (- (u + w) <= A * e <= u + w)%R by nra.
  nra.
Qed.

Section ToneMapAccuracy.
#[local] Existing Instance Binary32.model.

Lemma three_roundings : 3 * bpow (-23) + 3 * bpow (-149) <= bpow (-21).
Proof.
  pose proof (bpow_le (-149) (-25) ltac:(lia)) as Hb.
  assert (bpow (-25) = / 33554432) as E by (unfold bpow; simpl; lra).
  assert (bpow (-21) = / 2097152) as -> by (unfold bpow; simpl; lra).
  rewrite E in Hb. rewrite bpow_neg_23. lra.
Qed.

Lemma tone_map_of_zero s v :
  0 <= v -> v <= 2 * bpow (-149) ->
  Rabs (B2R (SFdiv Binary32.prec Binary32.emax (S754_zero s)
               (SFadd Binary32.prec Binary32.emax one (S754_zero s)))
        - v / (1 + v)) <= bpow (-21).
Proof.
  intros H0 Hv.
  change (SFadd Binary32.prec Binary32.emax one (S754_zero s)) with one.
  change (SFdiv Binary32.prec Binary32.emax (S754_zero s) one)
    with (S754_zero (xorb s false)).
  cbn [B2R].
  pose proof (bpow_le (-149) (-25) ltac:(lia)) as Hb.
  assert (bpow (-25) = / 33554432) as E by (unfold bpow; simpl; lra).
  assert (bpow (-21) = / 2097152) as -> by (unfold bpow; simpl; lra).
  rewrite E in Hb.
  pose proof (quotient_bounds v (1 + v) (/ 2097152) ltac:(lra)) as Hq.
  apply Rabs_le.
  assert (0 <= / 2097152 * v) by (apply Rmult_le_pos; lra). lra.
Qed.

(** The compression function against the quotient of real numbers. *)
Lemma tone_map_accuracy (x m : spec_float) :
  valid x = true -> valid m = true ->
  finite_nonneg x = true -> finite_nonneg m = true ->
  is_finite (fadd (literal 1 1) (fmul x m)) = true ->
  Rabs (B2R (simpleToneMap x m)
        - B2R x * B2R m / (1 + B2R x * B2R m)) <= bpow (-21).
Proof.
  intros Hx Hm Hfx Hfm Hq. unfold simpleToneMap. cbv zeta.
  rewrite one_literal in *.
  change fmul with (SFmul Binary32.prec Binary32.emax) in *.
  change fadd with (SFadd Binary32.prec Binary32.emax) in *.
  change fdiv with (SFdiv Binary32.prec Binary32.emax).
  pose proof (bpow_pos (-149)) as Hw.
  destruct x as [sx| | |[] mx ex], m as [sm| | |[] mm em]; try done;
    try (cbn [SFmul B2R]; rewrite ?Rmult_0_l, ?Rmult_0_r;
         apply tone_map_of_zero; lra).
  pose proof (mul_rounds mx ex mm em Hx Hm) as Hr.
  set (v := B2R (S754_finite false mx ex) * B2R (S754_finite false mm em))
    in *.
  assert (Hv : 0 < v).
  { pose proof (B2R_pos mx ex). pose proof (B2R_pos mm em).
    by apply Rmult_lt_0_compat. }
  set (p := SFmul Binary32.prec Binary32.emax _ _) in *.
  assert (Hfp : is_finite p = true) by (by destruct p as [|[]| |]).
  pose proof (rounds_valid _ _ _ Hr) as Hvp.
  pose proof (rounds_nonneg _ _ Hr Hfp) as Hnp.
  pose proof (rounds_error _ _ Hr Hfp ltac:(lra)) as Hep.
  rewrite bpow_neg_23 in Hep.
  destruct p as [sp| | |[] mp ep] eqn:Ep; try done.
  { apply tone_map_of_zero; [lra|].
    cbn [B2R] in Hep. apply Rabs_bounds in Hep. lra. }
  pose proof (add_rounds 8388608 (-23) mp ep) as Hrq. fold one in Hrq.
  set (q := SFadd Binary32.prec Binary32.emax one _) in *.
  pose proof (B2R_pos mp ep) as HP.
  pose proof (rounds_valid _ _ _ Hrq) as Hvq.
  pose proof (rounds_nonneg _ _ Hrq Hq) as Hnq.
  pose proof (rounds_error _ _ Hrq Hq) as Heq. rewrite B2R_one in *.
  specialize (Heq ltac:(lra)).
  pose proof (rounds_ge _ _ one Hrq Hq valid_one eq_refl) as H1.
  pose proof (rounds_ge _ _ (S754_finite false mp ep) Hrq Hq Hvp eq_refl)
    as H2.
  rewrite B2R_one in H1. specialize (H1 ltac:(lra)).
  specialize (H2 ltac:(lra)).
  destruct (finite_pos_inv q Hnq ltac:(lra)) as (mq & eq & Eq).
  rewrite Eq in *.
  pose proof (div_rounds mp ep mq eq) as Hrt.
  set (P := B2R (S754_finite false mp ep)) in *.
  set (Q := B2R (S754_finite false mq eq)) in *.
  assert (HA : 0 <= P / Q <= 1).
  { pose proof (quotient_bounds P Q 1 ltac:(lra) ltac:(lra)).
    pose proof (Rdiv_lt_0_compat P Q HP ltac:(lra)). lra. }
  destruct (rounds_le _ _ one Hrt valid_one eq_refl) as [Hft _];
    [rewrite B2R_one; lra|].
  pose proof (rounds_error _ _ Hrt Hft ltac:(lra)) as Het.
  rewrite bpow_neg_23 in *.
  pose proof (tone_map_real_error v P Q _ (/ 8388608) (bpow (-149))
                ltac:(lra) ltac:(lra) ltac:(lra) HP H2 H1 Hep Heq Het).
  pose proof three_roundings. rewrite bpow_neg_23 in *. lra.
Qed.

Lemma leb_nonneg_above (x y : spec_float) :
  finite_nonneg x = true -> SFleb x y = true ->
  finite_nonneg y = true \/ y = S754_infinity false.
Proof.
  destruct x as [sx| | |[] mx ex], y as [sy|[]| |[] my ey]; try done; auto.
Qed.

Lemma quotient_monotone (v v' : R) :
  0 <= v <= v' -> v / (1 + v) <= v' / (1 + v').
Proof.
  intros Hv.
  assert (v' / (1 + v') - v / (1 + v) = (v' - v) / ((1 + v') * (1 + v)))
    as E by (field; lra).
  assert (0 <= (v' - v) / ((1 + v') * (1 + v))).
  { apply Rmult_le_pos; [lra|]. apply Rlt_le, Rinv_0_lt_compat. nra. }
  lra.
Qed.

End ToneMapAccuracy.

Section ToneMapSinglePrecision.
#[local] Existing Instance Binary32.model.

Lemma sum_finite_args (x m : spec_float) :
  fleb (literal 0 1) x = true -> fleb (literal 0 1) m = true ->
  is_finite (fadd (literal 1 1) (fmul x m)) = true ->
  finite_nonneg x = true /\ finite_nonneg m = true.
Proof.
  rewrite zero_literal, one_literal. intros Hx Hm Hq.
  destruct x as [|[]| |[]], m as [|[]| |[]];
    first [ by split | discriminate ].
Qed.

Lemma tone_map_almost_monotone (x x' m : spec_float) :
  valid x = true -> valid x' = true -> valid m = true ->
  fleb (literal 0 1) x = true -> fleb x x' = true ->
  fleb (literal 0 1) m = true ->
  is_finite (fadd (literal 1 1) (fmul x m)) = true ->
  is_finite (fadd (literal 1 1) (fmul x' m)) = true ->
  B2R (simpleToneMap x m) <= B2R (simpleToneMap x' m) + bpow (-20).
Proof.
  intros Hx Hx' Hm H0 Hle Hm0 Hq Hq'.
  destruct (sum_finite_args x m H0 Hm0 Hq) as [Hfx Hfm].
  assert (Hfx' : finite_nonneg x' = true).
  { destruct (leb_nonneg_above x x' Hfx Hle) as [H|H]; [done|subst].
    rewrite one_literal in Hq'. by destruct m as [|[]| |[]]. }
  pose proof (tone_map_accuracy x m Hx Hm Hfx Hfm Hq) as Ha%Rabs_bounds.
  pose proof (tone_map_accuracy x' m Hx' Hm Hfx' Hfm Hq') as Ha'%Rabs_bounds.
  pose proof (leb_nonneg_spec x x' Hx Hx' Hfx Hfx') as Hs.
  cbn [fleb Binary32.model] in Hle. rewrite Hle in Hs.
  pose proof (B2R_nonneg x Hfx). pose proof (B2R_nonneg m Hfm).
  pose proof (quotient_monotone (B2R x * B2R m) (B2R x' * B2R m)
                ltac:(nra)).
  assert (bpow (-20) = 2 * bpow (-21)) as ->.
  { rewrite bpow_neg_20. unfold bpow. simpl. lra. }
  lra.
Qed.

(** C5, as amended.  In single precision the compression function
    multiplies [x] by [m] and divides the product by 1 plus the product,
    each operation rounded to nearest.  For binary32 numbers [x >= 0] and
    [m >= 0]: when the product is finite the result lies in the closed
    interval [0, 1]; when the product overflows or is not a number the
    result is NaN; when 1 plus the product is finite the result is within
    2^-21 of the real number (x*m)/(1 + x*m), and the function is monotone
    in [x] up to that rounding error: for [x <= x'] the result at [x]
    exceeds the result at [x'] by at most 2^-20. *)
Theorem tone_map_in_single_precision (x x' m : spec_float) :
  valid x = true -> valid x' = true -> valid m = true ->
  fleb (literal 0 1) x = true -> fleb x x' = true ->
  fleb (literal 0 1) m = true ->
  simpleToneMap x m
  = SFdiv Binary32.prec Binary32.emax
      (SFmul Binary32.prec Binary32.emax x m)
      (SFadd Binary32.prec Binary32.emax one
         (SFmul Binary32.prec Binary32.emax x m)) /\
  (is_finite (fmul x m) = true ->
     fleb (literal 0 1) (simpleToneMap x m) = true /\
     fleb (simpleToneMap x m) (literal 1 1) = true) /\
  (is_finite (fmul x m) = false -> simpleToneMap x m = S754_nan) /\
  (is_finite (fadd (literal 1 1) (fmul x m)) = true ->
     Rabs (B2R (simpleToneMap x m)
           - B2R x * B2R m / (1 + B2R x * B2R m)) <= bpow (-21)) /\
  (is_finite (fadd (literal 1 1) (fmul x m)) = true ->
   is_finite (fadd (literal 1 1) (fmul x' m)) = true ->
     B2R (simpleToneMap x m) <= B2R (simpleToneMap x' m) + bpow (-20)).
Proof.
  intros Hx Hx' Hm Hx0 Hle Hm0. split; [reflexivity|]. split; [|split].
  - by apply tone_map_single_range.
  - unfold simpleToneMap. rewrite one_literal.
    change fmul with (SFmul Binary32.prec Binary32.emax).
    change fadd with (SFadd Binary32.prec Binary32.emax).
    change fdiv with (SFdiv Binary32.prec Binary32.emax).
    by destruct (SFmul Binary32.prec Binary32.emax x m) as [|[]| |].
  - split.
    + intros Hq.
      destruct (sum_finite_args x m Hx0 Hm0 Hq) as [Hfx Hfm].
      by apply tone_map_accuracy.
    + by apply tone_map_almost_monotone.
Qed.

Lemma tone_map_in_single_precision_witness :
  simpleToneMap (Binary32.lit 1 2) (Binary32.lit 2 1)
  = SFdiv Binary32.prec Binary32.emax
      (SFmul Binary32.prec Binary32.emax
         (Binary32.lit 1 2) (Binary32.lit 2 1))
      (SFadd Binary32.prec Binary32.emax one
         (SFmul Binary32.prec Binary32.emax
            (Binary32.lit 1 2) (Binary32.lit 2 1))) /\
  (fleb (literal 0 1)
     (simpleToneMap (Binary32.lit 1 2) (Binary32.lit 2 1)) = true /\
   fleb (simpleToneMap (Binary32.lit 1 2) (Binary32.lit 2 1))
     (literal 1 1) = true) /\
  Rabs (B2R (simpleToneMap (Binary32.lit 1 2) (Binary32.lit 2 1))
        - B2R (Binary32.lit 1 2) * B2R (Binary32.lit 2 1)
          / (1 + B2R (Binary32.lit 1 2) * B2R (Binary32.lit 2 1)))
  <= bpow (-21) /\
  B2R (simpleToneMap (Binary32.lit 1 2) (Binary32.lit 2 1))
  <= B2R (simpleToneMap (Binary32.lit 3 4) (Binary32.lit 2 1))
     + bpow (-20) /\
  simpleToneMap (Binary32.of_Z (3 * 10 ^ 38)) (Binary32.of_Z 10)
  = S754_nan.
Proof.
  pose proof (tone_map_in_single_precision
                (Binary32.lit 1 2) (Binary32.lit 3 4) (Binary32.lit 2 1)
                eq_refl eq_refl eq_refl eq_refl eq_refl eq_refl)
    as (H1 & H2 & _ & H4 & H5).
  pose proof (tone_map_in_single_precision
                (Binary32.of_Z (3 * 10 ^ 38)) (Binary32.of_Z (3 * 10 ^ 38))
                (Binary32.of_Z 10)
                eq_refl eq_refl eq_refl eq_refl eq_refl eq_refl)
    as (_ & _ & H3 & _).
  split; [exact H1|]. split; [apply H2; reflexivity|].
  split; [apply H4; reflexivity|].
  split; [apply H5; reflexivity | apply H3; reflexivity].
Defined.

(** C5 fails as stated.  With a negative multiplier the value leaves the
    interval: the input 0.5 with the multiplier -1 is mapped to -1.  With
    non-negative arguments the value 1 is reached, which the half-open
    interval excludes: the input 1 with the multiplier 2^25 is mapped to 1.
    The function is not monotone: with the multiplier 3, the input
    8767474 * 2^-27 is mapped to 10996288 * 2^-26 and the next larger
    number, 8767475 * 2^-27, to the smaller 10996287 * 2^-26.  And the
    input 3 * 10^38 with the multiplier 10 is mapped to NaN. *)
Lemma tone_map_not_monotone_in_single_precision :
  let x1 := S754_finite false 8767474 (-27) in
  let x2 := S754_finite false 8767475 (-27) in
  (fleb (literal 0 1) (literal 1 2) = true /\
   simpleToneMap (literal 1 2) (of_int (-1)) = of_int (-1) /\
   fleb (literal 0 1) (simpleToneMap (literal 1 2) (of_int (-1))) = false) /\
  (fleb (literal 0 1) (of_int 1) = true /\
   fleb (literal 0 1) (of_int (2 ^ 25)) = true /\
   simpleToneMap (of_int 1) (of_int (2 ^ 25)) = literal 1 1 /\
   fltb (simpleToneMap (of_int 1) (of_int (2 ^ 25))) (literal 1 1) = false) /\
  (valid x1 = true /\ valid x2 = true /\
   fleb (literal 0 1) x1 = true /\ fltb x1 x2 = true /\
   fleb (literal 0 1) (of_int 3) = true /\
   simpleToneMap x1 (of_int 3) = S754_finite false 10996288 (-26) /\
   simpleToneMap x2 (of_int 3) = S754_finite false 10996287 (-26) /\
   fltb (simpleToneMap x2 (of_int 3)) (simpleToneMap x1 (of_int 3)) = true) /\
  simpleToneMap (of_int (3 * 10 ^ 38)) (of_int 10) = S754_nan.
Proof. vm_compute. repeat split; reflexivity. Qed.

End ToneMapSinglePrecision.
